(** * TSP genetic algorithm: a shallow embedding of [TSPGeneticAlgorithm.tsx]

    The engine of the component (tour length, fitness, population
    initialisation, roulette-wheel selection, order crossover, swap
    mutation, one generation step and reset) is embedded as Rocq functions.

    - JavaScript numbers are IEEE-754 binary64 values: they are modelled by
      Rocq's primitive floats, whose operations are specified by
      [FloatAxioms] through [SpecFloat].
    - [Math.random()] reads the next value of a random source; the source is
      threaded explicitly through every function that draws from it.
    - A JavaScript [TypeError] (reading a property of [undefined]) is the
      [None] outcome of the monad [M].
    - The component is a React function component: the functions of a
      render read the state of that render.  [tick] and [ticks] model the
      timer that [toggleRun] registers with [window.setInterval]: every
      tick calls the [gaIteration] of the render in which the button was
      pressed, and [render] models the in-place sort of the population by
      the statistics panel. *)

From Stdlib Require Import ZArith Lia Floats Sorted.
From stdpp Require Import base option list.

Local Open Scope float_scope.
#[local] Set Warnings "-inexact-float".

(** ** Data model *)

Module City.
(** [interface City { id: number; x: number; y: number }].  Identifiers
    are the array indices handed out by [generateCities]. *)
Record t := mk { id : nat; x : float; y : float }.
End City.

Module Individual.
(** [interface Individual { path: City[]; fitness: number; length: number }] *)
Record t := mk { path : list City.t; fitness : float; length : float }.
End Individual.

Module GAConfig.
Record t := mk {
  cityCount : nat;
  populationSize : nat;
  mutationRate : float;
  crossoverRate : float;
  generations : nat }.
End GAConfig.

(** ** Numbers *)

(** [Math.hypot(dx, dy)]: the square root of the sum of squares. *)
Definition Math_hypot (dx dy : float) : float := sqrt (dx * dx + dy * dy).

(** The number denoted by a natural number (array lengths, loop counters). *)
Definition of_nat (n : nat) : float := of_uint63 (Uint63.of_Z (Z.of_nat n)).

(** [Math.floor] of a non-negative finite number, as an array index.
    Other arguments (negative, infinite, NaN) never reach the index
    computations of the component and are sent to [0]. *)
Definition Math_floor (f : float) : nat :=
  match Prim2SF f with
  | S754_finite false m e =>
      Z.to_nat (match e with
                | Zneg p => Z.shiftr (Zpos m) (Zpos p)
                | _ => Z.shiftl (Zpos m) e
                end)
  | _ => O
  end.

(** ** The random source and the monad of the engine *)

(** The successive results of [Math.random()]. *)
Definition RNG := nat → float.

Definition M (A : Type) : Type := RNG → option (A * RNG).

#[export] Instance M_ret : MRet M := λ A a g, Some (a, g).
#[export] Instance M_bind : MBind M := λ A B k m g,
  match m g with
  | Some (a, g') => k a g'
  | None => None
  end.
Definition throw {A} : M A := λ _, None.

(** The source after one draw. *)
Definition RNG_next (g : RNG) : RNG := λ k, g (S k).

(** [Math.random()] *)
Definition Math_random : M float := λ g, Some (g O, RNG_next g).

(** [Math.floor(Math.random() * n)] *)
Definition random_index (n : nat) : M nat :=
  r ← Math_random; mret (Math_floor (r * of_nat n)).

(** ** Geometry and fitness *)

(** [calculatePathLength]: the loop runs over the indices [0 .. path.length-1]
    and closes the cycle with [(i + 1) % path.length]. *)
Definition calculatePathLength (path : list City.t) : float :=
  foldl (λ len i,
           match path !! i, path !! ((i + 1) `mod` length path)%nat with
           | Some curr, Some next =>
               len + Math_hypot (City.x next - City.x curr)
                                (City.y next - City.y curr)
           | _, _ => len
           end)
        0 (seq 0 (length path)).

(** [calculateFitness]: [1 / individual.length]. *)
Definition calculateFitness (individual : Individual.t) : float :=
  1 / Individual.length individual.

(** ** [Array.prototype.sort]

    The host's sort is modelled by the stable insertion sort: every element
    is inserted into the already sorted prefix, scanning it from the right
    and moving past the elements [tmp] with [comparefn(tmp, element) > 0].
    The comparator may have an effect on a state [S] (the comparator of
    [initPopulation] draws from the random source).  For a consistent
    comparator every stable sort returns this same array. *)
Section ArraySort.
Context {A S : Type}.
Variable comparefn : A → A → S → float * S.

(** [sorted_rev] is the sorted prefix, last element first. *)
Fixpoint sort_insert (element : A) (sorted_rev : list A) (s : S) : list A * S :=
  match sorted_rev with
  | [] => ([element], s)
  | tmp :: before =>
      let '(order, s) := comparefn tmp element s in
      if 0 <? order then
        let '(before', s) := sort_insert element before s in (tmp :: before', s)
      else (element :: tmp :: before, s)
  end.

Fixpoint sort_loop (todo : list A) (sorted_rev : list A) (s : S) : list A * S :=
  match todo with
  | [] => (sorted_rev, s)
  | element :: todo' =>
      let '(sorted_rev, s) := sort_insert element sorted_rev s in
      sort_loop todo' sorted_rev s
  end.

Definition Array_sort (l : list A) (s : S) : list A * S :=
  let '(sorted_rev, s) := sort_loop l [] s in (reverse sorted_rev, s).
End ArraySort.

(** Sorting with a comparator that has no effect. *)
Definition pure_compare {A} (comparefn : A → A → float)
    : A → A → unit → float * unit :=
  λ a b _, (comparefn a b, tt).

Definition sort_by {A} (comparefn : A → A → float) (l : list A) : list A :=
  (Array_sort (pure_compare comparefn) l tt).1.

(** ** Population initialisation *)

Definition canvasWidth : float := 800.
Definition canvasHeight : float := 600.

(** [generateCities]: city [i] gets the identifier [i] and two fresh draws. *)
Fixpoint generateCities_from (i count : nat) : M (list City.t) :=
  match count with
  | O => mret []
  | S count' =>
      rx ← Math_random;
      ry ← Math_random;
      let city := City.mk i (rx * (canvasWidth - 40) + 20)
                            (ry * (canvasHeight - 40) + 20) in
      rest ← generateCities_from (S i) count';
      mret (city :: rest)
  end.

Definition generateCities (count : nat) : M (list City.t) :=
  generateCities_from 0 count.

(** [[...cities].sort(() => Math.random() - 0.5)] *)
Definition shuffle (cities : list City.t) : M (list City.t) :=
  λ g, Some (Array_sort (λ _ _ g, (g O - 0.5, RNG_next g)) cities g).

Definition mkIndividual (path : list City.t) : Individual.t :=
  let length := calculatePathLength path in
  let fitness := calculateFitness (Individual.mk path 0 length) in
  Individual.mk path fitness length.

Fixpoint initPopulation (cities : list City.t) (size : nat) : M (list Individual.t) :=
  match size with
  | O => mret []
  | S size' =>
      path ← shuffle cities;
      rest ← initPopulation cities size';
      mret (mkIndividual path :: rest)
  end.

(** ** Selection *)

(** The [for ... of] loop of [select]; [None] when the walk ends without
    reaching [randomNum]. *)
Fixpoint select_walk (randomNum cumulativeFitness : float)
    (population : list Individual.t) : option Individual.t :=
  match population with
  | [] => None
  | ind :: rest =>
      let cumulativeFitness := cumulativeFitness + Individual.fitness ind in
      if randomNum <=? cumulativeFitness then Some ind
      else select_walk randomNum cumulativeFitness rest
  end.

(** [population.reduce((sum, ind) => sum + ind.fitness, 0)] *)
Definition totalFitness (population : list Individual.t) : float :=
  foldl (λ sum ind, sum + Individual.fitness ind) 0 population.

(** [select] returns [population[0]] after an exhausted walk, which is
    [undefined] ([None]) for an empty population. *)
Definition select (population : list Individual.t) : M (option Individual.t) :=
  let totalFitness := totalFitness population in
  r ← Math_random;
  let randomNum := r * totalFitness in
  mret (match select_walk randomNum 0 population with
        | Some ind => Some ind
        | None => population !! O
        end).

(** ** Crossover *)

(** [child.some(c => c?.id === city.id)] *)
Definition placed (child : list (option City.t)) (city : City.t) : bool :=
  existsb (λ c, match c with
                | Some c => Nat.eqb (City.id c) (City.id city)
                | None => false
                end) child.

(** The first loop: [child[i] = parent1.path[i]] for [i] from [min] to [max]. *)
Definition copy_segment (path1 : list City.t) (min max : nat)
    (child : list (option City.t)) : list (option City.t) :=
  foldl (λ child i,
           match path1 !! i with
           | Some c => <[i := Some c]> child
           | None => child
           end)
        child (seq min (S max - min)).

(** The inner [while] loop, on the part of [parent2.path] from [parent2Idx]
    on: it returns the first city not yet in the child and what follows it.
    Reading past the end of [parent2.path] is the [TypeError] of
    [parent2.path[parent2Idx].id]. *)
Fixpoint next_unplaced (child : list (option City.t)) (rest2 : list City.t)
    : option (City.t * list City.t) :=
  match rest2 with
  | [] => None
  | city :: rest2' =>
      if placed child city then next_unplaced child rest2'
      else Some (city, rest2')
  end.

(** The second loop, over the positions [todo] of the child. *)
Fixpoint fill_from (todo : list nat) (child : list (option City.t))
    (rest2 : list City.t) : option (list (option City.t)) :=
  match todo with
  | [] => Some child
  | i :: todo' =>
      match child !! i with
      | Some (Some _) => fill_from todo' child rest2
      | _ =>
          match next_unplaced child rest2 with
          | Some (city, rest2') => fill_from todo' (<[i := Some city]> child) rest2'
          | None => None
          end
      end
  end.

Definition crossover (config : GAConfig.t) (parent1 parent2 : Individual.t)
    : M (list City.t) :=
  r ← Math_random;
  if GAConfig.crossoverRate config <? r then mret (Individual.path parent1)
  else
    let pathLength := length (Individual.path parent1) in
    start ← random_index pathLength;
    end_ ← random_index pathLength;
    let '(min, max) := if (start <? end_)%nat then (start, end_) else (end_, start) in
    let child := copy_segment (Individual.path parent1) min max
                   (replicate pathLength None) in
    match fill_from (seq 0 pathLength) child (Individual.path parent2) with
    | Some child => mret (omap (λ c, c) child)
    | None => throw
    end.

(** ** Mutation *)

(** [[newPath[i], newPath[j]] = [newPath[j], newPath[i]]] *)
Definition swap (newPath : list City.t) (i j : nat) : list City.t :=
  match newPath !! i, newPath !! j with
  | Some ci, Some cj => <[j := ci]> (<[i := cj]> newPath)
  | _, _ => newPath
  end.

Definition mutate (config : GAConfig.t) (path : list City.t) : M (list City.t) :=
  let newPath := path in
  r ← Math_random;
  if GAConfig.mutationRate config <? r then mret newPath
  else
    i ← random_index (length newPath);
    j ← random_index (length newPath);
    mret (swap newPath i j).

(** ** The generation step *)

Record RunState := mkRunState {
  cities : list City.t;
  population : list Individual.t;
  bestIndividual : Individual.t;
  currentGen : nat;
  isRunning : bool }.

(** One offspring: the body of the [while] loop of [gaIteration]. *)
Definition make_child (config : GAConfig.t) (population : list Individual.t)
    : M Individual.t :=
  parent1 ← select population;
  parent2 ← select population;
  match parent1, parent2 with
  | Some parent1, Some parent2 =>
      childPath ← crossover config parent1 parent2;
      childPath ← mutate config childPath;
      mret (mkIndividual childPath)
  | _, _ => throw
  end.

(** [while (newPopulation.length < config.populationSize)], unfolded
    [todo] times. *)
Fixpoint refill (config : GAConfig.t) (population : list Individual.t)
    (todo : nat) (newPopulation : list Individual.t) : M (list Individual.t) :=
  match todo with
  | O => mret newPopulation
  | S todo' =>
      child ← make_child config population;
      refill config population todo' (newPopulation ++ [child])
  end.

Definition by_fitness_desc (a b : Individual.t) : float :=
  Individual.fitness b - Individual.fitness a.
Definition by_length_asc (a b : Individual.t) : float :=
  Individual.length a - Individual.length b.

Definition gaIteration (config : GAConfig.t) (st : RunState) : M RunState :=
  if (1000 <=? currentGen st)%nat then
    mret (mkRunState (cities st) (population st) (bestIndividual st)
            (currentGen st) false)
  else
    match head (sort_by by_fitness_desc (population st)) with
    | None => throw
    | Some elite =>
        newPopulation ← refill config (population st)
                          (GAConfig.populationSize config - 1) [elite];
        match head (sort_by by_length_asc newPopulation) with
        | None => throw
        | Some currentBest =>
            let best :=
              if Individual.length currentBest <? Individual.length (bestIndividual st)
              then currentBest else bestIndividual st in
            mret (mkRunState (cities st) newPopulation best
                    (S (currentGen st)) (isRunning st))
        end
    end.

(** ** Reset *)

Definition reset (config : GAConfig.t) : M RunState :=
  newCities ← generateCities (GAConfig.cityCount config);
  newPopulation ← initPopulation newCities (GAConfig.populationSize config);
  match head (sort_by by_length_asc newPopulation) with
  | None => throw
  | Some initBest => mret (mkRunState newCities newPopulation initBest 0 false)
  end.


(** ** The rendered page and the timer *)

(** Every render evaluates, in the statistics panel,
    [population.sort((a, b) => a.length - b.length)[0]] on the population
    of the state.  [Array.prototype.sort] sorts in place: a render leaves
    the population of its state sorted by length, and this is the order in
    which the functions of that render see it. *)
Definition render (st : RunState) : RunState :=
  mkRunState (cities st) (sort_by by_length_asc (population st))
    (bestIndividual st) (currentGen st) (isRunning st).

(** One call of [gaIteration] by the timer.  [toggleRun] hands
    [window.setInterval] the [gaIteration] of the render in which the
    button is pressed: [population], [bestIndividual] and [currentGen] in
    its body are the constants of that render, the state [closure], whatever
    the state [st] of the component is when the timer fires.  The setters
    act on [st]: [setIsRunning], [setPopulation] and [setBestIndividual]
    replace a value, [setCurrentGen((prev) => prev + 1)] increments the
    counter.  [gaIteration config st] is [tick config st st]. *)
Definition tick (config : GAConfig.t) (closure st : RunState) : M RunState :=
  if (1000 <=? currentGen closure)%nat then
    mret (mkRunState (cities st) (population st) (bestIndividual st)
            (currentGen st) false)
  else
    match head (sort_by by_fitness_desc (population closure)) with
    | None => throw
    | Some elite =>
        newPopulation ← refill config (population closure)
                          (GAConfig.populationSize config - 1) [elite];
        match head (sort_by by_length_asc newPopulation) with
        | None => throw
        | Some currentBest =>
            let best :=
              if Individual.length currentBest
                   <? Individual.length (bestIndividual closure)
              then currentBest else bestIndividual st in
            mret (mkRunState (cities st) newPopulation best
                    (S (currentGen st)) (isRunning st))
        end
    end.

(** [toggleRun]: the button flips [isRunning]; when it starts the run it
    registers the timer, when it pauses the run it clears the timer. *)
Definition toggleRun (st : RunState) : RunState :=
  mkRunState (cities st) (population st) (bestIndividual st) (currentGen st)
    (negb (isRunning st)).

(** The state of the component after [n] ticks of the timer registered in
    the state [closure]; the component renders after every tick. *)
Fixpoint ticks (config : GAConfig.t) (closure : RunState) (n : nat)
    (st : RunState) : M RunState :=
  match n with
  | O => mret st
  | S n' =>
      st' ← ticks config closure n' st;
      st'' ← tick config closure st';
      mret (render st'')
  end.


(** * Specification-level definitions *)

(** ** Classes of binary64 values *)

Definition sf_is_nan (x : spec_float) : bool :=
  match x with S754_nan => true | _ => false end.

Definition sf_finite (x : spec_float) : bool :=
  match x with
  | S754_zero _ | S754_finite _ _ _ => true
  | _ => false
  end.

(** Non-zero numbers of sign [s]. *)
Definition sf_strict (s : bool) (x : spec_float) : Prop :=
  match x with
  | S754_finite s' _ _ | S754_infinity s' => s' = s
  | _ => False
  end.

(** Numbers of sign [s], zeros included. *)
Definition sf_weak (s : bool) (x : spec_float) : Prop :=
  match x with
  | S754_finite s' _ _ | S754_infinity s' | S754_zero s' => s' = s
  | S754_nan => False
  end.

(** The difference of two finite numbers after alignment of their
    mantissas, as [SFsub] computes it before rounding. *)
Definition aligned_diff (sx : bool) (mx : positive) (ex : Z)
    (sy : bool) (my : positive) (ey : Z) : Z :=
  let ez := Z.min ex ey in
  (cond_Zopp sx (Zpos (shl_align mx ex ez).1)
   - cond_Zopp sy (Zpos (shl_align my ey ez).1))%Z.

(** A rank in [Z * Z * Z], compared lexicographically, orders the numbers as
    [SFcompare] does. *)
Definition sf_rank (x : spec_float) : Z * Z * Z :=
  match x with
  | S754_nan => (0, 0, 0)
  | S754_zero _ => (0, 0, 0)
  | S754_infinity true => (-2, 0, 0)
  | S754_infinity false => (2, 0, 0)
  | S754_finite true m e => (-1, - e, Zneg m)
  | S754_finite false m e => (1, e, Zpos m)
  end%Z.

Definition lex_le (a b : Z * Z * Z) : Prop :=
  let '(a1, a2, a3) := a in
  let '(b1, b2, b3) := b in
  (a1 < b1 ∨ (a1 = b1 ∧ (a2 < b2 ∨ (a2 = b2 ∧ a3 ≤ b3))))%Z.

(** Numbers that are neither NaN nor negative (nor the negative zero). *)
Definition nonneg (f : float) : Prop := sf_weak false (Prim2SF f).

(** ** The random source *)

(** Every index drawn for a tour of [n] cities lies within the tour, as it
    does when the draws are in [[0,1)].  The writes [child[i] = ...] and
    [newPath[i] = ...] of the component are modelled for such indices only:
    past the end JavaScript would grow the array. *)
Definition index_draws_ok (n : nat) (g : RNG) : Prop :=
  ∀ k, (Math_floor (g k * of_nat n) < n)%nat.

(** The coordinates computed from every draw are finite numbers. *)
Definition coordinate_draws_ok (g : RNG) : Prop :=
  ∀ k, is_finite (g k * (canvasWidth - 40) + 20) = true ∧
       is_finite (g k * (canvasHeight - 40) + 20) = true.

(** ** Tours *)

(** A tour that visits every city of [cities] exactly once. *)
Definition visits_each_once (cities path : list City.t) : Prop :=
  path ≡ₚ cities ∧ NoDup (City.id <$> path) ∧ length path = length cities.

(** The cities already in the child, in the order of their positions. *)
Definition filled (child : list (option City.t)) : list City.t :=
  omap (λ c, c) child.

(** The cities of [rest2] that are not yet in the child. *)
Definition unplaced (child : list (option City.t)) (rest2 : list City.t)
    : list City.t :=
  filter (λ d, placed child d = false) rest2.

(** Every filled position of the child holds the city [parent1] has there. *)
Definition agrees (child : list (option City.t)) (path1 : list City.t) : Prop :=
  Forall2 (λ slot c, slot = None ∨ slot = Some c) child path1.

(** The invariant of the second loop of [crossover]. *)
Definition fill_inv (path2 : list City.t) (child : list (option City.t))
    (rest2 : list City.t) : Prop :=
  filled child ++ unplaced child rest2 ≡ₚ path2 ∧
  NoDup (City.id <$> rest2) ∧
  length child = length path2.

(** The children of a population: the results of the body of the refill
    loop (select twice, cross over, mutate, recompute length and fitness). *)
Definition offspring (config : GAConfig.t) (population : list Individual.t)
    (child : Individual.t) : Prop :=
  ∃ g g', make_child config population g = Some (child, g').


(** ** Tour length *)

(** The length of the edge from [a] to [b]. *)
Definition distance (a b : City.t) : float :=
  Math_hypot (City.x b - City.x a) (City.y b - City.y a).

(** The summands of [calculatePathLength], in the order of the loop: the
    edge from each city to its cyclic successor. *)
Definition edge_lengths (path : list City.t) : list float :=
  zip_with distance path (rotate 1 path).

Definition finite_city (c : City.t) : Prop :=
  is_finite (City.x c) = true ∧ is_finite (City.y c) = true.

(** ** Selection, in the words of the specification *)

(** The running cumulative fitness after each individual of the walk. *)
Fixpoint running_sums (cumulativeFitness : float) (population : list Individual.t)
    : list float :=
  match population with
  | [] => []
  | ind :: rest =>
      let cumulativeFitness := cumulativeFitness + Individual.fitness ind in
      cumulativeFitness :: running_sums cumulativeFitness rest
  end.

(** The first individual, in population order, at which the running sum has
    reached [randomNum]. *)
Definition first_reaching (randomNum : float) (population : list Individual.t)
    : option Individual.t :=
  fst <$> head (filter (λ p, (randomNum <=? p.2) = true)
                  (zip population (running_sums 0 population))).

(** ** Statements of the specification that the component does not satisfy *)

(** With [crossoverRate = 0], [crossover] returns the tour of [parent1] for
    every draw of the uniform source on [[0,1)]. *)
Definition crossover_pass_through_claim : Prop :=
  ∀ config parent1 parent2 g,
    GAConfig.crossoverRate config = 0 →
    (0 <=? g O) = true → (g O <? 1) = true →
    fst <$> crossover config parent1 parent2 g = Some (Individual.path parent1).

(** The tour length is non-negative and is the same for every rotation of
    the tour and for its reversal. *)
Definition length_invariance_claim : Prop :=
  ∀ path k,
    Forall finite_city path →
    (0 <=? calculatePathLength path) = true ∧
    calculatePathLength (rotate k path) = calculatePathLength path ∧
    calculatePathLength (reverse path) = calculatePathLength path.

(** ** Example data *)

Definition city (i : nat) (a b : float) : City.t := City.mk i a b.

Definition triangle : list City.t :=
  [city 0 100 100; city 1 400 100; city 2 400 500].

Definition example_config : GAConfig.t := GAConfig.mk 3 2 0.05 0.8 20.
Definition no_crossover_config : GAConfig.t := GAConfig.mk 3 2 0.05 0 20.

Definition half : RNG := λ _, 0.5.
Definition zero_draws : RNG := λ _, 0.
Definition cycle3 : RNG :=
  λ k, match (k `mod` 3)%nat with O => 0.25 | S O => 0.75 | _ => 0.5 end.

Definition example_state : RunState :=
  mkRunState triangle
    [mkIndividual triangle; mkIndividual (rotate 1 triangle)]
    (mkIndividual triangle) 0 false.

Definition ceiling_state : RunState :=
  mkRunState triangle (population example_state) (mkIndividual triangle) 1000 true.



(** Four cities on a horizontal line. *)
Definition walk : list City.t :=
  [city 0 155.9 100; city 1 139.3 100; city 2 236.1 100; city 3 73.3 100].


(** * Further specification-level definitions *)

(** ** Magnitudes *)

(** Numbers below [2 ^ q] in absolute value. *)
Definition sf_below (q : Z) (x : spec_float) : Prop :=
  match x with
  | S754_zero _ => True
  | S754_finite _ m e => (Zpos (digits2_pos m) + e ≤ q)%Z
  | _ => False
  end.

(** ** Draws of [Math.random()] *)

(** A number in [[0,1)]. *)
Definition unit_draw (r : float) : Prop := (0 <=? r) = true ∧ (r <? 1) = true.

Definition unit_draws (g : RNG) : Prop := ∀ k, unit_draw (g k).

(** ** Well-formed states *)

(** An individual whose tour visits the cities and whose length and
    fitness are the ones computed from its tour. *)
Definition tour_of (cities : list City.t) (ind : Individual.t) : Prop :=
  Individual.path ind ≡ₚ cities ∧ ind = mkIndividual (Individual.path ind).

(** The states the component is in after [reset]: distinct identifiers,
    finite coordinates, a non-empty population of tours, and a best-ever
    record that is a tour at most as long as every individual of the
    current population. *)
Definition well_formed (st : RunState) : Prop :=
  NoDup (City.id <$> cities st) ∧
  Forall finite_city (cities st) ∧
  population st ≠ [] ∧
  Forall (tour_of (cities st)) (population st) ∧
  tour_of (cities st) (bestIndividual st) ∧
  ∀ ind, ind ∈ population st →
    (Individual.length (bestIndividual st) <=? Individual.length ind) = true.

(** ** Order crossover *)

(** Filling the empty slots of a child, from left to right, with the
    cities [others]. *)
Fixpoint plug (child : list (option City.t)) (others : list City.t) : list City.t :=
  match child with
  | [] => []
  | Some c :: child' => c :: plug child' others
  | None :: child' =>
      match others with
      | o :: others' => o :: plug child' others'
      | [] => plug child' []
      end
  end.

(** The cities of [path] whose identifier is not among [ids]. *)
Definition without (ids : list nat) (path : list City.t) : list City.t :=
  filter (λ c, City.id c ∉ ids) path.

(** The segment [path1[min..max]] of the first parent. *)
Definition segment (path1 : list City.t) (min max : nat) : list City.t :=
  take (S max - min) (drop min path1).

(** The child of the order crossover: the segment of the first parent at
    its positions, and around it the other cities in the order of the
    second parent. *)
Definition order_crossover (path1 path2 : list City.t) (min max : nat)
    : list City.t :=
  let others := without (City.id <$> segment path1 min max) path2 in
  take min others ++ segment path1 min max ++ drop min others.

(** ** Values *)

(** The value of a finite number that is not negative, in units of
    [2 ^ emin] (the least positive number): an integer. *)
Definition sf_scaled (x : spec_float) : Z :=
  match x with
  | S754_finite false m e => (Zpos m * 2 ^ (e - SpecFloat.emin prec emax))%Z
  | _ => 0%Z
  end.


(** Finite numbers greater than zero. *)
Definition sf_positive (x : spec_float) : Prop :=
  match x with
  | S754_finite false _ _ => True
  | _ => False
  end.

(** ** The canvas *)

(** The points of the canvas at least 20 pixels away from its border. *)
Definition inside_canvas (c : City.t) : Prop :=
  (20 <=? City.x c) = true ∧ (City.x c <=? canvasWidth - 20) = true ∧
  (20 <=? City.y c) = true ∧ (City.y c <=? canvasHeight - 20) = true.

(** ** Further example data *)

(** A configuration whose mutation rate exceeds the draws of [cycle3]. *)
Definition mutating_config : GAConfig.t := GAConfig.mk 3 2 0.9 0.8 20.

(** A single city. *)
Definition lone_city : list City.t := [city 7 120 80].

(** A configuration with one city. *)
Definition single_config : GAConfig.t := GAConfig.mk 1 2 0.05 0.8 20.

(** Four cities at the corners of a rectangle, in an order that crosses
    the rectangle twice: the tour [0; 1; 2; 3] is the longest of the three
    cycles through these cities, [0; 1; 3; 2] is shorter and the perimeter
    [0; 2; 1; 3] is the shortest. *)
Definition square : list City.t :=
  [city 0 115 90; city 1 685 510; city 2 115 510; city 3 685 90].

Definition square_config : GAConfig.t := GAConfig.mk 4 2 0.05 0.8 20.

(** The state after [reset]: both individuals are the tour [0; 1; 2; 3],
    which is also the best-ever record. *)
Definition square_state : RunState :=
  mkRunState square [mkIndividual square; mkIndividual square]
    (mkIndividual square) 0 false.

(** Draws with which [reset] generates [square_state]: the coordinates of
    the four cities, then the draws of the comparator of the two shuffles. *)
Definition square_reset_draws : RNG :=
  λ k, default 0.25
         ([0.125; 0.125; 0.875; 0.875; 0.125; 0.875; 0.875; 0.125] !! k).

(** The draws of two ticks.  In each tick: two draws for the selection of
    the parents, [0.9 > crossoverRate] (no crossover), [0.01 <= mutationRate]
    (mutation), and the two positions to swap: [1] and [2] in the first
    tick, [2] and [3] in the second. *)
Definition square_draws : RNG :=
  λ k, default 0.5
         ([0.5; 0.5; 0.9; 0.01; 0.3; 0.6;
           0.5; 0.5; 0.9; 0.01; 0.6; 0.8] !! k).

(** The state [n] ticks after the button was pressed on the rendered
    [square_state]. *)
Definition square_run (n : nat) : option RunState :=
  fst <$> ticks square_config (render square_state) n
            (toggleRun (render square_state)) square_draws.


(** * Facts on the binary64 specification

    [FloatAxioms] specifies every primitive operation by its counterpart on
    [spec_float]; the lemmas below are about these counterparts. *)

Section RoundingFacts.
Local Open Scope Z_scope.

Lemma digits2_pos_size m : digits2_pos m = Pos.size m.
Proof. induction m; simpl; congruence. Qed.

Lemma digits2_pos_bounds m :
2 ^ (Zpos (digits2_pos m) - 1) <= Zpos m < 2 ^ Zpos (digits2_pos m).
Proof.
rewrite digits2_pos_size. split.
- pose proof (Pos.size_le m) as H.
  assert (Zpos (2 ^ Pos.size m) <= Zpos (m~0)) by (apply Pos2Z.pos_le_pos; exact H).
  rewrite Pos2Z.inj_pow in H0.
  replace (Zpos (Pos.size m)) with (Z.succ (Zpos (Pos.size m) - 1)) in H0 by lia.
  rewrite Z.pow_succ_r in H0 by lia. lia.
- pose proof (Pos.size_gt m) as H.
  assert (Zpos m < Zpos (2 ^ Pos.size m)) by (apply Pos2Z.pos_lt_pos; exact H).
  now rewrite Pos2Z.inj_pow in H0.
Qed.

Lemma shr_1_m mrs : 0 <= shr_m mrs -> shr_m (shr_1 mrs) = Z.div2 (shr_m mrs).
Proof.
destruct mrs as [m r s]; simpl. destruct m as [|[p|p|]|p]; simpl; try reflexivity; lia.
Qed.

Lemma iter_shr_1_m p : forall mrs, 0 <= shr_m mrs ->
shr_m (SpecFloat.iter_pos shr_1 p mrs) = Z.shiftr (shr_m mrs) (Zpos p).
Proof.
induction p as [p IH|p IH|]; intros mrs Hm; simpl.
- assert (H1 : 0 <= shr_m (shr_1 mrs)) by (rewrite shr_1_m by lia; apply Z.div2_nonneg; lia).
  assert (H2 : 0 <= shr_m (SpecFloat.iter_pos shr_1 p (shr_1 mrs))) by (rewrite IH by lia; apply Z.shiftr_nonneg; lia).
  rewrite IH, IH, shr_1_m by lia.
  rewrite Z.div2_spec, !Z.shiftr_shiftr by lia. f_equal. lia.
- assert (H2 : 0 <= shr_m (SpecFloat.iter_pos shr_1 p mrs)) by (rewrite IH by lia; apply Z.shiftr_nonneg; lia).
  rewrite IH, IH by lia. rewrite !Z.shiftr_shiftr by lia. f_equal. lia.
- rewrite shr_1_m by lia. now rewrite Z.div2_spec.
Qed.

Lemma shr_record_of_loc_m m l : shr_m (shr_record_of_loc m l) = m.
Proof. destruct l as [|[]]; reflexivity. Qed.

Lemma shr_nonneg mrs e n : 0 <= shr_m mrs -> 0 <= shr_m (shr mrs e n).1.
Proof.
intros Hm. destruct n as [|p|p]; simpl; try assumption.
rewrite iter_shr_1_m by assumption. apply Z.shiftr_nonneg. assumption.
Qed.

Lemma shr_exp mrs e n : (shr mrs e n).2 = e + Z.max 0 n.
Proof. destruct n; simpl; lia. Qed.

Lemma shr_pos mrs e n :
0 < shr_m mrs -> n < Zdigits2 (shr_m mrs) -> 0 < shr_m (shr mrs e n).1.
Proof.
intros Hm Hn. destruct n as [|p|p]; simpl; try assumption.
rewrite iter_shr_1_m by lia. rewrite Z.shiftr_div_pow2 by lia.
destruct (shr_m mrs) as [|m|m]; try lia. simpl in Hn.
pose proof (digits2_pos_bounds m) as [Hlo _].
apply Z.div_str_pos. split; [lia|].
eapply Z.le_trans; [|exact Hlo]. apply Z.pow_le_mono_r; lia.
Qed.

Lemma round_nearest_even_ge m l : m <= round_nearest_even m l.
Proof. destruct l as [|[]]; simpl; try lia. destruct (Z.even m); lia. Qed.

Lemma shr_fexp_nonneg m e l : 0 <= m -> 0 <= shr_m (shr_fexp prec emax m e l).1.
Proof. intros. unfold shr_fexp. apply shr_nonneg. now rewrite shr_record_of_loc_m. Qed.

Lemma shr_fexp_pos m e l :
0 < m -> emin <= e ->
0 < shr_m (shr_fexp prec emax m e l).1 /\ emin <= (shr_fexp prec emax m e l).2.
Proof.
intros Hm He. unfold shr_fexp. split.
- apply shr_pos; rewrite shr_record_of_loc_m; [assumption|].
  destruct m as [|m|m]; try lia. simpl.
  unfold fexp, SpecFloat.emin, prec, emax in *. lia.
- rewrite shr_exp. lia.
Qed.

Lemma binary_round_aux_weak s m e l :
0 <= m -> sf_weak s (binary_round_aux prec emax s m e l).
Proof.
intros Hm. unfold binary_round_aux.
pose proof (shr_fexp_nonneg m e l Hm) as H1.
destruct (shr_fexp prec emax m e l) as [mrs' e'] eqn:E1. simpl in H1.
pose proof (round_nearest_even_ge (shr_m mrs') (loc_of_shr_record mrs')) as H2.
pose proof (shr_fexp_nonneg (round_nearest_even (shr_m mrs') (loc_of_shr_record mrs')) e' loc_Exact ltac:(lia)) as H3.
destruct (shr_fexp prec emax _ e' loc_Exact) as [mrs'' e''] eqn:E2. simpl in H3.
destruct (shr_m mrs'') as [|p|p]; simpl; try lia; try reflexivity.
destruct (e'' <=? emax - prec); reflexivity.
Qed.

Lemma binary_round_aux_strict s m e l :
0 < m -> emin <= e -> sf_strict s (binary_round_aux prec emax s m e l).
Proof.
intros Hm He. unfold binary_round_aux.
pose proof (shr_fexp_pos m e l Hm He) as [H1 H1'].
destruct (shr_fexp prec emax m e l) as [mrs' e'] eqn:E1. simpl in H1, H1'.
pose proof (round_nearest_even_ge (shr_m mrs') (loc_of_shr_record mrs')) as H2.
pose proof (shr_fexp_pos (round_nearest_even (shr_m mrs') (loc_of_shr_record mrs')) e' loc_Exact ltac:(lia) H1') as [H3 _].
destruct (shr_fexp prec emax _ e' loc_Exact) as [mrs'' e''] eqn:E2. simpl in H3.
destruct (shr_m mrs'') as [|p|p]; simpl; try lia.
destruct (e'' <=? emax - prec); reflexivity.
Qed.

Lemma shl_align_exp mx ex ex' : (shl_align mx ex ex').2 = Z.min ex ex'.
Proof. unfold shl_align. destruct (ex' - ex) eqn:E; simpl; lia. Qed.

Lemma binary_round_weak s m e : sf_weak s (binary_round prec emax s m e).
Proof.
unfold binary_round. destruct (shl_align _ _ _) as [mz ez].
apply binary_round_aux_weak. lia.
Qed.

Lemma binary_round_strict s m e :
emin <= e -> sf_strict s (binary_round prec emax s m e).
Proof.
intros He. unfold binary_round.
pose proof (shl_align_exp m e (fexp prec emax (Zpos (digits2_pos m) + e))) as Hz.
destruct (shl_align _ _ _) as [mz ez]. simpl in Hz.
apply binary_round_aux_strict; [lia|].
unfold fexp, SpecFloat.emin, prec, emax in *. lia.
Qed.

Lemma pos_iter_xO m d : Zpos (Pos.iter xO m d) = Zpos m * 2 ^ Zpos d.
Proof.
induction d as [|d IH] using Pos.peano_ind.
- simpl. lia.
- rewrite Pos.iter_succ, Pos2Z.inj_succ, Z.pow_succ_r by lia.
  rewrite Pos2Z.inj_xO, IH. lia.
Qed.

Lemma shl_align_m mx ex ez :
ez <= ex -> Zpos (shl_align mx ex ez).1 = Zpos mx * 2 ^ (ex - ez).
Proof.
intros H. unfold shl_align. destruct (ez - ex) as [|d|d] eqn:E; simpl.
- replace (ex - ez) with 0 by lia. simpl. lia.
- lia.
- rewrite pos_iter_xO. f_equal. f_equal. lia.
Qed.

Lemma canonical_bounds m e :
canonical_mantissa prec emax m e = true ->
emin <= e /\ Zpos (digits2_pos m) <= 53 /\ (emin < e -> Zpos (digits2_pos m) = 53).
Proof.
unfold canonical_mantissa, fexp, SpecFloat.emin, prec, emax.
intros H%Z.eqb_eq. lia.
Qed.

Lemma valid_finite_bounds s m e :
valid_binary (S754_finite s m e) = true ->
emin <= e /\ Zpos m < 2 ^ 53 /\ (emin < e -> 2 ^ 52 <= Zpos m).
Proof.
simpl. unfold bounded. intros [Hc _]%andb_prop.
apply canonical_bounds in Hc as (He & Hd & Hn).
pose proof (digits2_pos_bounds m) as [Hlo Hhi].
split; [assumption|]. split.
- eapply Z.lt_le_trans; [exact Hhi|]. apply Z.pow_le_mono_r; lia.
- intros H. specialize (Hn H). rewrite Hn in Hlo. exact Hlo.
Qed.

Lemma aligned_diff_swap sx mx ex sy my ey :
aligned_diff sy my ey sx mx ex = - aligned_diff sx mx ex sy my ey.
Proof. unfold aligned_diff. rewrite (Z.min_comm ey ex). lia. Qed.

Lemma aligned_lt mx ex my ey :
valid_binary (S754_finite false mx ex) = true ->
valid_binary (S754_finite false my ey) = true ->
ex < ey ->
Zpos (shl_align mx ex (Z.min ex ey)).1 < Zpos (shl_align my ey (Z.min ex ey)).1.
Proof.
intros (Hex & Hmx & _)%valid_finite_bounds (Hey & _ & Hmy)%valid_finite_bounds Hlt.
rewrite !shl_align_m by lia. rewrite Z.min_l by lia.
replace (ex - ex) with 0 by lia. rewrite Z.pow_0_r, Z.mul_1_r.
specialize (Hmy ltac:(lia)).
assert (2 ^ 1 <= 2 ^ (ey - ex)) by (apply Z.pow_le_mono_r; lia).
nia.
Qed.

Lemma SFcompare_finite sx mx ex sy my ey :
valid_binary (S754_finite sx mx ex) = true ->
valid_binary (S754_finite sy my ey) = true ->
SFcompare (S754_finite sx mx ex) (S754_finite sy my ey)
= Some (aligned_diff sx mx ex sy my ey ?= 0).
Proof.
intros Hx Hy. unfold aligned_diff. simpl SFcompare.
assert (Hx' : valid_binary (S754_finite false mx ex) = true) by exact Hx.
assert (Hy' : valid_binary (S754_finite false my ey) = true) by exact Hy.
pose proof (aligned_lt mx ex my ey Hx' Hy') as Hlt.
pose proof (aligned_lt my ey mx ex Hy' Hx') as Hgt.
rewrite (Z.min_comm ey ex) in Hgt.
f_equal. destruct sx, sy; simpl cond_Zopp.
- destruct (Z.compare_spec ex ey) as [->|H|H].
  + rewrite Z.min_id. rewrite !shl_align_m by lia.
    replace (ey - ey) with 0 by lia. rewrite Z.pow_0_r, !Z.mul_1_r.
    rewrite Pos.compare_cont_spec. simpl.
    destruct (Pos.compare_spec mx my); simpl; symmetry;
      [apply Z.compare_eq_iff | apply Z.compare_gt_iff | apply Z.compare_lt_iff]; lia.
  + specialize (Hlt H). symmetry. apply Z.compare_gt_iff. lia.
  + specialize (Hgt ltac:(lia)). symmetry. apply Z.compare_lt_iff. lia.
- symmetry. apply Z.compare_lt_iff. lia.
- symmetry. apply Z.compare_gt_iff. lia.
- destruct (Z.compare_spec ex ey) as [->|H|H].
  + rewrite Z.min_id. rewrite !shl_align_m by lia.
    replace (ey - ey) with 0 by lia. rewrite Z.pow_0_r, !Z.mul_1_r.
    rewrite Pos.compare_cont_spec. simpl.
    destruct (Pos.compare_spec mx my); simpl; symmetry;
      [apply Z.compare_eq_iff | apply Z.compare_lt_iff | apply Z.compare_gt_iff]; lia.
  + specialize (Hlt H). symmetry. apply Z.compare_lt_iff. lia.
  + specialize (Hgt ltac:(lia)). symmetry. apply Z.compare_gt_iff. lia.
Qed.

Lemma SFsub_finite sx mx ex sy my ey :
SFsub prec emax (S754_finite sx mx ex) (S754_finite sy my ey)
= binary_normalize prec emax (aligned_diff sx mx ex sy my ey) (Z.min ex ey) false.
Proof. reflexivity. Qed.

Lemma SFltb_zero_strict s x :
sf_strict s x ->
SFltb (S754_zero false) x = negb s /\ SFltb x (S754_zero false) = s.
Proof.
destruct x as [s'|s'| |s' m e]; simpl; intros H; try contradiction;
  subst s'; destruct s; split; reflexivity.
Qed.

Lemma SFsub_sign x y :
valid_binary x = true -> valid_binary y = true ->
sf_is_nan x = false -> sf_is_nan y = false ->
SFltb (S754_zero false) (SFsub prec emax x y) = SFltb y x
/\ SFltb (SFsub prec emax x y) (S754_zero false) = SFltb x y.
Proof.
intros Hx Hy Nx Ny.
destruct x as [sx|sx| |sx mx ex], y as [sy|sy| |sy my ey]; try discriminate;
  try (destruct sx, sy; split; reflexivity);
  try (destruct sx; split; reflexivity);
  try (destruct sy; split; reflexivity).
rewrite SFsub_finite.
unfold SFltb at 2 4. rewrite !SFcompare_finite by assumption.
rewrite (aligned_diff_swap sx mx ex sy my ey).
pose proof (valid_finite_bounds _ _ _ Hx) as (Hex & _).
pose proof (valid_finite_bounds _ _ _ Hy) as (Hey & _).
destruct (aligned_diff sx mx ex sy my ey) as [|d|d] eqn:E; simpl binary_normalize.
- split; reflexivity.
- pose proof (binary_round_strict false d (Z.min ex ey) ltac:(lia)) as H.
  apply SFltb_zero_strict in H as [-> ->]. split; reflexivity.
- pose proof (binary_round_strict true d (Z.min ex ey) ltac:(lia)) as H.
  apply SFltb_zero_strict in H as [-> ->]. split; reflexivity.
Qed.

(** ** The order of [SFcompare] *)

Lemma SFcompare_swap x y :
SFcompare y x = option_map CompOpp (SFcompare x y).
Proof.
destruct x as [sx|sx| |sx mx ex], y as [sy|sy| |sy my ey]; simpl; try reflexivity;
  try (destruct sx; reflexivity); try (destruct sy; reflexivity);
  try (destruct sx, sy; reflexivity).
f_equal. rewrite !Pos.compare_cont_spec. simpl.
rewrite (Z.compare_antisym ex ey), (Pos.compare_antisym mx my).
destruct sx, sy; simpl; try reflexivity;
  destruct (ex ?= ey); simpl; try reflexivity;
  destruct (mx ?= my)%positive; reflexivity.
Qed.

Lemma SFcompare_refl x : sf_is_nan x = false -> SFcompare x x = Some Eq.
Proof.
destruct x as [s|s| |s m e]; simpl; try discriminate; intros _; try reflexivity.
- destruct s; reflexivity.
- rewrite Z.compare_refl, Pos.compare_cont_refl. destruct s; reflexivity.
Qed.

Lemma SFcompare_nan x y :
SFcompare x y = None <-> sf_is_nan x = true \/ sf_is_nan y = true.
Proof.
destruct x as [sx|sx| |sx mx ex], y as [sy|sy| |sy my ey]; simpl;
  intuition (try discriminate; try reflexivity).
Qed.

Lemma SFleb_true_iff x y :
SFleb x y = true <-> SFcompare x y = Some Lt \/ SFcompare x y = Some Eq.
Proof. unfold SFleb. destruct (SFcompare x y) as [[]|]; intuition discriminate. Qed.

Lemma SFltb_true_iff x y : SFltb x y = true <-> SFcompare x y = Some Lt.
Proof. unfold SFltb. destruct (SFcompare x y) as [[]|]; intuition discriminate. Qed.

Lemma SFltb_SFleb x y : SFltb x y = true -> SFleb x y = true.
Proof. rewrite SFltb_true_iff, SFleb_true_iff. auto. Qed.

Lemma SFleb_refl x : sf_is_nan x = false -> SFleb x x = true.
Proof. intros H. unfold SFleb. now rewrite SFcompare_refl. Qed.

Lemma SFltb_false_SFleb x y :
sf_is_nan x = false -> sf_is_nan y = false -> SFltb x y = false -> SFleb y x = true.
Proof.
intros Hx Hy. unfold SFltb, SFleb. rewrite (SFcompare_swap x y).
destruct (SFcompare x y) as [[]|] eqn:E; simpl; try discriminate; try reflexivity.
apply SFcompare_nan in E as [E|E]; congruence.
Qed.

Lemma SFleb_not_nan x y : SFleb x y = true -> sf_is_nan x = false /\ sf_is_nan y = false.
Proof. destruct x, y; simpl; try discriminate; auto. Qed.

Lemma SFltb_not_nan x y : SFltb x y = true -> sf_is_nan x = false /\ sf_is_nan y = false.
Proof. intros H%SFltb_SFleb. now apply SFleb_not_nan. Qed.

Lemma lex_le_trans a b c : lex_le a b -> lex_le b c -> lex_le a c.
Proof. destruct a as [[? ?] ?], b as [[? ?] ?], c as [[? ?] ?]. simpl. lia. Qed.

Lemma SFleb_rank x y :
sf_is_nan x = false -> sf_is_nan y = false ->
SFleb x y = true <-> lex_le (sf_rank x) (sf_rank y).
Proof.
intros Hx Hy. unfold SFleb.
destruct x as [sx|sx| |sx mx ex], y as [sy|sy| |sy my ey]; try discriminate;
  try (destruct sx; simpl; intuition (try lia; try discriminate); fail);
  try (destruct sy; simpl; intuition (try lia; try discriminate); fail);
  try (destruct sx, sy; simpl; intuition (try lia; try discriminate); fail).
simpl SFcompare. rewrite Pos.compare_cont_spec. simpl.
destruct sx, sy; simpl; try (intuition (try lia; try discriminate); fail);
  destruct (Z.compare_spec ex ey); destruct (Pos.compare_spec mx my); simpl;
  intuition (try lia; try discriminate).
Qed.

Lemma SFleb_trans x y z : SFleb x y = true -> SFleb y z = true -> SFleb x z = true.
Proof.
intros Hxy Hyz.
pose proof (SFleb_not_nan _ _ Hxy) as [Hx Hy].
pose proof (SFleb_not_nan _ _ Hyz) as [_ Hz].
rewrite SFleb_rank in * by assumption. eapply lex_le_trans; eassumption.
Qed.

(** ** Facts on primitive floats *)

End RoundingFacts.

Section FloatOrder.

Lemma is_nan_spec f : is_nan f = sf_is_nan (Prim2SF f).
Proof.
unfold is_nan. rewrite FloatAxioms.eqb_spec. unfold SFeqb.
destruct (sf_is_nan (Prim2SF f)) eqn:E.
- destruct (Prim2SF f); try discriminate. reflexivity.
- now rewrite SFcompare_refl.
Qed.

Lemma leb_refl f : is_nan f = false -> (f <=? f) = true.
Proof. rewrite is_nan_spec, FloatAxioms.leb_spec. apply SFleb_refl. Qed.

Lemma leb_trans a b c : (a <=? b) = true -> (b <=? c) = true -> (a <=? c) = true.
Proof. rewrite !FloatAxioms.leb_spec. apply SFleb_trans. Qed.

Lemma ltb_leb a b : (a <? b) = true -> (a <=? b) = true.
Proof. rewrite FloatAxioms.ltb_spec, FloatAxioms.leb_spec. apply SFltb_SFleb. Qed.

Lemma ltb_false_leb a b :
is_nan a = false -> is_nan b = false -> (a <? b) = false -> (b <=? a) = true.
Proof. rewrite !is_nan_spec, FloatAxioms.ltb_spec, FloatAxioms.leb_spec. apply SFltb_false_SFleb. Qed.

Lemma ltb_not_nan a b : (a <? b) = true -> is_nan a = false /\ is_nan b = false.
Proof. rewrite !is_nan_spec, FloatAxioms.ltb_spec. apply SFltb_not_nan. Qed.

Lemma leb_not_nan a b : (a <=? b) = true -> is_nan a = false /\ is_nan b = false.
Proof. rewrite !is_nan_spec, FloatAxioms.leb_spec. apply SFleb_not_nan. Qed.

Lemma sub_pos a b :
is_nan a = false -> is_nan b = false -> (0 <? a - b) = (b <? a).
Proof.
rewrite !is_nan_spec, !FloatAxioms.ltb_spec, FloatAxioms.sub_spec. intros Ha Hb.
apply (SFsub_sign (Prim2SF a) (Prim2SF b)); auto using Prim2SF_valid.
Qed.

(** ** Signs of products, sums and square roots *)

End FloatOrder.

Section SignFacts.
Local Open Scope Z_scope.

Lemma sf_weak_not_nan s x : sf_weak s x -> sf_is_nan x = false.
Proof. destruct x; simpl; intros H; try contradiction; reflexivity. Qed.

Lemma binary_normalize_not_nan m e szero :
sf_is_nan (binary_normalize prec emax m e szero) = false.
Proof.
destruct m as [|p|p]; simpl; try reflexivity;
  eapply sf_weak_not_nan, binary_round_weak.
Qed.

Lemma SFmul_self_weak x :
sf_is_nan x = false -> sf_weak false (SFmul prec emax x x).
Proof.
destruct x as [s|s| |s m e]; simpl; try discriminate; intros _;
  try (destruct s; reflexivity).
replace (xorb s s) with false by (destruct s; reflexivity).
apply binary_round_aux_weak. lia.
Qed.

Lemma SFadd_weak x y :
sf_weak false x -> sf_weak false y -> sf_weak false (SFadd prec emax x y).
Proof.
destruct x as [sx|sx| |sx mx ex], y as [sy|sy| |sy my ey]; simpl;
  try contradiction; intros -> ->; simpl; try reflexivity.
apply binary_round_weak.
Qed.

Lemma SFsqrt_weak x : sf_weak false x -> sf_weak false (SFsqrt prec emax x).
Proof.
destruct x as [s|s| |s m e]; simpl; try contradiction; intros ->; simpl;
  try reflexivity.
unfold SFsqrt_core_binary.
set (m' := match e - 2 * _ with Z0 => Zpos m | Zpos _ => _ | Zneg _ => 0 end).
assert (Hm' : 0 <= m').
{ subst m'. destruct (e - 2 * _); try lia. apply Z.shiftl_nonneg. lia. }
pose proof (Z.sqrtrem_spec m' Hm') as H.
destruct (Z.sqrtrem m') as [q r]. apply binary_round_aux_weak. lia.
Qed.

Lemma SFsub_finite_not_nan x y :
sf_finite x = true -> sf_finite y = true ->
sf_is_nan (SFsub prec emax x y) = false.
Proof.
destruct x as [sx|sx| |sx mx ex], y as [sy|sy| |sy my ey]; simpl;
  try discriminate; intros _ _; try reflexivity.
- destruct sx, sy; reflexivity.
- apply binary_normalize_not_nan.
Qed.

Lemma SFleb_zero_weak x : sf_weak false x -> SFleb (S754_zero false) x = true.
Proof. destruct x; simpl; try contradiction; intros ->; reflexivity. Qed.

(** [SFsub y x] is [SFsub x y] or its opposite; both have the same square. *)
Lemma binary_round_opp s m e :
binary_round prec emax (negb s) m e = SFopp (binary_round prec emax s m e).
Proof.
unfold binary_round. destruct (shl_align _ _ _) as [mz ez].
unfold binary_round_aux.
destruct (shr_fexp prec emax (Zpos mz) ez loc_Exact) as [mrs' e'].
destruct (shr_fexp prec emax _ e' loc_Exact) as [mrs'' e''].
destruct (shr_m mrs''); try reflexivity.
destruct (e'' <=? emax - prec); reflexivity.
Qed.

Lemma SFsub_swap x y :
SFsub prec emax y x = SFsub prec emax x y
\/ SFsub prec emax y x = SFopp (SFsub prec emax x y).
Proof.
destruct x as [sx|sx| |sx mx ex], y as [sy|sy| |sy my ey]; simpl; auto;
  try (destruct sx, sy; simpl; auto; fail);
  try (destruct sx; simpl; auto; fail); try (destruct sy; simpl; auto; fail);
  try (right; rewrite ?Bool.negb_involutive; reflexivity).
rewrite (Z.min_comm ey ex).
set (a := cond_Zopp sx _). set (b := cond_Zopp sy _).
replace (b - a) with (- (a - b)) by lia.
destruct (a - b) as [|d|d]; simpl; auto; right.
- apply (binary_round_opp false).
- apply (binary_round_opp true).
Qed.

Lemma SFmul_opp_self x :
SFmul prec emax (SFopp x) (SFopp x) = SFmul prec emax x x.
Proof. destruct x as [s|s| |s m e]; simpl; try reflexivity; destruct s; reflexivity. Qed.

End SignFacts.

Section FloatFacts.

Lemma is_finite_spec f : is_finite f = sf_finite (Prim2SF f).
Proof.
unfold is_finite, is_infinity. rewrite is_nan_spec, FloatAxioms.eqb_spec, abs_spec.
change (Prim2SF infinity) with (S754_infinity false).
destruct (Prim2SF f) as [s|s| |s m e]; try reflexivity; destruct s; reflexivity.
Qed.

Lemma nonneg_zero : nonneg 0.
Proof. reflexivity. Qed.

Lemma nonneg_leb f : nonneg f -> (0 <=? f) = true.
Proof. unfold nonneg. rewrite FloatAxioms.leb_spec. apply SFleb_zero_weak. Qed.

Lemma nonneg_not_nan f : nonneg f -> is_nan f = false.
Proof. rewrite is_nan_spec. apply sf_weak_not_nan. Qed.

Lemma nonneg_add a b : nonneg a -> nonneg b -> nonneg (a + b).
Proof. unfold nonneg. rewrite add_spec. apply SFadd_weak. Qed.

Lemma nonneg_mul_self a : is_nan a = false -> nonneg (a * a).
Proof. unfold nonneg. rewrite is_nan_spec, mul_spec. apply SFmul_self_weak. Qed.

Lemma nonneg_sqrt a : nonneg a -> nonneg (sqrt a).
Proof. unfold nonneg. rewrite sqrt_spec. apply SFsqrt_weak. Qed.

Lemma sub_finite_not_nan a b :
is_finite a = true -> is_finite b = true -> is_nan (a - b) = false.
Proof. rewrite !is_finite_spec, is_nan_spec, FloatAxioms.sub_spec. apply SFsub_finite_not_nan. Qed.

Lemma sub_swap_square a b : (b - a) * (b - a) = (a - b) * (a - b).
Proof.
apply Prim2SF_inj. rewrite !mul_spec, !FloatAxioms.sub_spec.
unfold SF64mul, SF64sub.
destruct (SFsub_swap (Prim2SF a) (Prim2SF b)) as [-> | ->]; [reflexivity|].
apply SFmul_opp_self.
Qed.

End FloatFacts.

(** * Sorting *)

Section SortPerm.
Context {A S : Type} (comparefn : A → A → S → float * S).

Lemma sort_insert_perm element sorted_rev s :
  (sort_insert comparefn element sorted_rev s).1 ≡ₚ element :: sorted_rev.
Proof.
  revert s. induction sorted_rev as [|tmp before IH]; intros s; simpl; [done|].
  destruct (comparefn tmp element s) as [order s1].
  destruct (0 <? order); [|done].
  specialize (IH s1). destruct (sort_insert comparefn element before s1) as [before' s2].
  simpl in *. rewrite IH. apply perm_swap.
Qed.

Lemma sort_loop_perm todo sorted_rev s :
  (sort_loop comparefn todo sorted_rev s).1 ≡ₚ todo ++ sorted_rev.
Proof.
  revert sorted_rev s. induction todo as [|element todo IH]; intros sorted_rev s; simpl; [done|].
  pose proof (sort_insert_perm element sorted_rev s) as Hi.
  destruct (sort_insert comparefn element sorted_rev s) as [sorted_rev' s1].
  rewrite IH. simpl in Hi. rewrite Hi. by rewrite Permutation_middle.
Qed.

Lemma Array_sort_perm l s : (Array_sort comparefn l s).1 ≡ₚ l.
Proof.
  unfold Array_sort. pose proof (sort_loop_perm l [] s) as H.
  destruct (sort_loop comparefn l [] s) as [sorted_rev s1]. simpl in *.
  rewrite reverse_Permutation, H. by rewrite app_nil_r.
Qed.
End SortPerm.

Lemma sort_by_perm {A} (comparefn : A → A → float) l : sort_by comparefn l ≡ₚ l.
Proof. apply Array_sort_perm. Qed.

Section SortOrder.
Context {A : Type} (comparefn : A → A → float).
Context (ok : A → Prop) (le : A → A → Prop).
Hypothesis le_trans : ∀ a b c, le a b → le b c → le a c.
Hypothesis le_refl : ∀ a, ok a → le a a.
Hypothesis after : ∀ a b, ok a → ok b → (0 <? comparefn a b) = true → le b a.
Hypothesis before : ∀ a b, ok a → ok b → (0 <? comparefn a b) = false → le a b.


Lemma sort_insert_descending element sorted_rev :
  ok element → Forall ok sorted_rev → StronglySorted (λ a b, le b a) sorted_rev →
  StronglySorted (λ a b, le b a) (sort_insert (pure_compare comparefn) element sorted_rev tt).1.
Proof.
  intros Hel. induction sorted_rev as [|tmp rest IH]; intros Hok Hs; simpl.
  - repeat constructor.
  - apply Forall_cons in Hok as [Htmp Hok].
    apply StronglySorted_inv in Hs as [Hs Hall].
    destruct (0 <? comparefn tmp element) eqn:E.
    + specialize (IH Hok Hs).
      pose proof (sort_insert_perm (pure_compare comparefn) element rest tt) as Hp.
      destruct (sort_insert (pure_compare comparefn) element rest tt) as [rest' []]. simpl in *.
      constructor; [done|]. rewrite Hp. constructor; [|done].
      by apply after.
    + simpl. constructor; [by constructor|].
      assert (le tmp element) by by apply before.
      constructor; [done|]. eapply Forall_impl; [exact Hall|]. simpl. eauto.
Qed.

Lemma sort_loop_descending todo sorted_rev :
  Forall ok todo → Forall ok sorted_rev → StronglySorted (λ a b, le b a) sorted_rev →
  StronglySorted (λ a b, le b a) (sort_loop (pure_compare comparefn) todo sorted_rev tt).1.
Proof.
  revert sorted_rev. induction todo as [|element todo IH]; intros sorted_rev Ht Hok Hs; simpl; [done|].
  apply Forall_cons in Ht as [Hel Ht].
  pose proof (sort_insert_descending element sorted_rev Hel Hok Hs) as Hd.
  pose proof (sort_insert_perm (pure_compare comparefn) element sorted_rev tt) as Hp.
  destruct (sort_insert (pure_compare comparefn) element sorted_rev tt) as [sorted_rev' []].
  simpl in *. apply IH; [done| |done]. rewrite Hp. by constructor.
Qed.

Lemma descending_last l m :
  Forall ok l → StronglySorted (λ a b, le b a) l → last l = Some m → ∀ y, y ∈ l → le m y.
Proof.
  intros Hok Hs. revert m. induction Hs as [|a l Hs IH Hall]; intros m Hl y Hy; [by apply elem_of_nil in Hy|].
  apply Forall_cons in Hok as [Ha Hok].
  destruct l as [|b l].
  - simpl in Hl. injection Hl as <-. apply list_elem_of_singleton in Hy as ->. by apply le_refl.
  - rewrite last_cons_cons in Hl. apply elem_of_cons in Hy as [->|Hy].
    + rewrite Forall_forall in Hall. apply Hall. by eapply last_Some_elem_of.
    + by apply IH.
Qed.

Lemma sort_by_head l :
  Forall ok l → l ≠ [] →
  ∃ m, head (sort_by comparefn l) = Some m ∧ m ∈ l ∧ ∀ y, y ∈ l → le m y.
Proof.
  intros Hok Hne. unfold sort_by, Array_sort.
  pose proof (sort_loop_descending l [] Hok ltac:(constructor) ltac:(constructor)) as Hd.
  pose proof (sort_loop_perm (pure_compare comparefn) l [] tt) as Hp.
  destruct (sort_loop (pure_compare comparefn) l [] tt) as [sorted_rev []]. simpl in *.
  rewrite app_nil_r in Hp. rewrite head_reverse.
  destruct (last sorted_rev) as [m|] eqn:El.
  - exists m. split; [done|]. split.
    + rewrite <- Hp. by eapply last_Some_elem_of.
    + intros y Hy. eapply descending_last; [|done|done|by rewrite Hp].
      by rewrite Hp.
  - apply last_None in El. subst. apply Permutation_nil_l in Hp. by subst.
Qed.
End SortOrder.

(** * Crossover, mutation and initialisation *)

Lemma placed_spec child d :
  placed child d = true ↔ City.id d ∈ City.id <$> filled child.
Proof.
  unfold placed, filled. induction child as [|[c|] child IH]; cbn.
  - split; [done|]. intros H. by apply elem_of_nil in H.
  - rewrite orb_true_iff, IH, elem_of_cons, Nat.eqb_eq. intuition congruence.
  - done.
Qed.

Lemma placed_false child d :
  placed child d = false ↔ City.id d ∉ City.id <$> filled child.
Proof. rewrite <- placed_spec. destruct (placed child d); naive_solver. Qed.

Lemma filled_insert child i c :
  child !! i = Some None → filled (<[i:=Some c]> child) ≡ₚ c :: filled child.
Proof.
  unfold filled. revert i. induction child as [|s child IH]; intros [|i] H; cbn in *; try done.
  - by injection H as ->.
  - destruct s as [c'|]; cbn; rewrite (IH i H); [apply perm_swap|done].
Qed.

Lemma filled_length_le child : (length (filled child) ≤ length child)%nat.
Proof. unfold filled. induction child as [|[c|] child IH]; cbn; lia. Qed.

Lemma filled_length_lt child i :
  child !! i = Some None → (length (filled child) < length child)%nat.
Proof.
  unfold filled. revert i. induction child as [|s child IH]; intros [|i] H; cbn in *; try done.
  - injection H as ->. pose proof (filled_length_le child). unfold filled in *. cbn. lia.
  - specialize (IH i H). destruct s; cbn; lia.
Qed.

Lemma filled_full child :
  (∀ i, (i < length child)%nat → ∃ c, child !! i = Some (Some c)) →
  length (filled child) = length child.
Proof.
  unfold filled. induction child as [|s child IH]; intros H; cbn; [done|].
  destruct (H O ltac:(cbn; lia)) as [c Hc]. cbn in Hc. injection Hc as ->. cbn.
  f_equal. apply IH. intros i Hi. apply (H (S i)). cbn. lia.
Qed.

Lemma agrees_sublist child path1 : agrees child path1 → filled child `sublist_of` path1.
Proof.
  unfold filled. induction 1 as [|slot c child path1 [->| ->] _ IH]; cbn.
  - constructor.
  - by constructor.
  - by constructor.
Qed.

Lemma agrees_replicate path1 : agrees (replicate (length path1) None) path1.
Proof. induction path1; simpl; constructor; auto. Qed.

Lemma agrees_insert child path1 i c :
  agrees child path1 → path1 !! i = Some c → agrees (<[i:=Some c]> child) path1.
Proof.
  intros H. revert i. induction H as [|slot c' child path1 Hs Ht IH]; intros [|i] Hi; simpl in *; try done.
  - injection Hi as ->. constructor; [by right|done].
  - constructor; [done|by apply IH].
Qed.

Lemma copy_segment_agrees path1 min max child :
  agrees child path1 → agrees (copy_segment path1 min max child) path1.
Proof.
  unfold copy_segment. generalize (seq min (S max - min)) as todo.
  intros todo. revert child. induction todo as [|i todo IH]; intros child H; simpl; [done|].
  apply IH. destruct (path1 !! i) eqn:E; [by apply agrees_insert|done].
Qed.

Lemma copy_segment_length path1 min max child :
  length (copy_segment path1 min max child) = length child.
Proof.
  unfold copy_segment. generalize (seq min (S max - min)) as todo.
  intros todo. revert child. induction todo as [|i todo IH]; intros child; simpl; [done|].
  rewrite IH. destruct (path1 !! i); [by rewrite length_insert|done].
Qed.

Lemma next_unplaced_spec child rest2 :
  match next_unplaced child rest2 with
  | Some (city, rest2') =>
      placed child city = false ∧
      unplaced child rest2 = city :: unplaced child rest2' ∧
      ∃ skipped, rest2 = skipped ++ city :: rest2'
  | None => unplaced child rest2 = []
  end.
Proof.
  unfold unplaced. induction rest2 as [|d rest2 IH]; simpl; [done|].
  destruct (placed child d) eqn:E.
  - rewrite filter_cons_False by congruence.
    destruct (next_unplaced child rest2) as [[city rest2']|]; [|done].
    destruct IH as (H1 & H2 & skipped & ->). split; [done|]. split; [done|].
    by exists (d :: skipped).
  - rewrite filter_cons_True by done. split; [done|]. split; [done|]. by exists [].
Qed.

Lemma placed_insert child i c d :
  child !! i = Some None →
  placed (<[i:=Some c]> child) d = (City.id c =? City.id d)%nat || placed child d.
Proof.
  intros H. apply eq_true_iff_eq.
  rewrite orb_true_iff, !placed_spec, Nat.eqb_eq.
  rewrite (filled_insert _ _ _ H), fmap_cons, elem_of_cons. intuition congruence.
Qed.

Lemma unplaced_insert child i c rest2 :
  child !! i = Some None → City.id c ∉ City.id <$> rest2 →
  unplaced (<[i:=Some c]> child) rest2 = unplaced child rest2.
Proof.
  intros H. unfold unplaced. induction rest2 as [|d rest2 IH]; intros Hc; [done|].
  rewrite fmap_cons, not_elem_of_cons in Hc. destruct Hc as [Hd Hc].
  rewrite !filter_cons, IH by done. rewrite placed_insert by done.
  apply Nat.eqb_neq in Hd. rewrite Hd. done.
Qed.

Lemma fill_inv_step path2 child rest2 i :
  fill_inv path2 child rest2 → child !! i = Some None →
  ∃ city rest2', next_unplaced child rest2 = Some (city, rest2') ∧
                 fill_inv path2 (<[i:=Some city]> child) rest2'.
Proof.
  intros (Hperm & Hnd & Hlen) Hi.
  pose proof (next_unplaced_spec child rest2) as Hn.
  destruct (next_unplaced child rest2) as [[city rest2']|].
  - destruct Hn as (Hc & Hu & skipped & ->). exists city, rest2'. split; [done|].
    rewrite fmap_app, fmap_cons in Hnd.
    apply NoDup_app in Hnd as (_ & _ & Hnd). apply NoDup_cons in Hnd as [Hfresh Hnd].
    split; [|split; [done|by rewrite length_insert]].
    rewrite unplaced_insert, filled_insert by done.
    rewrite <- Hperm, Hu. simpl. by rewrite Permutation_middle.
  - exfalso. rewrite Hn, app_nil_r in Hperm.
    apply Permutation_length in Hperm. apply filled_length_lt in Hi. lia.
Qed.

Lemma fill_from_spec path2 todo : ∀ child rest2,
  fill_inv path2 child rest2 →
  Forall (λ i, (i < length child)%nat) todo →
  ∃ child' rest2',
    fill_from todo child rest2 = Some child' ∧
    fill_inv path2 child' rest2' ∧
    (∀ j c, child !! j = Some (Some c) → child' !! j = Some (Some c)) ∧
    (∀ i, i ∈ todo → ∃ c, child' !! i = Some (Some c)).
Proof.
  induction todo as [|i todo IH]; intros child rest2 Hinv Htodo; simpl.
  - exists child, rest2. split; [done|]. split; [done|]. split; [done|].
    intros i Hi. by apply elem_of_nil in Hi.
  - apply Forall_cons in Htodo as [Hi Htodo].
    destruct (child !! i) as [[c|]|] eqn:E.
    + destruct (IH child rest2 Hinv Htodo) as (child' & rest2' & Hf & Hinv' & Hkeep & Hall).
      exists child', rest2'. split; [done|]. split; [done|]. split; [done|].
      intros k [->|Hk]%elem_of_cons; [eauto|by apply Hall].
    + destruct (fill_inv_step path2 child rest2 i Hinv E) as (city & rest2' & -> & Hinv1).
      destruct (IH (<[i:=Some city]> child) rest2' Hinv1) as (child' & rest2'' & Hf & Hinv' & Hkeep & Hall).
      { by rewrite length_insert. }
      exists child', rest2''. split; [done|]. split; [done|]. split.
      * intros j c Hj. apply Hkeep. rewrite list_lookup_insert_ne; [done|congruence].
      * intros k [->|Hk]%elem_of_cons; [|by apply Hall].
        exists city. apply Hkeep. by apply list_lookup_insert_eq.
    + apply lookup_ge_None in E. lia.
Qed.

Lemma elem_of_NoDup_fmap_inj (l : list City.t) x y :
  NoDup (City.id <$> l) → x ∈ l → y ∈ l → City.id x = City.id y → x = y.
Proof.
  induction l as [|a l IH]; intros Hnd Hx Hy Hid; [by apply elem_of_nil in Hx|].
  rewrite fmap_cons in Hnd. apply NoDup_cons in Hnd as [Ha Hnd].
  apply elem_of_cons in Hx as [->|Hx]; apply elem_of_cons in Hy as [->|Hy]; try done.
  - exfalso. apply Ha. rewrite Hid. by apply list_elem_of_fmap_2.
  - exfalso. apply Ha. rewrite <- Hid. by apply list_elem_of_fmap_2.
  - by apply IH.
Qed.

Lemma fill_inv_init path1 path2 child :
  NoDup (City.id <$> path1) → path1 ≡ₚ path2 →
  agrees child path1 → fill_inv path2 child path2.
Proof.
  intros Hnd Hperm Hag.
  assert (Hnd2 : NoDup (City.id <$> path2)) by by rewrite <- Hperm.
  pose proof (agrees_sublist _ _ Hag) as Hsub.
  split; [|split; [done|]].
  - rewrite <- (filter_app_complement (λ d, placed child d = true) path2) at 2.
    apply Permutation_app.
    + apply NoDup_Permutation.
      * eapply sublist_NoDup; [|exact Hsub]. by eapply NoDup_fmap_1.
      * apply NoDup_filter. by eapply NoDup_fmap_1.
      * intros x. rewrite list_elem_of_filter, placed_spec. split.
        -- intros Hx. split; [by apply list_elem_of_fmap_2|].
           rewrite <- Hperm. eapply elem_of_sublist; [exact Hx | exact Hsub].
        -- intros [(s & Hid & Hs)%list_elem_of_fmap_1 Hx].
           assert (s ∈ path2) by (rewrite <- Hperm; eapply elem_of_sublist; [exact Hs | exact Hsub]).
           by rewrite (elem_of_NoDup_fmap_inj path2 x s Hnd2 Hx H Hid).
    + unfold unplaced.
      rewrite (list_filter_iff (λ d, placed child d = false)
                 (λ d, ¬ placed child d = true)); [done|].
      intros d. destruct (placed child d); split; congruence.
  - rewrite <- Hperm. exact (Forall2_length _ _ _ Hag).
Qed.

Lemma crossover_fill path1 path2 min max :
  NoDup (City.id <$> path1) → path1 ≡ₚ path2 →
  ∃ child,
    fill_from (seq 0 (length path1))
      (copy_segment path1 min max (replicate (length path1) None)) path2 = Some child ∧
    omap (λ c, c) child ≡ₚ path2.
Proof.
  intros Hnd Hperm.
  set (child0 := copy_segment path1 min max (replicate (length path1) None)).
  assert (Hag : agrees child0 path1) by apply copy_segment_agrees, agrees_replicate.
  assert (Hlen : length child0 = length path1)
    by (unfold child0; by rewrite copy_segment_length, length_replicate).
  destruct (fill_from_spec path2 (seq 0 (length path1)) child0 path2)
    as (child & rest2 & Hf & (Hp & _ & Hl) & _ & Hall).
  { by eapply fill_inv_init. }
  { apply Forall_forall. intros i Hi%elem_of_seq. lia. }
  exists child. split; [done|].
  assert (Hfull : length (filled child) = length child).
  { apply filled_full. intros i Hi. apply Hall, elem_of_seq.
    rewrite Hl, <- (Permutation_length Hperm) in Hi. lia. }
  pose proof (Permutation_length Hp) as Hlp. rewrite length_app in Hlp.
  assert (unplaced child rest2 = []) as Hu by (apply length_zero_iff_nil; lia).
  by rewrite Hu, app_nil_r in Hp.
Qed.

Lemma bind_run {A B} (m : M A) (k : A → M B) g :
  (m ≫= k) g = match m g with Some (a, g') => k a g' | None => None end.
Proof. reflexivity. Qed.

Lemma index_draws_next n g : index_draws_ok n g → index_draws_ok n (RNG_next g).
Proof. intros H k. apply (H (S k)). Qed.

Lemma random_index_run n g :
  random_index n g = Some (Math_floor (g O * of_nat n), RNG_next g).
Proof. reflexivity. Qed.

Lemma insert_swap_perm (l : list City.t) j a b :
  l !! j = Some b → b :: <[j:=a]> l ≡ₚ a :: l.
Proof.
  revert j. induction l as [|x l IH]; intros [|j] H; simpl in *; try done.
  - injection H as ->. apply perm_swap.
  - etrans; [apply perm_swap|]. etrans; [apply perm_skip, (IH j H)|apply perm_swap].
Qed.

Lemma swap_perm (l : list City.t) i j : swap l i j ≡ₚ l.
Proof.
  unfold swap. destruct (l !! i) as [ci|] eqn:Ei; [|done].
  destruct (l !! j) as [cj|] eqn:Ej; [|done].
  revert i j Ei Ej. induction l as [|x l IH]; intros [|i] [|j] Ei Ej; simpl in *; try done.
  - injection Ei as ->. by injection Ej as ->.
  - injection Ei as ->. by apply insert_swap_perm.
  - injection Ej as ->. by apply insert_swap_perm.
  - apply perm_skip. by apply IH.
Qed.

Lemma mutate_spec config path g :
  ∃ path' g', mutate config path g = Some (path', g') ∧ path' ≡ₚ path.
Proof.
  unfold mutate. rewrite bind_run. simpl.
  destruct (GAConfig.mutationRate config <? g O).
  - by eexists _, _.
  - rewrite bind_run, random_index_run, bind_run, random_index_run.
    eexists _, _. split; [reflexivity|]. apply swap_perm.
Qed.

Lemma crossover_spec config parent1 parent2 g :
  NoDup (City.id <$> Individual.path parent1) →
  Individual.path parent1 ≡ₚ Individual.path parent2 →
  ∃ child g', crossover config parent1 parent2 g = Some (child, g') ∧
              child ≡ₚ Individual.path parent1.
Proof.
  intros Hnd Hperm. unfold crossover. rewrite bind_run. simpl.
  destruct (GAConfig.crossoverRate config <? g O).
  - by eexists _, _.
  - rewrite bind_run, random_index_run, bind_run, random_index_run.
    set (start := Math_floor _). set (end_ := Math_floor _).
    destruct (if (start <? end_)%nat then (start, end_) else (end_, start)) as [min max].
    destruct (crossover_fill _ _ min max Hnd Hperm) as (child & -> & Hp).
    eexists _, _. split; [reflexivity|]. by rewrite Hp.
Qed.

Lemma shuffle_spec cities g :
  ∃ path g', shuffle cities g = Some (path, g') ∧ path ≡ₚ cities.
Proof.
  unfold shuffle.
  pose proof (Array_sort_perm (λ (_ _ : City.t) g, (g O - 0.5, RNG_next g)) cities g) as H.
  match type of H with (?t).1 ≡ₚ _ => destruct t as [path g'] end.
  by exists path, g'.
Qed.

Lemma initPopulation_spec cities size : ∀ g,
  ∃ population g',
    initPopulation cities size g = Some (population, g') ∧
    length population = size ∧
    Forall (λ ind, Individual.path ind ≡ₚ cities ∧ ind = mkIndividual (Individual.path ind))
           population.
Proof.
  induction size as [|size IH]; intros g; simpl.
  - by exists [], g.
  - rewrite bind_run. destruct (shuffle_spec cities g) as (path & g1 & -> & Hp).
    rewrite bind_run. destruct (IH g1) as (rest & g2 & -> & Hl & Hall).
    eexists _, _. split; [reflexivity|]. split; [simpl; by rewrite Hl|].
    constructor; [|done]. by split.
Qed.

Lemma select_walk_elem randomNum population : ∀ cumulativeFitness ind,
  select_walk randomNum cumulativeFitness population = Some ind → ind ∈ population.
Proof.
  induction population as [|x population IH]; intros c ind; simpl; [done|].
  destruct (randomNum <=? c + Individual.fitness x).
  - intros [= ->]. by left.
  - intros H. right. by eapply IH.
Qed.

Lemma select_spec population g :
  population ≠ [] →
  ∃ ind, select population g = Some (Some ind, RNG_next g) ∧ ind ∈ population.
Proof.
  intros Hne. unfold select. rewrite bind_run. simpl.
  destruct (select_walk _ 0 population) as [ind|] eqn:E.
  - exists ind. split; [done|]. by eapply select_walk_elem.
  - destruct population as [|x population]; [done|]. exists x. split; [done|]. by left.
Qed.

(** * Tour length *)

Lemma rotate_1_lookup {A} (l : list A) i :
  (i < length l)%nat → rotate 1 l !! i = l !! ((i + 1) `mod` length l)%nat.
Proof.
  intros Hi. rewrite lookup_rotate_r by done. f_equal.
  unfold rotate_nat_add.
  rewrite <- Nat2Z.inj_add, <- Nat2Z.inj_mod, Nat2Z.id. f_equal. lia.
Qed.

Lemma foldl_seq_terms (f : float → nat → float) (ts : list float) : ∀ a k,
  (∀ len i t, ts !! i = Some t → f len (k + i)%nat = len + t) →
  foldl f a (seq k (length ts)) = foldl add a ts.
Proof.
  induction ts as [|t ts IH]; intros a k H; simpl; [done|].
  assert (f a k = a + t) as ->.
  { rewrite <- (Nat.add_0_r k). by apply H. }
  apply IH. intros len i t' Ht'.
  replace (S k + i)%nat with (k + S i)%nat by lia. by apply H.
Qed.

Lemma calculatePathLength_edges path :
  calculatePathLength path = foldl add 0 (edge_lengths path).
Proof.
  unfold calculatePathLength.
  assert (Hlen : length (edge_lengths path) = length path).
  { unfold edge_lengths. rewrite length_zip_with_l_eq; [done|]. by rewrite length_rotate. }
  replace (seq 0 (length path)) with (seq 0 (length (edge_lengths path)))
    by (by rewrite Hlen).
  apply foldl_seq_terms. intros len i t Ht. simpl.
  unfold edge_lengths in Ht. apply lookup_zip_with_Some in Ht as (a & b & -> & Ha & Hb).
  pose proof (lookup_lt_Some _ _ _ Ha) as Hi.
  rewrite rotate_1_lookup in Hb by done. by rewrite Ha, Hb.
Qed.

Lemma zip_with_rotate {A B C} (f : A → B → C) k (a : list A) (b : list B) :
  length a = length b →
  zip_with f (rotate k a) (rotate k b) = rotate k (zip_with f a b).
Proof.
  intros Hl. unfold rotate. rewrite length_zip_with_l_eq by done. rewrite <- Hl.
  rewrite zip_with_app by (rewrite !length_drop; lia).
  by rewrite zip_with_drop, zip_with_take.
Qed.

Lemma rotate_rotate_1 {A} k (l : list A) : rotate 1 (rotate k l) = rotate k (rotate 1 l).
Proof.
  apply list_eq. intros i.
  destruct (decide (i < length l)%nat) as [Hi|Hi].
  - assert (0 < length l)%nat by lia.
    rewrite (lookup_rotate_r (rotate k l) 1 i) by (by rewrite length_rotate).
    rewrite (lookup_rotate_r (rotate 1 l) k i) by (by rewrite length_rotate).
    rewrite !length_rotate.
    rewrite (lookup_rotate_r l k), (lookup_rotate_r l 1) by (by apply rotate_nat_add_lt).
    f_equal. unfold rotate_nat_add.
    rewrite !Z2Nat.id by (apply Z.mod_pos_bound; lia).
    f_equal. rewrite Zplus_mod_idemp_r, Zplus_mod_idemp_r.
    f_equal. lia.
  - rewrite !lookup_ge_None_2; [done|rewrite ?length_rotate; lia..].
Qed.

Lemma edge_lengths_rotate k path :
  edge_lengths (rotate k path) = rotate k (edge_lengths path).
Proof.
  unfold edge_lengths. rewrite rotate_rotate_1.
  apply zip_with_rotate. by rewrite length_rotate.
Qed.

Lemma rotate_perm {A} k (l : list A) : rotate k l ≡ₚ l.
Proof.
  unfold rotate. rewrite Permutation_app_comm. by rewrite take_drop.
Qed.

Lemma distance_sym a b : distance a b = distance b a.
Proof.
  unfold distance, Math_hypot.
  by rewrite (sub_swap_square (City.x a) (City.x b)),
             (sub_swap_square (City.y a) (City.y b)).
Qed.

Lemma rotate_back {A} (l : list A) : rotate 1 (rotate (length l - 1) l) = l.
Proof.
  apply list_eq. intros i.
  destruct (decide (i < length l)%nat) as [Hi|Hi].
  - assert (0 < length l)%nat by lia.
    rewrite (lookup_rotate_r (rotate (length l - 1) l) 1 i) by (by rewrite length_rotate).
    rewrite length_rotate.
    rewrite (lookup_rotate_r l) by (by apply rotate_nat_add_lt).
    f_equal. unfold rotate_nat_add.
    rewrite !Z2Nat.id by (apply Z.mod_pos_bound; lia).
    rewrite Zplus_mod_idemp_r.
    replace (Z.of_nat (length l - 1) + (Z.of_nat 1 + Z.of_nat i))%Z
      with (Z.of_nat i + 1 * Z.of_nat (length l))%Z by lia.
    rewrite Z.mod_add by lia. rewrite Z.mod_small by lia. apply Nat2Z.id.
  - rewrite !lookup_ge_None_2; [done|rewrite ?length_rotate; lia..].
Qed.

Lemma rotate_1_reverse {A} (l : list A) :
  rotate 1 (reverse l) = reverse (rotate (length l - 1) l).
Proof.
  destruct l as [|a [|b l]]; [done|done|].
  unfold rotate. rewrite length_reverse.
  set (n := length (a :: b :: l)). assert (2 ≤ n)%nat by (subst n; simpl; lia).
  rewrite (Nat.mod_small 1), (Nat.mod_small (n - 1)) by lia.
  rewrite drop_reverse, take_reverse, reverse_app. fold n.
  by replace (n - (n - 1))%nat with 1%nat by lia.
Qed.

Lemma zip_with_reverse {A B C} (f : A → B → C) (a : list A) : ∀ b : list B,
  length a = length b →
  zip_with f (reverse a) (reverse b) = reverse (zip_with f a b).
Proof.
  induction a as [|x a IH]; intros [|y b] Hl; simpl in *; try done.
  rewrite !reverse_cons, zip_with_app by (rewrite !length_reverse; lia).
  rewrite IH by lia. done.
Qed.

Lemma zip_with_distance_sym (a b : list City.t) :
  zip_with distance a b = zip_with distance b a.
Proof.
  revert b. induction a as [|x a IH]; intros [|y b]; simpl; try done.
  by rewrite IH, distance_sym.
Qed.

Lemma edge_lengths_reverse path :
  edge_lengths (reverse path)
  = reverse (rotate (length path - 1) (edge_lengths path)).
Proof.
  unfold edge_lengths at 1. rewrite rotate_1_reverse.
  rewrite zip_with_reverse by (by rewrite length_rotate). f_equal.
  rewrite <- edge_lengths_rotate. unfold edge_lengths.
  by rewrite rotate_back, zip_with_distance_sym.
Qed.

Lemma nonneg_distance a b : finite_city a → finite_city b → nonneg (distance a b).
Proof.
  intros [Hax Hay] [Hbx Hby]. unfold distance, Math_hypot.
  apply nonneg_sqrt, nonneg_add; apply nonneg_mul_self, sub_finite_not_nan; done.
Qed.

Lemma nonneg_foldl_add ts : ∀ a, nonneg a → Forall nonneg ts → nonneg (foldl add a ts).
Proof.
  induction ts as [|t ts IH]; intros a Ha Hts; simpl; [done|].
  apply Forall_cons in Hts as [Ht Hts]. apply IH; [by apply nonneg_add|done].
Qed.

Lemma nonneg_edge_lengths path :
  Forall finite_city path → Forall nonneg (edge_lengths path).
Proof.
  intros Hp. apply Forall_lookup. intros i t Ht.
  unfold edge_lengths in Ht. apply lookup_zip_with_Some in Ht as (a & b & -> & Ha & Hb).
  rewrite Forall_forall in Hp. apply nonneg_distance; apply Hp.
  - by eapply list_elem_of_lookup_2.
  - apply (elem_of_rotate path 1). by eapply list_elem_of_lookup_2.
Qed.

Lemma nonneg_calculatePathLength path :
  Forall finite_city path → nonneg (calculatePathLength path).
Proof.
  intros Hp. rewrite calculatePathLength_edges.
  apply nonneg_foldl_add; [apply nonneg_zero|by apply nonneg_edge_lengths].
Qed.

(** * The generation step *)

Lemma best_by_length (l : list Individual.t) :
  Forall (λ ind, is_nan (Individual.length ind) = false) l → l ≠ [] →
  ∃ m, head (sort_by by_length_asc l) = Some m ∧ m ∈ l ∧
       ∀ y, y ∈ l → (Individual.length m <=? Individual.length y) = true.
Proof.
  apply (sort_by_head by_length_asc
           (λ ind, is_nan (Individual.length ind) = false)
           (λ a b, (Individual.length a <=? Individual.length b) = true)).
  - intros a b c. apply leb_trans.
  - intros a. apply leb_refl.
  - intros a b Ha Hb H. unfold by_length_asc in H.
    rewrite sub_pos in H by done. by apply ltb_leb.
  - intros a b Ha Hb H. unfold by_length_asc in H.
    rewrite sub_pos in H by done. by apply ltb_false_leb.
Qed.

Lemma elite_by_fitness (l : list Individual.t) :
  Forall (λ ind, is_nan (Individual.fitness ind) = false) l → l ≠ [] →
  ∃ m, head (sort_by by_fitness_desc l) = Some m ∧ m ∈ l ∧
       ∀ y, y ∈ l → (Individual.fitness y <=? Individual.fitness m) = true.
Proof.
  apply (sort_by_head by_fitness_desc
           (λ ind, is_nan (Individual.fitness ind) = false)
           (λ a b, (Individual.fitness b <=? Individual.fitness a) = true)).
  - intros a b c H1 H2. by eapply leb_trans.
  - intros a. apply leb_refl.
  - intros a b Ha Hb H. unfold by_fitness_desc in H.
    rewrite sub_pos in H by done. by apply ltb_leb.
  - intros a b Ha Hb H. unfold by_fitness_desc in H.
    rewrite sub_pos in H by done. by apply ltb_false_leb.
Qed.

Lemma sort_by_head_elem {A} (comparefn : A → A → float) l :
  l ≠ [] → ∃ m, head (sort_by comparefn l) = Some m ∧ m ∈ l.
Proof.
  intros Hne. pose proof (sort_by_perm comparefn l) as Hp.
  destruct (sort_by comparefn l) as [|m rest] eqn:E.
  - apply Permutation_nil_l in Hp. by subst.
  - exists m. split; [done|]. rewrite <- Hp. by left.
Qed.

Lemma make_child_spec config cities population g :
  population ≠ [] → NoDup (City.id <$> cities) →
  Forall (λ ind, Individual.path ind ≡ₚ cities) population →
  ∃ child g', make_child config population g = Some (child, g') ∧
              Individual.path child ≡ₚ cities ∧
              child = mkIndividual (Individual.path child).
Proof.
  intros Hne Hnd Hvalid. rewrite Forall_forall in Hvalid.
  unfold make_child. rewrite bind_run.
  destruct (select_spec population g Hne) as (parent1 & -> & H1).
  rewrite bind_run.
  destruct (select_spec population (RNG_next g) Hne) as (parent2 & -> & H2).
  rewrite bind_run.
  destruct (crossover_spec config parent1 parent2 (RNG_next (RNG_next g)))
    as (path1 & g1 & -> & Hp1).
  { by rewrite (Hvalid _ H1). }
  { by rewrite (Hvalid _ H1), (Hvalid _ H2). }
  rewrite bind_run. destruct (mutate_spec config path1 g1) as (path2 & g2 & -> & Hp2).
  eexists _, _. split; [reflexivity|]. split; [|done].
  simpl. by rewrite Hp2, Hp1, (Hvalid _ H1).
Qed.

Lemma refill_spec config cities population todo : ∀ newPopulation g,
  population ≠ [] → NoDup (City.id <$> cities) →
  Forall (λ ind, Individual.path ind ≡ₚ cities) population →
  ∃ children g',
    refill config population todo newPopulation g = Some (newPopulation ++ children, g') ∧
    length children = todo ∧
    Forall (λ child, offspring config population child ∧
                     Individual.path child ≡ₚ cities ∧
                     child = mkIndividual (Individual.path child)) children.
Proof.
  induction todo as [|todo IH]; intros newPopulation g Hne Hnd Hvalid; simpl.
  - exists [], g. by rewrite app_nil_r.
  - rewrite bind_run.
    destruct (make_child_spec config cities population g Hne Hnd Hvalid)
      as (child & g1 & Hc & Hp & Hm).
    rewrite Hc.
    destruct (IH (newPopulation ++ [child]) g1 Hne Hnd Hvalid)
      as (children & g2 & -> & Hl & Hall).
    exists (child :: children), g2. rewrite <- app_assoc. split; [done|].
    split; [simpl; by rewrite Hl|]. constructor; [|done].
    split; [by exists g, g1|done].
Qed.

(** * The claims *)

Lemma visits_each_once_perm cities path :
  NoDup (City.id <$> cities) → path ≡ₚ cities → visits_each_once cities path.
Proof.
  intros Hnd Hp. split; [done|]. split; [by rewrite Hp|by rewrite Hp].
Qed.

Lemma index_draws_half : index_draws_ok 3 half.
Proof. intros k. vm_compute. lia. Qed.

Lemma triangle_ids : NoDup (City.id <$> triangle).
Proof. apply (bool_decide_unpack _). by vm_compute. Qed.

(** C1.  Permutation invariant: for parents that are tours of the same
    cities (each city once, distinct identifiers) and for every crossover
    and mutation rate, every individual produced by [initPopulation], the
    child returned by [crossover] and the tour returned by [mutate] visit
    each city exactly once: they are permutations of the cities, have no
    duplicate identifier and have as many cities as there are. *)
Theorem permutation_invariant (config : GAConfig.t) (cities : list City.t)
    (size : nat) (parent1 parent2 : Individual.t) (path : list City.t) (g : RNG) :
  NoDup (City.id <$> cities) →
  Individual.path parent1 ≡ₚ cities →
  Individual.path parent2 ≡ₚ cities →
  path ≡ₚ cities →
  index_draws_ok (length cities) g →
  (∃ population g',
      initPopulation cities size g = Some (population, g') ∧
      Forall (λ ind, visits_each_once cities (Individual.path ind)) population) ∧
  (∃ child g',
      crossover config parent1 parent2 g = Some (child, g') ∧
      visits_each_once cities child) ∧
  (∃ path' g',
      mutate config path g = Some (path', g') ∧ visits_each_once cities path').
Proof.
  intros Hnd H1 H2 Hp _. repeat split.
  - destruct (initPopulation_spec cities size g) as (population & g' & Hi & _ & Hall).
    exists population, g'. split; [done|].
    eapply Forall_impl; [exact Hall|]. intros ind [Hperm _].
    by apply visits_each_once_perm.
  - destruct (crossover_spec config parent1 parent2 g) as (child & g' & Hc & Hperm).
    + by rewrite H1.
    + by rewrite H1, H2.
    + exists child, g'. split; [done|]. apply visits_each_once_perm; [done|].
      by rewrite Hperm.
  - destruct (mutate_spec config path g) as (path' & g' & Hm & Hperm).
    exists path', g'. split; [done|]. apply visits_each_once_perm; [done|].
    by rewrite Hperm.
Qed.

Lemma permutation_invariant_witness :
  (∃ population g',
      initPopulation triangle 2 half = Some (population, g') ∧
      Forall (λ ind, visits_each_once triangle (Individual.path ind)) population) ∧
  (∃ child g',
      crossover example_config (mkIndividual triangle)
        (mkIndividual (rotate 1 triangle)) half = Some (child, g') ∧
      visits_each_once triangle child) ∧
  (∃ path' g',
      mutate example_config (reverse triangle) half = Some (path', g') ∧
      visits_each_once triangle path').
Proof.
  apply permutation_invariant.
  - exact triangle_ids.
  - done.
  - apply rotate_perm.
  - apply reverse_Permutation.
  - exact index_draws_half.
Defined.

(** C10.  For parents that are permutations of the same non-empty set of
    cities, the fill phase of [crossover] never reads [parent2.path] past
    its end: for every segment [[min, max]] the scan [next_unplaced] finds,
    within [parent2.path], a city not yet in the child, so the second loop
    completes ([fill_from] is not the [TypeError] outcome), and so does
    [crossover]. *)
Theorem crossover_fill_in_bounds (config : GAConfig.t)
    (parent1 parent2 : Individual.t) (min max : nat) (g : RNG) :
  NoDup (City.id <$> Individual.path parent1) →
  Individual.path parent1 ≡ₚ Individual.path parent2 →
  Individual.path parent1 ≠ [] →
  (min ≤ max < length (Individual.path parent1))%nat →
  index_draws_ok (length (Individual.path parent1)) g →
  is_Some (fill_from (seq 0 (length (Individual.path parent1)))
             (copy_segment (Individual.path parent1) min max
                (replicate (length (Individual.path parent1)) None))
             (Individual.path parent2)) ∧
  is_Some (crossover config parent1 parent2 g).
Proof.
  intros Hnd Hperm _ _ _. split.
  - destruct (crossover_fill _ _ min max Hnd Hperm) as (child & -> & _). by eexists.
  - destruct (crossover_spec config parent1 parent2 g Hnd Hperm) as (child & g' & -> & _).
    by eexists.
Qed.

Lemma crossover_fill_in_bounds_witness :
  is_Some (fill_from (seq 0 3)
             (copy_segment triangle 1 1 (replicate 3 None))
             (rotate 1 triangle)) ∧
  is_Some (crossover example_config (mkIndividual triangle)
             (mkIndividual (rotate 1 triangle)) half).
Proof.
  apply (crossover_fill_in_bounds example_config (mkIndividual triangle)
           (mkIndividual (rotate 1 triangle)) 1 1 half).
  - exact triangle_ids.
  - symmetry. apply rotate_perm.
  - done.
  - simpl. lia.
  - exact index_draws_half.
Defined.

(** ** Selection *)

Lemma select_walk_first_reaching randomNum population : ∀ cumulativeFitness,
  select_walk randomNum cumulativeFitness population
  = fst <$> head (filter (λ p, (randomNum <=? p.2) = true)
                    (zip population (running_sums cumulativeFitness population))).
Proof.
  induction population as [|ind rest IH]; intros c; simpl; [done|].
  rewrite filter_cons. simpl.
  destruct (randomNum <=? c + Individual.fitness ind) eqn:E.
  - rewrite decide_True by done. done.
  - rewrite decide_False by congruence. apply IH.
Qed.

(** C4.  For a non-empty population and every draw, [select] returns the
    first individual, in population order, at which the running cumulative
    fitness has reached the drawn number [Math.random() * totalFitness]; if
    the walk ends without reaching it, [select] returns [population[0]].
    In both cases the result is a member of the population: [select] never
    fails. *)
Theorem select_returns_member (population : list Individual.t) (g : RNG) :
  population ≠ [] →
  ∃ ind,
    select population g = Some (Some ind, RNG_next g) ∧
    ind ∈ population ∧
    (first_reaching (g O * totalFitness population) population = Some ind ∨
     (first_reaching (g O * totalFitness population) population = None ∧
      population !! O = Some ind)).
Proof.
  intros Hne. unfold select. rewrite bind_run. simpl.
  fold (totalFitness population).
  unfold first_reaching. rewrite <- select_walk_first_reaching.
  destruct (select_walk _ 0 population) as [ind|] eqn:E.
  - exists ind. split; [done|]. split; [by eapply select_walk_elem|by left].
  - destruct population as [|x population]; [done|]. exists x.
    split; [done|]. split; [by left|by right].
Qed.

Lemma select_returns_member_witness :
  ∃ ind,
    select (population example_state) half
      = Some (Some ind, RNG_next half) ∧
    ind ∈ population example_state ∧
    (first_reaching (half O * totalFitness (population example_state))
       (population example_state) = Some ind ∨
     (first_reaching (half O * totalFitness (population example_state))
        (population example_state) = None ∧
      population example_state !! O = Some ind)).
Proof. apply select_returns_member. done. Defined.

(** ** The generation ceiling *)

(** When the counter that [gaIteration] reads is 1000 or more, the call
    sets [isRunning] to [false] and changes nothing else: population,
    best-ever record, generation counter and cities are the same, and no
    random number is drawn.  The counter it reads is the one of the render
    that created the function (see [tick]). *)
Theorem generation_ceiling (config : GAConfig.t) (st : RunState) (g : RNG) :
  (1000 ≤ currentGen st)%nat →
  ∃ st',
    gaIteration config st g = Some (st', g) ∧
    isRunning st' = false ∧
    population st' = population st ∧
    bestIndividual st' = bestIndividual st ∧
    currentGen st' = currentGen st ∧
    cities st' = cities st.
Proof.
  intros H. unfold gaIteration.
  destruct (Nat.leb_spec 1000 (currentGen st)) as [_|Hlt]; [|lia].
  by eexists.
Qed.

Lemma generation_ceiling_witness :
  ∃ st',
    gaIteration example_config ceiling_state half = Some (st', half) ∧
    isRunning st' = false ∧
    population st' = population ceiling_state ∧
    bestIndividual st' = bestIndividual ceiling_state ∧
    currentGen st' = currentGen ceiling_state ∧
    cities st' = cities ceiling_state.
Proof. apply generation_ceiling. simpl. lia. Defined.

(** ** Crossover pass-through *)

(** C5, as amended.  Whenever the draw is strictly greater than
    [crossoverRate], [crossover] skips recombination and returns the tour of
    [parent1] unchanged; with [crossoverRate = 0] this is the case for every
    draw other than [0]. *)
Theorem crossover_skip (config : GAConfig.t) (parent1 parent2 : Individual.t)
    (g : RNG) :
  (GAConfig.crossoverRate config <? g O) = true →
  crossover config parent1 parent2 g = Some (Individual.path parent1, RNG_next g).
Proof. intros H. unfold crossover. rewrite bind_run. simpl. by rewrite H. Qed.

Lemma crossover_skip_witness :
  crossover no_crossover_config (mkIndividual triangle)
    (mkIndividual (reverse triangle)) half
  = Some (triangle, RNG_next half).
Proof. apply crossover_skip. by vm_compute. Defined.

(** With [crossoverRate = 0] and the draw [0] (a value the uniform source on
    [[0,1)] can return), [0 > 0] is false and the parents are recombined:
    the child is [0; 2; 1], not the tour [0; 1; 2] of [parent1]. *)
(** C5, as stated, fails.  With [crossoverRate = 0] and the draw [0] (a
    value the uniform source on [[0,1)] can return), [0 > 0] is false and
    the parents are recombined: for the parents [0; 1; 2] and [2; 1; 0] the
    child is [0; 2; 1], not the tour of [parent1]. *)
Lemma crossover_rate_zero_recombines : ¬ crossover_pass_through_claim.
Proof.
  intros H.
  specialize (H no_crossover_config (mkIndividual triangle)
                (mkIndividual (reverse triangle)) zero_draws
                eq_refl eq_refl eq_refl).
  vm_compute in H. discriminate H.
Qed.

(** ** The record written by one generation step *)

Lemma gaIteration_best config st g st' g' :
  gaIteration config st g = Some (st', g') →
  bestIndividual st' = bestIndividual st ∨
  (bestIndividual st' ∈ population st' ∧
   (Individual.length (bestIndividual st')
      <? Individual.length (bestIndividual st)) = true).
Proof.
  unfold gaIteration. destruct (1000 <=? currentGen st)%nat.
  - intros [= <- <-]. by left.
  - destruct (head (sort_by by_fitness_desc (population st))) as [elite|]; [|done].
    rewrite bind_run.
    destruct (refill _ _ _ _ g) as [[newPopulation g1]|]; [|done].
    destruct (head (sort_by by_length_asc newPopulation)) as [currentBest|] eqn:E; [|done].
    intros [= <- <-]. simpl.
    destruct (Individual.length currentBest <? _) eqn:El; [|by left].
    right. split; [|done].
    rewrite <- (sort_by_perm by_length_asc newPopulation).
    by eapply head_Some_elem_of.
Qed.

Lemma example_state_valid :
  Forall (λ ind, Individual.path ind ≡ₚ cities example_state) (population example_state).
Proof.
  repeat constructor. apply (rotate_perm 1 triangle).
Qed.

(** ** Tour length *)

(** C8, as amended.  [calculatePathLength] is a function of the tour alone
    (it draws no random number); for cities with finite coordinates it is
    greater than or equal to [0]; it is the sum, from left to right, of the
    edge lengths of the tour; rotating the tour rotates this sequence of
    summands and reversing the tour reverses it (up to a rotation), so the
    same edge lengths are added, in another order: the result is the same
    up to the rounding of the additions, not bit for bit. *)
Theorem path_length_properties (path : list City.t) (k : nat) :
  Forall finite_city path →
  (0 <=? calculatePathLength path) = true ∧
  calculatePathLength path = foldl add 0 (edge_lengths path) ∧
  edge_lengths (rotate k path) = rotate k (edge_lengths path) ∧
  edge_lengths (reverse path)
    = reverse (rotate (length path - 1) (edge_lengths path)) ∧
  edge_lengths (rotate k path) ≡ₚ edge_lengths path ∧
  edge_lengths (reverse path) ≡ₚ edge_lengths path.
Proof.
  intros Hfin. split; [by apply nonneg_leb, nonneg_calculatePathLength|].
  split; [apply calculatePathLength_edges|].
  split; [apply edge_lengths_rotate|].
  split; [apply edge_lengths_reverse|].
  split.
  - rewrite edge_lengths_rotate. apply rotate_perm.
  - rewrite edge_lengths_reverse, reverse_Permutation. apply rotate_perm.
Qed.

Lemma walk_finite : Forall finite_city walk.
Proof. repeat constructor. Qed.

Lemma path_length_properties_witness :
  (0 <=? calculatePathLength walk) = true ∧
  calculatePathLength walk = foldl add 0 (edge_lengths walk) ∧
  edge_lengths (rotate 1 walk) = rotate 1 (edge_lengths walk) ∧
  edge_lengths (reverse walk)
    = reverse (rotate (length walk - 1) (edge_lengths walk)) ∧
  edge_lengths (rotate 1 walk) ≡ₚ edge_lengths walk ∧
  edge_lengths (reverse walk) ≡ₚ edge_lengths walk.
Proof. apply path_length_properties. exact walk_finite. Defined.

(** C8, as stated, fails.  Four cities on a horizontal line: the tour has
    length [358.8], its rotation by one position (and its reversal) has
    length [358.80000000000007]. *)
Lemma length_not_invariant : ¬ length_invariance_claim.
Proof.
  intros H. destruct (H walk 1%nat walk_finite) as (_ & Hrot & _).
  assert (Hlt : (calculatePathLength walk
                   <? calculatePathLength (rotate 1 walk)) = true) by by vm_compute.
  rewrite Hrot in Hlt. vm_compute in Hlt. discriminate Hlt.
Qed.

(** ** Reset *)

Lemma coordinate_draws_next g : coordinate_draws_ok g → coordinate_draws_ok (RNG_next g).
Proof. intros H k. apply (H (S k)). Qed.

Lemma generateCities_from_spec count : ∀ i g,
  coordinate_draws_ok g →
  ∃ cities g',
    generateCities_from i count g = Some (cities, g') ∧
    City.id <$> cities = seq i count ∧
    Forall finite_city cities.
Proof.
  induction count as [|count IH]; intros i g Hg; simpl.
  - by exists [], g.
  - rewrite !bind_run. simpl. rewrite bind_run.
    change (Math_random (RNG_next g)) with (Some (RNG_next g O, RNG_next (RNG_next g))).
    cbv beta iota. rewrite bind_run.
    destruct (IH (S i) (RNG_next (RNG_next g))) as (rest & g' & -> & Hids & Hfin).
    { by do 2 apply coordinate_draws_next. }
    eexists _, _. split; [reflexivity|]. split; [by rewrite fmap_cons, Hids|].
    constructor; [|done]. split; simpl.
    + apply (Hg O).
    + apply (Hg 1%nat).
Qed.





(** * Further properties *)

(** ** Magnitudes and rounding errors of binary64 numbers *)

Section Magnitudes.
Local Open Scope Z_scope.

Lemma Zdigits2_nonneg m : 0 <= Zdigits2 m.
Proof. destruct m; simpl; lia. Qed.

Lemma Zdigits2_le m k : 0 <= m -> 0 <= k -> m < 2 ^ k -> Zdigits2 m <= k.
Proof.
  intros Hm Hk H. destruct m as [|p|p]; simpl; try lia.
  pose proof (digits2_pos_bounds p) as [Hlo _].
  destruct (Z_lt_le_dec k (Zpos (digits2_pos p))) as [Hlt|]; [|lia].
  exfalso. assert (2 ^ k <= 2 ^ (Zpos (digits2_pos p) - 1)) by (apply Z.pow_le_mono_r; lia).
  lia.
Qed.

Lemma Zdigits2_lt m : 0 <= m -> m < 2 ^ Zdigits2 m.
Proof.
  intros Hm. destruct m as [|p|p]; simpl; try lia. apply digits2_pos_bounds.
Qed.

Lemma Zdigits2_shiftr m n :
  0 <= m -> 0 <= n -> Zdigits2 (Z.shiftr m n) <= Z.max 0 (Zdigits2 m - n).
Proof.
  intros Hm Hn. pose proof (Zdigits2_lt m Hm) as Hlt.
  pose proof (Zdigits2_nonneg m) as Hd.
  rewrite Z.shiftr_div_pow2 by lia.
  apply Zdigits2_le; [apply Z.div_pos; lia|lia|].
  apply Z.div_lt_upper_bound; [lia|].
  rewrite <- Z.pow_add_r by lia.
  eapply Z.lt_le_trans; [exact Hlt|]. apply Z.pow_le_mono_r; lia.
Qed.

Lemma Zdigits2_succ m : 0 <= m -> Zdigits2 (m + 1) <= Zdigits2 m + 1.
Proof.
  intros Hm. pose proof (Zdigits2_lt m Hm) as Hlt.
  pose proof (Zdigits2_nonneg m) as Hd.
  apply Zdigits2_le; [lia|lia|]. rewrite Z.pow_add_r by lia. lia.
Qed.

Lemma Zdigits2_mono m n : 0 <= m <= n -> Zdigits2 m <= Zdigits2 n.
Proof.
  intros [Hm Hn]. apply Zdigits2_le; [lia|apply Zdigits2_nonneg|].
  pose proof (Zdigits2_lt n ltac:(lia)). lia.
Qed.

Lemma round_nearest_even_le m l : round_nearest_even m l <= m + 1.
Proof. destruct l as [|[]]; simpl; try lia. destruct (Z.even m); lia. Qed.

Lemma shr_fexp_bound m e l B E :
  0 <= m -> Zdigits2 m + e <= B -> e <= E -> emin <= E -> B - 53 <= E -> E <= B ->
  0 <= shr_m (shr_fexp prec emax m e l).1 /\
  (shr_fexp prec emax m e l).2 <= E /\
  Zdigits2 (shr_m (shr_fexp prec emax m e l).1) + (shr_fexp prec emax m e l).2 <= B.
Proof.
  intros Hm Hq He Hmin HB HEB.
  split; [by apply shr_fexp_nonneg|].
  unfold shr_fexp. rewrite shr_exp.
  set (n := fexp prec emax (Zdigits2 m + e) - e).
  assert (Hn : e + Z.max 0 n <= E).
  { subst n. unfold fexp, SpecFloat.emin, prec, emax in *. lia. }
  split; [exact Hn|].
  destruct n as [|p|p] eqn:En; simpl shr.
  - simpl. rewrite shr_record_of_loc_m. lia.
  - simpl fst. rewrite iter_shr_1_m by (rewrite shr_record_of_loc_m; lia).
    rewrite shr_record_of_loc_m.
    pose proof (Zdigits2_shiftr m (Zpos p) Hm ltac:(lia)). lia.
  - simpl. rewrite shr_record_of_loc_m. lia.
Qed.

Lemma binary_round_aux_below s m e l B E :
  0 <= m -> Zdigits2 m + e <= B -> e <= E -> emin <= E -> B - 52 <= E -> E <= B ->
  E <= emax - prec ->
  sf_below (B + 1) (binary_round_aux prec emax s m e l).
Proof.
  intros Hm Hq He Hmin HB HEB HE. unfold binary_round_aux.
  pose proof (shr_fexp_bound m e l B E Hm Hq He Hmin ltac:(lia) HEB) as (H1 & H2 & H3).
  destruct (shr_fexp prec emax m e l) as [mrs' e']. simpl in H1, H2, H3.
  set (m1 := round_nearest_even (shr_m mrs') (loc_of_shr_record mrs')).
  pose proof (round_nearest_even_ge (shr_m mrs') (loc_of_shr_record mrs')) as Hge.
  pose proof (round_nearest_even_le (shr_m mrs') (loc_of_shr_record mrs')) as Hle.
  fold m1 in Hge, Hle.
  assert (Hd1 : Zdigits2 m1 + e' <= B + 1).
  { pose proof (Zdigits2_mono m1 (shr_m mrs' + 1) ltac:(lia)).
    pose proof (Zdigits2_succ (shr_m mrs') H1). lia. }
  pose proof (shr_fexp_bound m1 e' loc_Exact (B + 1) E ltac:(lia) Hd1 H2 Hmin
                ltac:(lia) ltac:(lia)) as (K1 & K2 & K3).
  destruct (shr_fexp prec emax m1 e' loc_Exact) as [mrs'' e'']. simpl in K1, K2, K3.
  destruct (shr_m mrs'') as [|p|p] eqn:Ep.
  - exact I.
  - destruct (Z.leb_spec e'' (emax - prec)) as [_|Hgt]; [|lia].
    simpl in K3. exact K3.
  - lia.
Qed.

Lemma digits2_pos_mul a b :
  Zpos (digits2_pos (a * b)) <= Zpos (digits2_pos a) + Zpos (digits2_pos b).
Proof.
  pose proof (digits2_pos_bounds a) as [_ Ha]. pose proof (digits2_pos_bounds b) as [_ Hb].
  apply (Zdigits2_le (Zpos (a * b))); [lia|lia|].
  rewrite Z.pow_add_r by lia. rewrite Pos2Z.inj_mul. nia.
Qed.

(** The product of a number below [2 ^ p] and one below [2 ^ q]. *)
Lemma SFmul_below x y p q :
  valid_binary x = true -> valid_binary y = true ->
  sf_below p x -> sf_below q y -> emin <= p + q <= emax - prec ->
  sf_below (p + q + 1) (SFmul prec emax x y).
Proof.
  intros Vx Vy Hx Hy Hpq.
  destruct x as [sx|sx| |sx mx ex], y as [sy|sy| |sy my ey]; simpl in Hx, Hy;
    try contradiction; simpl; try done.
  pose proof (digits2_pos_mul mx my) as Hd.
  pose proof (digits2_pos_bounds mx) as _.
  apply (binary_round_aux_below _ _ _ _ (p + q) (p + q)); simpl; unfold emax, prec in *; try lia.
Qed.

Lemma sf_below_finite q x : sf_below q x -> sf_finite x = true.
Proof. destruct x; simpl; try done. Qed.

Lemma shl_align_digits mx ex ex' :
  Zpos (digits2_pos (shl_align mx ex ex').1) + (shl_align mx ex ex').2
  <= Zpos (digits2_pos mx) + ex.
Proof.
  unfold shl_align. destruct (ex' - ex) as [|d|d] eqn:E; simpl; try lia.
  pose proof (digits2_pos_bounds mx) as [_ Hm].
  pose proof (Zdigits2_le (Zpos (Pos.iter xO mx d)) (Zpos (digits2_pos mx) + Zpos d)
                ltac:(lia) ltac:(lia)) as H.
  simpl in H. rewrite pos_iter_xO, Z.pow_add_r in H by lia.
  assert (0 < 2 ^ Z.pos d) by (apply Z.pow_pos_nonneg; lia).
  specialize (H ltac:(nia)). lia.
Qed.

Lemma binary_round_below s m e B :
  Zpos (digits2_pos m) + e <= B -> emin <= B -> B <= emax - prec ->
  sf_below (B + 1) (binary_round prec emax s m e).
Proof.
  intros Hq Hmin HB. unfold binary_round.
  pose proof (shl_align_digits m e (fexp prec emax (Zpos (digits2_pos m) + e))) as Hd.
  pose proof (shl_align_exp m e (fexp prec emax (Zpos (digits2_pos m) + e))) as He.
  destruct (shl_align _ _ _) as [mz ez]. simpl in Hd, He.
  apply (binary_round_aux_below _ _ _ _ B B); simpl; try lia.
Qed.

Lemma aligned_below mx ex ez p :
  ez <= ex -> Zpos (digits2_pos mx) + ex <= p ->
  Zpos (shl_align mx ex ez).1 < 2 ^ (p - ez).
Proof.
  intros Hez Hp. rewrite shl_align_m by done.
  pose proof (digits2_pos_bounds mx) as [_ Hm].
  assert (Zpos mx * 2 ^ (ex - ez) < 2 ^ Zpos (digits2_pos mx) * 2 ^ (ex - ez)).
  { apply Z.mul_lt_mono_pos_r; [apply Z.pow_pos_nonneg; lia|done]. }
  rewrite <- Z.pow_add_r in H by lia.
  eapply Z.lt_le_trans; [exact H|]. apply Z.pow_le_mono_r; lia.
Qed.

(** The sum of a number below [2 ^ p] and one below [2 ^ q]. *)
Lemma SFadd_below x y p q B :
  sf_below p x -> sf_below q y -> p <= B -> q <= B ->
  emin <= B + 1 -> B + 1 <= emax - prec ->
  sf_below (B + 2) (SFadd prec emax x y).
Proof.
  intros Hx Hy Hp Hq Hmin HB.
  destruct x as [sx|sx| |sx mx ex], y as [sy|sy| |sy my ey]; simpl in Hx, Hy;
    try contradiction; simpl SFadd.
  - destruct sx, sy; done.
  - simpl. lia.
  - simpl. lia.
  - set (ez := Z.min ex ey).
    pose proof (aligned_below mx ex ez B ltac:(lia) ltac:(lia)) as Ha.
    pose proof (aligned_below my ey ez B ltac:(lia) ltac:(lia)) as Hb.
    set (a := Zpos (shl_align mx ex ez).1) in *.
    set (b := Zpos (shl_align my ey ez).1) in *.
    assert (Hab : forall d, Zpos d <= a + b -> Zpos (digits2_pos d) + ez <= B + 1).
    { intros d Hd.
      pose proof (digits2_pos_bounds mx) as _.
      assert (0 <= B + 1 - ez).
      { pose proof (digits2_pos_bounds mx). lia. }
      pose proof (Zdigits2_le (Zpos d) (B + 1 - ez) ltac:(lia) ltac:(lia)) as H1.
      simpl in H1. cut (Zpos d < 2 ^ (B + 1 - ez)); [lia|].
      replace (B + 1 - ez) with (Z.succ (B - ez)) by lia.
      rewrite Z.pow_succ_r by lia. lia. }
    replace (B + 2) with (B + 1 + 1) by lia.
    destruct (cond_Zopp sx a + cond_Zopp sy b) as [|d|d] eqn:E; simpl binary_normalize.
    + done.
    + apply binary_round_below; try lia. apply Hab. destruct sx, sy; simpl in E; lia.
    + apply binary_round_below; try lia. apply Hab. destruct sx, sy; simpl in E; lia.
Qed.

Lemma SFcompare_lt_cases m e p e0 :
  SFcompare (S754_finite false m e) (S754_finite false p e0) = Some Lt ->
  e < e0 \/ (e = e0 /\ Zpos m < Zpos p).
Proof.
  unfold SFcompare.
  destruct (Z.compare_spec e e0) as [->|Hlt|Hgt]; [|by left|discriminate].
  rewrite Pos.compare_cont_spec. unfold Pos.switch_Eq.
  destruct (Pos.compare_spec m p) as [|Hlt|]; try discriminate.
  intros _. right. split; [done|]. by apply Pos2Z.pos_lt_pos.
Qed.
Lemma two_pow_52 : Zpos 4503599627370496 = 2 ^ 52.
Proof. reflexivity. Qed.
Lemma lt_two_pow_52 m e :
  valid_binary (S754_finite false m e) = true ->
  SFcompare (S754_finite false m e) (S754_finite false 4503599627370496 (-52)) = Some Lt ->
  Zpos (digits2_pos m) + e <= 0.
Proof.
  intros V H.
  apply valid_finite_bounds in V as (_ & Hm & _).
  assert (Hd : Zpos (digits2_pos m) <= 53).
  { apply (Zdigits2_le (Zpos m)); lia. }
  apply SFcompare_lt_cases in H. rewrite two_pow_52 in H.
  destruct H as [H|[-> H]]; [lia|].
  assert (Zpos (digits2_pos m) <= 52); [|lia].
  apply (Zdigits2_le (Zpos m)); lia.
Qed.


Lemma unit_below x :
  valid_binary x = true ->
  SFleb (S754_zero false) x = true ->
  SFltb x (S754_finite false 4503599627370496 (-52)) = true ->
  sf_below 0 x.
Proof.
  intros V H0 H1. destruct x as [s|s| |s m e].
  - exact I.
  - destruct s; discriminate.
  - discriminate.
  - destruct s; [discriminate H0|].
    apply SFltb_true_iff in H1. by apply lt_two_pow_52.
Qed.

Lemma SFdiv_weak mx ex y :
  sf_weak false y -> sf_weak false (SFdiv prec emax (S754_finite false mx ex) y).
Proof.
  destruct y as [sy|sy| |sy my ey]; simpl sf_weak; try contradiction;
    intros ->; try reflexivity.
  unfold SFdiv. cbv beta iota. change (xorb false false) with false.
  unfold SFdiv_core_binary.
  set (m' := match _ - _ - _ with Z0 => Zpos mx | Zpos _ => _ | Zneg _ => 0 end).
  assert (Hm' : 0 <= m').
  { subst m'. destruct (_ - _ - _); try lia. apply Z.shiftl_nonneg. lia. }
  pose proof (Z_div_mod m' (Zpos my) ltac:(lia)) as H.
  destruct (Z.div_eucl m' (Zpos my)) as [q r].
  apply binary_round_aux_weak. nia.
Qed.

Lemma SFsub_self x : sf_finite x = true -> SFsub prec emax x x = S754_zero false.
Proof.
  destruct x as [s|s| |s m e]; simpl; try discriminate; intros _.
  - destruct s; reflexivity.
  - rewrite Z.sub_diag. reflexivity.
Qed.

Lemma shr_1_r mrs : 0 <= shr_m mrs -> shr_r (shr_1 mrs) = Z.odd (shr_m mrs).
Proof.
  destruct mrs as [m r s]; simpl. destruct m as [|[p|p|]|p]; simpl; try reflexivity; lia.
Qed.

Lemma iter_shr_1_r p : forall mrs, 0 <= shr_m mrs ->
  shr_r (SpecFloat.iter_pos shr_1 p mrs) = Z.testbit (shr_m mrs) (Zpos p - 1).
Proof.
  induction p as [p IH|p IH|]; intros mrs Hm; simpl SpecFloat.iter_pos.
  - assert (H1 : 0 <= shr_m (shr_1 mrs))
      by (rewrite shr_1_m by lia; apply Z.div2_nonneg; lia).
    assert (H2 : 0 <= shr_m (SpecFloat.iter_pos shr_1 p (shr_1 mrs)))
      by (rewrite iter_shr_1_m by lia; apply Z.shiftr_nonneg; lia).
    rewrite IH, iter_shr_1_m, shr_1_m by lia.
    rewrite Z.div2_spec, Z.shiftr_shiftr, Z.shiftr_spec by lia. f_equal. lia.
  - assert (H2 : 0 <= shr_m (SpecFloat.iter_pos shr_1 p mrs))
      by (rewrite iter_shr_1_m by lia; apply Z.shiftr_nonneg; lia).
    rewrite IH, iter_shr_1_m by lia.
    rewrite Z.shiftr_spec by lia. f_equal. lia.
  - rewrite shr_1_r by lia. symmetry. apply Z.bit0_odd.
Qed.

(** A set bit [p - 1] puts [m] in the upper half of its interval of
    length [2 ^ p]. *)
Lemma testbit_upper_half m p :
  0 <= m -> 0 < p -> Z.testbit m (p - 1) = true ->
  (2 * Z.shiftr m p + 1) * 2 ^ p <= 2 * m.
Proof.
  intros Hm Hp Hb. apply Z.testbit_true in Hb; [|lia].
  rewrite Z.shiftr_div_pow2 by lia.
  assert (H2 : 0 < 2 ^ (p - 1)) by (apply Z.pow_pos_nonneg; lia).
  assert (Hpow : 2 ^ p = 2 * 2 ^ (p - 1)).
  { replace p with (Z.succ (p - 1)) at 1 by lia. rewrite Z.pow_succ_r; lia. }
  set (a := m / 2 ^ (p - 1)) in *.
  assert (Ha : m / 2 ^ p = a / 2).
  { rewrite Hpow, Z.mul_comm, <- Z.div_div by lia. reflexivity. }
  rewrite Ha.
  pose proof (Z.div_mod a 2 ltac:(lia)) as Hdm. rewrite Hb in Hdm.
  pose proof (Z.mul_div_le m (2 ^ (p - 1)) H2) as Hle. fold a in Hle.
  rewrite Hpow. nia.
Qed.

Lemma shr_round_bound m p :
  0 <= m ->
  2 * round_nearest_even
        (shr_m (SpecFloat.iter_pos shr_1 p (Build_shr_record m false false)))
        (loc_of_shr_record (SpecFloat.iter_pos shr_1 p (Build_shr_record m false false)))
    * 2 ^ Zpos p
  <= 2 * m + 2 ^ Zpos p.
Proof.
  intros Hm.
  pose proof (iter_shr_1_m p (Build_shr_record m false false) Hm) as Em.
  pose proof (iter_shr_1_r p (Build_shr_record m false false) Hm) as Er.
  simpl shr_m in Em, Er.
  destruct (SpecFloat.iter_pos shr_1 p _) as [q r s]. simpl in Em, Er. subst q.
  cbn [shr_m].
  assert (Hq : Z.shiftr m (Zpos p) * 2 ^ Zpos p <= m).
  { rewrite Z.shiftr_div_pow2 by lia. rewrite Z.mul_comm.
    apply Z.mul_div_le. apply Z.pow_pos_nonneg; lia. }
  assert (Hpos : 0 < 2 ^ Zpos p) by (apply Z.pow_pos_nonneg; lia).
  destruct r.
  - symmetry in Er. apply testbit_upper_half in Er; [|lia|lia].
    assert (round_nearest_even (Z.shiftr m (Zpos p))
              (loc_of_shr_record (Build_shr_record (Z.shiftr m (Zpos p)) true s))
            <= Z.shiftr m (Zpos p) + 1) as Hx by apply round_nearest_even_le.
    set (x := round_nearest_even _ _) in *. set (q := Z.shiftr m (Zpos p)) in *.
    set (P := 2 ^ Zpos p) in *.
    assert (2 * x * P <= 2 * (q + 1) * P) by (apply Z.mul_le_mono_nonneg_r; lia).
    lia.
  - assert (round_nearest_even (Z.shiftr m (Zpos p))
              (loc_of_shr_record (Build_shr_record (Z.shiftr m (Zpos p)) false s))
            = Z.shiftr m (Zpos p)) as -> by (by destruct s).
    lia.
Qed.

(** The first rounding step of [binary_round_aux] on an exact input. *)
Lemma shr_fexp_round_bound m e :
  0 <= m ->
  let n := fexp prec emax (Zdigits2 m + e) - e in
  let mrs := (shr_fexp prec emax m e loc_Exact).1 in
  let e' := (shr_fexp prec emax m e loc_Exact).2 in
  let m1 := round_nearest_even (shr_m mrs) (loc_of_shr_record mrs) in
  e' = e + Z.max 0 n /\ 0 <= m1 /\
  2 * m1 * 2 ^ (e' - e) <= 2 * m + (if 0 <? n then 2 ^ n else 0).
Proof.
  intros Hm n mrs e' m1. subst mrs e' m1. unfold shr_fexp. fold n.
  rewrite shr_exp. split; [reflexivity|].
  replace (e + Z.max 0 n - e) with (Z.max 0 n) by lia.
  destruct n as [|p|p]; simpl shr; simpl fst.
  - change (Z.max 0 0) with 0. simpl. lia.
  - split.
    + eapply Z.le_trans; [|apply round_nearest_even_ge].
      rewrite iter_shr_1_m by (simpl; lia). apply Z.shiftr_nonneg. simpl. lia.
    + rewrite Z.max_r by lia. change (0 <? Zpos p) with true. cbv iota.
      by apply shr_round_bound.
  - change (Z.max 0 (Zneg p)) with 0. simpl. lia.
Qed.

Lemma shr_fexp_floor_bound m e :
  0 <= m ->
  let n := fexp prec emax (Zdigits2 m + e) - e in
  let mrs := (shr_fexp prec emax m e loc_Exact).1 in
  let e' := (shr_fexp prec emax m e loc_Exact).2 in
  e' = e + Z.max 0 n /\ shr_m mrs * 2 ^ (e' - e) <= m.
Proof.
  intros Hm n mrs e'. subst mrs e'. unfold shr_fexp. fold n.
  rewrite shr_exp. split; [reflexivity|].
  replace (e + Z.max 0 n - e) with (Z.max 0 n) by lia.
  destruct n as [|p|p]; simpl shr; simpl fst.
  - change (Z.max 0 0) with 0. simpl. lia.
  - rewrite iter_shr_1_m by (simpl; lia). simpl shr_m. rewrite Z.max_r by lia.
    rewrite Z.shiftr_div_pow2 by lia. rewrite Z.mul_comm.
    apply Z.mul_div_le. apply Z.pow_pos_nonneg; lia.
  - change (Z.max 0 (Zneg p)) with 0. simpl. lia.
Qed.

(** The result of rounding the exact number [m * 2 ^ e] exceeds it by at
    most half a unit of the first shift. *)
Lemma binary_round_aux_bound s m e :
  0 <= m ->
  match binary_round_aux prec emax s m e loc_Exact with
  | S754_finite _ m2 e2 =>
      e <= e2 /\
      2 * Zpos m2 * 2 ^ (e2 - e)
      <= 2 * m + (if 0 <? fexp prec emax (Zdigits2 m + e) - e
                  then 2 ^ (fexp prec emax (Zdigits2 m + e) - e) else 0)
  | _ => True
  end.
Proof.
  intros Hm. unfold binary_round_aux.
  pose proof (shr_fexp_round_bound m e Hm) as (He1 & Hm1 & Hb1).
  destruct (shr_fexp prec emax m e loc_Exact) as [mrs' e']. simpl in He1, Hm1, Hb1.
  set (m1 := round_nearest_even (shr_m mrs') (loc_of_shr_record mrs')) in *.
  pose proof (shr_fexp_floor_bound m1 e' Hm1) as (He2 & Hb2).
  destruct (shr_fexp prec emax m1 e' loc_Exact) as [mrs'' e'']. simpl in He2, Hb2.
  destruct (shr_m mrs'') as [|m2|m2]; try exact I.
  destruct (e'' <=? emax - prec); [|exact I].
  set (H := if 0 <? _ then _ else _) in *.
  split; [lia|].
  replace (e'' - e) with ((e'' - e') + (e' - e)) by lia.
  rewrite Z.pow_add_r by lia.
  assert (0 < 2 ^ (e' - e)) by (apply Z.pow_pos_nonneg; lia).
  nia.
Qed.

Lemma Zdigits2_unique m a : 0 < a -> 2 ^ (a - 1) <= m < 2 ^ a -> Zdigits2 m = a.
Proof.
  intros Ha [Hlo Hhi].
  assert (0 < 2 ^ (a - 1)) by (apply Z.pow_pos_nonneg; lia).
  assert (Hle : Zdigits2 m <= a) by (apply Zdigits2_le; lia).
  pose proof (Zdigits2_lt m ltac:(lia)) as Hlt.
  pose proof (Zdigits2_nonneg m) as Hn.
  destruct (Z_lt_le_dec (Zdigits2 m) a) as [Hd|]; [|lia].
  exfalso. assert (2 ^ Zdigits2 m <= 2 ^ (a - 1)) by (apply Z.pow_le_mono_r; lia).
  lia.
Qed.

Lemma binary_round_aux_canonical s m e :
  Zpos (digits2_pos m) = 53 -> emin <= e <= emax - prec ->
  binary_round_aux prec emax s (Zpos m) e loc_Exact = S754_finite s m e.
Proof.
  intros Hd He. unfold binary_round_aux, shr_fexp.
  assert (Hn : fexp prec emax (Zdigits2 (Zpos m) + e) - e = 0).
  { simpl Zdigits2. rewrite Hd. unfold fexp, SpecFloat.emin, prec, emax in *. lia. }
  rewrite Hn. simpl. rewrite Hd.
  assert (Hn' : fexp prec emax (53 + e) - e = 0).
  { unfold fexp, SpecFloat.emin, prec, emax in *. lia. }
  rewrite Hn'. simpl.
  destruct (Z.leb_spec e (emax - prec)); [done|lia].
Qed.

(** The number denoted by [n], for [1 <= n < 2 ^ 53]: a normal number
    whose value is [n]. *)
Lemma binary_normalize_nat p :
  Zpos p < 2 ^ 53 ->
  exists mn en,
    binary_normalize prec emax (Zpos p) 0 false = S754_finite false mn en /\
    -52 <= en <= 0 /\ Zpos mn = Zpos p * 2 ^ (- en) /\ 2 ^ 52 <= Zpos mn.
Proof.
  intros Hp. simpl binary_normalize. unfold binary_round.
  pose proof (digits2_pos_bounds p) as [Hlo Hhi].
  set (d := Zpos (digits2_pos p)) in *.
  assert (Hd : 1 <= d <= 53).
  { split; [subst d; lia|]. apply (Zdigits2_le (Zpos p)); lia. }
  assert (Hf : fexp prec emax (d + 0) = d - 53).
  { unfold fexp, SpecFloat.emin, prec, emax. lia. }
  rewrite Hf.
  pose proof (shl_align_m p 0 (d - 53) ltac:(lia)) as Hm.
  pose proof (shl_align_exp p 0 (d - 53)) as He.
  destruct (shl_align p 0 (d - 53)) as [mz ez]. simpl in Hm, He.
  rewrite Z.min_r in He by lia. subst ez.
  replace (0 - (d - 53)) with (53 - d) in Hm by lia.
  assert (Hpow : 2 ^ 52 = 2 ^ (d - 1) * 2 ^ (53 - d)).
  { rewrite <- Z.pow_add_r by lia. f_equal. lia. }
  assert (Hpow' : 2 ^ 53 = 2 ^ d * 2 ^ (53 - d)).
  { rewrite <- Z.pow_add_r by lia. f_equal. lia. }
  assert (Hs : 0 < 2 ^ (53 - d)) by (apply Z.pow_pos_nonneg; lia).
  assert (Hmz : 2 ^ 52 <= Zpos mz < 2 ^ 53).
  { rewrite Hm, Hpow, Hpow'. split.
    - apply Z.mul_le_mono_nonneg_r; lia.
    - apply Z.mul_lt_mono_pos_r; lia. }
  assert (Hdz : Zpos (digits2_pos mz) = 53).
  { apply (Zdigits2_unique (Zpos mz) 53); [lia|]. exact Hmz. }
  exists mz, (d - 53).
  rewrite binary_round_aux_canonical
    by (done || unfold SpecFloat.emin, prec, emax; lia).
  split; [done|]. split; [lia|]. split; [|lia].
  rewrite Hm. do 2 f_equal. lia.
Qed.

Lemma of_nat_spec n :
  (1 <= n)%nat -> Z.of_nat n < 2 ^ 53 ->
  exists mn en,
    Prim2SF (of_nat n) = S754_finite false mn en /\
    -52 <= en <= 0 /\ Zpos mn = Z.of_nat n * 2 ^ (- en) /\ 2 ^ 52 <= Zpos mn.
Proof.
  intros Hn Hlt. unfold of_nat. rewrite of_uint63_spec, Uint63.of_Z_spec.
  assert (Hw : 2 ^ 53 < Uint63.wB) by reflexivity.
  rewrite Z.mod_small by lia.
  destruct (Z.of_nat n) as [|p|p] eqn:Ep; try lia.
  by apply binary_normalize_nat.
Qed.

Lemma pow2_le a b : a <= b -> 2 ^ a <= 2 ^ b.
Proof.
  intros H. destruct (Z_lt_le_dec a 0) as [Ha|Ha].
  - rewrite (Z.pow_neg_r 2 a) by lia. apply Z.pow_nonneg. lia.
  - apply Z.pow_le_mono_r; lia.
Qed.

Lemma pow2_split a b : 0 <= a -> 0 <= b -> 2 ^ (a + b) = 2 ^ a * 2 ^ b.
Proof. intros. apply Z.pow_add_r; lia. Qed.

Lemma pow2_pos a : 0 <= a -> 0 < 2 ^ a.
Proof. intros. apply Z.pow_pos_nonneg; lia. Qed.

(** The half unit added by the first rounding step of the product of
    [mr * 2 ^ (- k)], a number below [1], and the normal number
    [mn * 2 ^ en]. *)
Lemma unit_product_half_unit mr mn k en :
  0 < mr < 2 ^ 53 -> 53 <= k -> 2 ^ 52 <= mn -> -52 <= en <= 0 ->
  let M := mr * mn in
  let E := - k + en in
  let n1 := fexp prec emax (Zdigits2 M + E) - E in
  2 * M + (if 0 <? n1 then 2 ^ n1 else 0) < 2 * mn * 2 ^ k.
Proof.
  intros Hmr Hk Hmn Hen M E n1.
  assert (H53 : 2 ^ 53 <= 2 ^ k) by (apply pow2_le; lia).
  assert (Hg : 1 <= 2 ^ k - mr) by lia.
  assert (HM : 0 < M) by (subst M; nia).
  destruct (Z.ltb_spec 0 n1) as [Hn1|Hn1]; [|subst M; nia].
  pose proof (Zdigits2_lt M ltac:(lia)) as Hhi.
  set (D := Zdigits2 M) in *.
  assert (HD : 0 < D).
  { destruct (Z_lt_le_dec 0 D) as [|HD0]; [done|].
    assert (2 ^ D <= 2 ^ 0) by (apply pow2_le; lia). simpl in *. lia. }
  assert (Hlo : 2 ^ (D - 1) <= M).
  { subst D. destruct M as [|p|p]; try lia. simpl. apply digits2_pos_bounds. }
  unfold fexp, prec, emax, SpecFloat.emin in n1.
  destruct (Z_le_gt_dec (3 - 1024 - 53) (D + E - 53)) as [Hnorm|Hsub].
  - (* the result is a normal number *)
    assert (En : n1 = D - 53) by (subst n1; lia).
    rewrite En in *.
    assert (Hp : 2 ^ (D - 1) = 2 ^ 53 * 2 ^ (D - 54)).
    { rewrite <- pow2_split by lia. f_equal. lia. }
    assert (Hq : 2 ^ (D - 53) = 2 * 2 ^ (D - 54)).
    { replace (D - 53) with (Z.succ (D - 54)) by lia. rewrite Z.pow_succ_r; lia. }
    assert (Hpos : 0 < 2 ^ (D - 54)) by (apply pow2_pos; lia).
    assert (2 ^ (D - 54) < mn).
    { assert (2 ^ 53 * 2 ^ (D - 54) < 2 ^ 53 * mn); [|nia].
      rewrite <- Hp. subst M. nia. }
    subst M. nia.
  - (* the result is a subnormal number *)
    assert (En : n1 = 3 - 1024 - 53 - E) by (subst n1; lia).
    rewrite En in *.
    assert (Hk' : 1023 <= k) by (subst E; lia).
    assert (Hh : 2 ^ (3 - 1024 - 53 - E) <= 2 ^ (k - 1022)).
    { apply pow2_le. subst E. lia. }
    assert (Hs : 2 ^ (k + 52) = 2 ^ 52 * 2 ^ k).
    { rewrite Z.add_comm. apply pow2_split; lia. }
    assert (Hlt : 2 ^ (k - 1022) < 2 ^ (k + 52)).
    { apply Z.pow_lt_mono_r; lia. }
    assert (Hk2 : 2 ^ k = 2 * 2 ^ (k - 1)).
    { replace k with (Z.succ (k - 1)) at 1 by lia. rewrite Z.pow_succ_r; lia. }
    assert (H54 : 2 ^ 53 <= 2 ^ (k - 1)) by (apply pow2_le; lia).
    assert (Hgg : 2 ^ (k - 1) <= 2 ^ k - mr) by lia.
    assert (2 ^ 52 * 2 ^ k <= 2 * mn * (2 ^ k - mr)).
    { rewrite Hk2 at 1.
      assert (2 ^ 52 * (2 ^ k - mr) <= mn * (2 ^ k - mr))
        by (apply Z.mul_le_mono_nonneg_r; lia).
      nia. }
    subst M. nia.
Qed.

Lemma SFmul_unit_bound mr er mn en n :
  valid_binary (S754_finite false mr er) = true ->
  Zpos (digits2_pos mr) + er <= 0 ->
  -52 <= en <= 0 -> Zpos mn = n * 2 ^ (- en) -> 2 ^ 52 <= Zpos mn ->
  match SFmul prec emax (S754_finite false mr er) (S754_finite false mn en) with
  | S754_finite _ m2 e2 =>
      if e2 <? 0 then Zpos m2 < n * 2 ^ (- e2) else Zpos m2 * 2 ^ e2 < n
  | _ => True
  end.
Proof.
  intros V Hr Hen Hn Hmn.
  apply valid_finite_bounds in V as (Hemin & Hmr & Hnorm).
  unfold SpecFloat.emin, prec, emax in Hemin, Hnorm.
  pose proof (digits2_pos_bounds mr) as [Hdlo Hdhi].
  assert (Hk : 53 <= - er).
  { destruct (Z_lt_le_dec (3 - 1024 - 53) er) as [Hlt|]; [|lia].
    specialize (Hnorm Hlt).
    assert (52 < Zpos (digits2_pos mr)); [|lia].
    apply (Z.pow_lt_mono_r_iff 2); lia. }
  simpl SFmul.
  pose proof (binary_round_aux_bound false (Zpos (mr * mn)) (er + en) ltac:(lia)) as Hb.
  pose proof (unit_product_half_unit (Zpos mr) (Zpos mn) (- er) en
                ltac:(lia) Hk Hmn Hen) as Hh.
  cbv zeta in Hh. rewrite Z.opp_involutive in Hh.
  rewrite <- Pos2Z.inj_mul in Hh.
  destruct (binary_round_aux prec emax false (Zpos (mr * mn)) (er + en) loc_Exact)
    as [| | |s2 m2 e2]; try exact I.
  destruct Hb as [He2 Hb].
  set (E := er + en) in *.
  assert (Hlt : Zpos m2 * 2 ^ (e2 - E) < n * 2 ^ (- E)).
  { assert (HE : 2 ^ (- E) = 2 ^ (- en) * 2 ^ (- er)).
    { rewrite <- pow2_split by lia. f_equal. subst E. lia. }
    rewrite HE, Z.mul_assoc, <- Hn. lia. }
  destruct (Z.ltb_spec e2 0) as [Hneg|Hpos].
  - assert (HE : 2 ^ (- E) = 2 ^ (- e2) * 2 ^ (e2 - E)).
    { rewrite <- pow2_split by lia. f_equal. lia. }
    rewrite HE, Z.mul_assoc in Hlt.
    apply Z.mul_lt_mono_pos_r in Hlt; [done|]. apply pow2_pos. lia.
  - assert (HE : 2 ^ (e2 - E) = 2 ^ e2 * 2 ^ (- E)).
    { rewrite <- pow2_split by lia. reflexivity. }
    rewrite HE, Z.mul_assoc in Hlt.
    apply Z.mul_lt_mono_pos_r in Hlt; [done|]. apply pow2_pos. subst E. lia.
Qed.

Lemma SF_floor_unit_product x mn en n :
  valid_binary x = true ->
  SFleb (S754_zero false) x = true ->
  SFltb x (S754_finite false 4503599627370496 (-52)) = true ->
  (1 <= n)%nat ->
  -52 <= en <= 0 -> Zpos mn = Z.of_nat n * 2 ^ (- en) -> 2 ^ 52 <= Zpos mn ->
  match SFmul prec emax x (S754_finite false mn en) with
  | S754_finite false m e =>
      (Z.to_nat (match e with
                 | Zneg p => Z.shiftr (Zpos m) (Zpos p)
                 | _ => Z.shiftl (Zpos m) e
                 end) < n)%nat
  | _ => True
  end.
Proof.
  intros V H0 H1 Hn1 Hen Hn Hmn.
  destruct x as [s|s| |s mr er]; try done.
  destruct s; [discriminate H0|].
  apply SFltb_true_iff in H1. pose proof (lt_two_pow_52 mr er V H1) as Hr.
  pose proof (SFmul_unit_bound mr er mn en (Z.of_nat n) V Hr Hen Hn Hmn) as Hb.
  destruct (SFmul prec emax _ _) as [| | |s2 m2 e2]; try exact I.
  destruct s2; [exact I|].
  destruct e2 as [|p|p].
  - simpl in Hb. rewrite Z.shiftl_0_r. lia.
  - change (Zpos p <? 0) with false in Hb. cbv iota in Hb.
    rewrite Z.shiftl_mul_pow2 by lia. lia.
  - change (Zneg p <? 0) with true in Hb. cbv iota in Hb.
    change (- Zneg p) with (Zpos p) in Hb.
    rewrite Z.shiftr_div_pow2 by lia.
    assert (Zpos m2 / 2 ^ Zpos p < Z.of_nat n).
    { apply Z.div_lt_upper_bound; [apply pow2_pos; lia|]. lia. }
    assert (0 <= Zpos m2 / 2 ^ Zpos p) by (apply Z.div_pos; [lia|apply pow2_pos; lia]).
    lia.
Qed.

End Magnitudes.

(** ** Draws, reciprocals and differences *)

Lemma unit_draw_below r : unit_draw r → sf_below 0 (Prim2SF r).
Proof.
  intros [H0 H1]. rewrite FloatAxioms.leb_spec in H0. rewrite FloatAxioms.ltb_spec in H1.
  apply unit_below; [apply Prim2SF_valid|done|done].
Qed.

(** [r * c + d] is a finite number when [r] is a draw and [c], [d] are
    below [2 ^ 10]. *)
Lemma unit_affine_finite r c d :
  unit_draw r → sf_below 10 (Prim2SF c) → sf_below 10 (Prim2SF d) →
  is_finite (r * c + d) = true.
Proof.
  intros Hr Hc Hd. rewrite is_finite_spec, add_spec, mul_spec.
  apply (sf_below_finite 13).
  apply (SFadd_below _ _ 11 10 11); try done; try (unfold SpecFloat.emin, emax, prec; lia).
  apply (SFmul_below _ _ 0 10); try done; try apply Prim2SF_valid.
  by apply unit_draw_below.
Qed.

Lemma unit_coordinates_finite r :
  unit_draw r →
  is_finite (r * (canvasWidth - 40) + 20) = true ∧
  is_finite (r * (canvasHeight - 40) + 20) = true.
Proof.
  intros Hr. split; apply unit_affine_finite; try done; by vm_compute.
Qed.

Lemma nonneg_reciprocal a : nonneg a → nonneg (1 / a).
Proof. unfold nonneg. rewrite div_spec. apply (SFdiv_weak 4503599627370496 (-52)). Qed.

Lemma sub_self a : is_finite a = true → a - a = 0.
Proof.
  rewrite is_finite_spec. intros H. apply Prim2SF_inj.
  rewrite FloatAxioms.sub_spec. by apply SFsub_self.
Qed.

Lemma Math_floor_unit_product r n :
  unit_draw r → (1 ≤ n)%nat → (Z.of_nat n < 2 ^ 53)%Z →
  (Math_floor (r * of_nat n) < n)%nat.
Proof.
  intros [H0 H1] Hn Hlt.
  rewrite FloatAxioms.leb_spec in H0. rewrite FloatAxioms.ltb_spec in H1.
  destruct (of_nat_spec n Hn Hlt) as (mn & en & En & Hen & Hval & Hmn).
  unfold Math_floor. rewrite mul_spec, En. unfold SF64mul.
  pose proof (SF_floor_unit_product (Prim2SF r) mn en n (Prim2SF_valid r) H0 H1
                Hn Hen Hval Hmn) as H.
  destruct (SFmul prec emax (Prim2SF r) (S754_finite false mn en)) as [| | |s m e];
    try lia.
  destruct s; [lia|exact H].
Qed.

(** ** Well-formed states *)

Lemma unit_draws_coordinates g : unit_draws g → coordinate_draws_ok g.
Proof. intros H k. apply unit_coordinates_finite, H. Qed.

Lemma generateCities_from_draws count : ∀ i g cities g',
  generateCities_from i count g = Some (cities, g') →
  ∀ k, g' k = g (2 * count + k)%nat.
Proof.
  induction count as [|count IH]; intros i g cities g'; simpl.
  - by intros [= <- <-].
  - rewrite !bind_run. simpl. rewrite bind_run.
    change (Math_random (RNG_next g)) with (Some (RNG_next g O, RNG_next (RNG_next g))).
    cbv beta iota. rewrite bind_run.
    destruct (generateCities_from (S i) count (RNG_next (RNG_next g)))
      as [[rest g1]|] eqn:E; [|done].
    intros [= <- <-] k. rewrite (IH _ _ _ _ E). unfold RNG_next. f_equal. lia.
Qed.

Lemma tour_of_finite cities ind :
  Forall finite_city cities → tour_of cities ind →
  nonneg (Individual.length ind) ∧ nonneg (Individual.fitness ind).
Proof.
  intros Hfin [Hp ->]. simpl.
  assert (nonneg (calculatePathLength (Individual.path ind))).
  { apply nonneg_calculatePathLength. by rewrite Hp. }
  split; [done|]. unfold calculateFitness. simpl. by apply nonneg_reciprocal.
Qed.

Lemma gaIteration_spec config st g :
  well_formed st →
  ∃ st' g',
    gaIteration config st g = Some (st', g') ∧
    well_formed st' ∧
    cities st' = cities st ∧
    ((1000 ≤ currentGen st)%nat →
       currentGen st' = currentGen st ∧ population st' = population st) ∧
    ((currentGen st < 1000)%nat →
       currentGen st' = S (currentGen st) ∧
       isRunning st' = isRunning st ∧
       length (population st') = (1 `max` GAConfig.populationSize config)%nat).
Proof.
  intros (Hnd & Hfin & Hne & Hpop & Hbest & Hle).
  unfold gaIteration.
  destruct (Nat.leb_spec 1000 (currentGen st)) as [Hc|Hc].
  { eexists _, g. split; [reflexivity|]. simpl. split; [done|]. split; [done|].
    split; [done|]. lia. }
  destruct (elite_by_fitness (population st)) as (elite & -> & Hin & _); [|done|].
  { eapply Forall_impl; [exact Hpop|]. intros ind Hind.
    by apply nonneg_not_nan, (tour_of_finite (cities st)). }
  rewrite bind_run.
  destruct (refill_spec config (cities st) (population st)
              (GAConfig.populationSize config - 1) [elite] g Hne Hnd)
    as (children & g1 & -> & Hcount & Hall).
  { eapply Forall_impl; [exact Hpop|]. by intros ind [? _]. }
  assert (Hnew : Forall (tour_of (cities st)) ([elite] ++ children)).
  { apply Forall_app. split.
    - constructor; [|done]. rewrite Forall_forall in Hpop. by apply Hpop.
    - eapply Forall_impl; [exact Hall|]. by intros child (_ & ? & ?). }
  destruct (best_by_length ([elite] ++ children)) as (currentBest & -> & Hcb & Hmin); [|done|].
  { eapply Forall_impl; [exact Hnew|]. intros ind Hind.
    by apply nonneg_not_nan, (tour_of_finite (cities st)). }
  eexists _, g1. split; [reflexivity|]. simpl.
  split; [|split; [done|split; [lia|]]].
  - split; [done|]. split; [done|]. split; [done|]. split; [done|].
    assert (Hcbt : tour_of (cities st) currentBest).
    { rewrite Forall_forall in Hnew. by apply Hnew. }
    destruct (Individual.length currentBest <? _) eqn:El.
    + split; [done|]. exact Hmin.
    + split; [done|]. intros ind Hind. eapply leb_trans; [|by apply Hmin].
      apply ltb_false_leb; [| |done].
      * by apply nonneg_not_nan, (tour_of_finite (cities st)).
      * by apply nonneg_not_nan, (tour_of_finite (cities st)).
  - intros _. split; [done|]. split; [done|]. rewrite Hcount. lia.
Qed.

Lemma reset_spec config g :
  (1 ≤ GAConfig.populationSize config)%nat → unit_draws g →
  ∃ st g',
    reset config g = Some (st, g') ∧
    well_formed st ∧
    currentGen st = O ∧ isRunning st = false ∧
    length (cities st) = GAConfig.cityCount config ∧
    length (population st) = GAConfig.populationSize config.
Proof.
  intros Hsize Hg. unfold reset, generateCities. rewrite bind_run.
  destruct (generateCities_from_spec (GAConfig.cityCount config) O g)
    as (newCities & g1 & -> & Hids & Hfin); [by apply unit_draws_coordinates|].
  rewrite bind_run.
  destruct (initPopulation_spec newCities (GAConfig.populationSize config) g1)
    as (newPopulation & g2 & -> & Hlen & Hall).
  assert (Hne : newPopulation ≠ []).
  { intros E. rewrite E in Hlen. simpl in Hlen. lia. }
  destruct (best_by_length newPopulation) as (initBest & -> & Hin & Hmin); [|done|].
  { eapply Forall_impl; [exact Hall|]. intros ind Hind.
    by apply nonneg_not_nan, (tour_of_finite newCities). }
  assert (Hnd : NoDup (City.id <$> newCities)) by (rewrite Hids; apply NoDup_seq).
  eexists _, g2. split; [reflexivity|]. simpl.
  split; [|split; [done|split; [done|split; [|done]]]].
  - split; [done|]. split; [done|]. split; [done|].
    split; [done|]. split; [|done]. rewrite Forall_forall in Hall. by apply Hall.
  - rewrite <- (length_fmap City.id), Hids. apply length_seq.
Qed.

Lemma unit_draws_half : unit_draws half.
Proof. intros k. by split. Qed.

Lemma unit_draws_cycle3 : unit_draws cycle3.
Proof.
  intros k. unfold cycle3. destruct (k `mod` 3)%nat as [|[|?]]; by split.
Qed.

Lemma example_state_well_formed : well_formed example_state.
Proof.
  split; [exact triangle_ids|]. split; [repeat constructor|]. split; [done|].
  split; [|split].
  - repeat constructor. apply (rotate_perm 1 triangle).
  - by split.
  - intros ind Hind. simpl in Hind.
    apply elem_of_cons in Hind as [->|Hind]; [by vm_compute|].
    apply list_elem_of_singleton in Hind as ->. by vm_compute.
Qed.

(** X1.  When every draw of [Math.random()] is a number in [[0,1)],
    [generateCities(count)] returns exactly [count] cities; city [i] has the
    identifier [i], so the identifiers are distinct; its coordinates are
    finite numbers; and exactly [2 * count] draws are consumed. *)
Theorem generateCities_unit_draws (count : nat) (g : RNG) :
  unit_draws g →
  ∃ cities g',
    generateCities count g = Some (cities, g') ∧
    length cities = count ∧
    City.id <$> cities = seq 0 count ∧
    NoDup (City.id <$> cities) ∧
    Forall finite_city cities ∧
    ∀ k, g' k = g (2 * count + k)%nat.
Proof.
  intros Hg. unfold generateCities.
  destruct (generateCities_from_spec count O g)
    as (cities & g' & H & Hids & Hfin); [by apply unit_draws_coordinates|].
  exists cities, g'. split; [done|].
  split; [by rewrite <- (length_fmap City.id), Hids, length_seq|].
  split; [done|]. split; [rewrite Hids; apply NoDup_seq|]. split; [done|].
  by eapply generateCities_from_draws.
Qed.

Lemma generateCities_unit_draws_witness :
  ∃ cities g',
    generateCities 3 cycle3 = Some (cities, g') ∧
    length cities = 3%nat ∧
    City.id <$> cities = seq 0 3 ∧
    NoDup (City.id <$> cities) ∧
    Forall finite_city cities ∧
    ∀ k, g' k = cycle3 (2 * 3 + k)%nat.
Proof. apply generateCities_unit_draws. exact unit_draws_cycle3. Defined.

(** X2.  For draws whose indices lie within the tours, a generation step
    never fails on a well-formed state (distinct
    identifiers, finite coordinates, a non-empty population of tours of the
    cities with their computed length and fitness, a best-ever record that
    is such a tour and is at most as long as every individual), and the
    state it leaves is well-formed again, with the same cities.  Below the
    ceiling the counter grows by one, [isRunning] is unchanged and the new
    population has [max(1, populationSize)] individuals, whatever the size
    of the previous one. *)
Theorem generation_step_well_formed (config : GAConfig.t) (st : RunState) (g : RNG) :
  well_formed st →
  index_draws_ok (length (cities st)) g →
  ∃ st' g',
    gaIteration config st g = Some (st', g') ∧
    well_formed st' ∧
    cities st' = cities st ∧
    ((currentGen st < 1000)%nat →
       currentGen st' = S (currentGen st) ∧
       isRunning st' = isRunning st ∧
       length (population st') = (1 `max` GAConfig.populationSize config)%nat).
Proof.
  intros Hwf _.
  destruct (gaIteration_spec config st g Hwf) as (st' & g' & H & Hwf' & Hc & _ & Hstep).
  by exists st', g'.
Qed.

Lemma generation_step_well_formed_witness :
  ∃ st' g',
    gaIteration example_config example_state half = Some (st', g') ∧
    well_formed st' ∧
    cities st' = cities example_state ∧
    ((currentGen example_state < 1000)%nat →
       currentGen st' = S (currentGen example_state) ∧
       isRunning st' = isRunning example_state ∧
       length (population st')
       = (1 `max` GAConfig.populationSize example_config)%nat).
Proof.
  apply generation_step_well_formed.
  - exact example_state_well_formed.
  - exact index_draws_half.
Defined.

Lemma unit_draws_index n g :
  unit_draws g → (1 ≤ n)%nat → (Z.of_nat n < 2 ^ 53)%Z → index_draws_ok n g.
Proof. intros Hg Hn Hlt k. by apply Math_floor_unit_product. Qed.

Lemma index_draws_cycle3 : index_draws_ok 3 cycle3.
Proof. apply unit_draws_index; [exact unit_draws_cycle3|lia|done]. Qed.

(** ** Order crossover in closed form *)

Lemma filter_all {A} (P : A → Prop) `{∀ x, Decision (P x)} (l : list A) :
  Forall P l → filter P l = l.
Proof.
  induction 1 as [|x l Hx _ IH]; [done|]. by rewrite filter_cons_True, IH.
Qed.

Lemma filter_none {A} (P : A → Prop) `{∀ x, Decision (P x)} (l : list A) :
  Forall (λ x, ¬ P x) l → filter P l = [].
Proof.
  induction 1 as [|x l Hx _ IH]; [done|]. by rewrite filter_cons_False.
Qed.

Lemma filter_ext_in {A} (P Q : A → Prop) `{∀ x, Decision (P x)} `{∀ x, Decision (Q x)}
    (l : list A) :
  (∀ x, x ∈ l → (P x ↔ Q x)) → filter P l = filter Q l.
Proof.
  induction l as [|x l IH]; intros Hl; [done|].
  rewrite !filter_cons, IH by (intros y Hy; apply Hl; by right).
  destruct (decide (P x)) as [Hp|Hp], (decide (Q x)) as [Hq|Hq]; try done;
    exfalso; apply (Hl x ltac:(by left)) in Hp || apply (Hl x ltac:(by left)) in Hq; done.
Qed.

Lemma filled_some l : filled (Some <$> l) = l.
Proof. unfold filled. induction l as [|c l IH]; cbn; [done|]. by rewrite IH. Qed.

Lemma filled_app a b : filled (a ++ b) = filled a ++ filled b.
Proof. unfold filled. induction a as [|[c|] a IH]; cbn; [done| |done]. by rewrite IH. Qed.

Lemma filled_replicate n : filled (replicate n None) = [].
Proof. unfold filled. induction n; cbn; done. Qed.

Lemma unplaced_without ids child rest2 :
  (∀ c, c ∈ rest2 → (placed child c = true ↔ City.id c ∈ ids)) →
  unplaced child rest2 = without ids rest2.
Proof.
  intros H. apply filter_ext_in. intros c Hc. specialize (H c Hc).
  destruct (placed child c); split; try done.
  - intros Hn. exfalso. apply Hn. by apply H.
  - intros _ Hin. by apply H in Hin.
Qed.

Lemma fill_from_plug ids suf : ∀ pre rest2,
  NoDup (City.id <$> rest2) →
  (∀ c, c ∈ rest2 → (placed ((Some <$> pre) ++ suf) c = true ↔ City.id c ∈ ids)) →
  (length suf ≤ length (filled suf) + length (without ids rest2))%nat →
  fill_from (seq (length pre) (length suf)) ((Some <$> pre) ++ suf) rest2
  = Some (Some <$> (pre ++ plug suf (without ids rest2))).
Proof.
  induction suf as [|[c|] suf IH]; intros pre rest2 Hnd Hpl Hcount.
  - simpl. by rewrite !app_nil_r.
  - simpl seq. simpl fill_from.
    rewrite lookup_app_r by (by rewrite length_fmap).
    rewrite length_fmap, Nat.sub_diag. simpl.
    replace (S (length pre)) with (length (pre ++ [c])) by (rewrite length_app; simpl; lia).
    replace ((Some <$> pre) ++ Some c :: suf) with ((Some <$> (pre ++ [c])) ++ suf)
      by (by rewrite fmap_app, <- app_assoc).
    rewrite IH.
    + by rewrite <- app_assoc.
    + done.
    + intros d Hd. rewrite fmap_app, <- app_assoc. by apply Hpl.
    + unfold filled in *. cbn in Hcount. simpl in Hcount. lia.
  - simpl seq. simpl fill_from.
    assert (Hi : ((Some <$> pre) ++ None :: suf) !! length pre = Some None).
    { rewrite lookup_app_r by (by rewrite length_fmap).
      by rewrite length_fmap, Nat.sub_diag. }
    rewrite Hi.
    pose proof (next_unplaced_spec ((Some <$> pre) ++ None :: suf) rest2) as Hn.
    rewrite (unplaced_without ids) in Hn by done.
    destruct (next_unplaced _ rest2) as [[o rest2']|].
    + destruct Hn as (Ho & Hu & skipped & ->).
      rewrite fmap_app, fmap_cons in Hnd.
      apply NoDup_app in Hnd as (_ & _ & Hnd). apply NoDup_cons in Hnd as [Hfresh Hnd].
      assert (Hpl' : ∀ c, c ∈ rest2' →
                (placed ((Some <$> pre) ++ None :: suf) c = true ↔ City.id c ∈ ids)).
      { intros c Hc. apply Hpl. rewrite elem_of_app. right. by right. }
      rewrite (unplaced_without ids) in Hu by done.
      replace (<[length pre:=Some o]> ((Some <$> pre) ++ None :: suf))
        with ((Some <$> (pre ++ [o])) ++ suf).
      2:{ rewrite insert_app_r_alt by (by rewrite length_fmap).
          rewrite length_fmap, Nat.sub_diag. simpl. by rewrite fmap_app, <- app_assoc. }
      replace (S (length pre)) with (length (pre ++ [o])) by (rewrite length_app; simpl; lia).
      rewrite IH.
      * rewrite Hu. simpl. by rewrite <- app_assoc.
      * done.
      * intros c Hc. rewrite <- (Hpl' c Hc).
        replace ((Some <$> (pre ++ [o])) ++ suf)
          with (<[length pre:=Some o]> ((Some <$> pre) ++ None :: suf)).
        2:{ rewrite insert_app_r_alt by (by rewrite length_fmap).
            rewrite length_fmap, Nat.sub_diag. simpl. by rewrite fmap_app, <- app_assoc. }
        rewrite placed_insert by done.
        assert (City.id o ≠ City.id c).
        { intros E. apply Hfresh. rewrite E. by apply list_elem_of_fmap_2. }
        apply Nat.eqb_neq in H. rewrite H. done.
      * rewrite Hu in Hcount. unfold filled in *. cbn in Hcount. simpl in Hcount. lia.
    + rewrite Hn in Hcount. pose proof (filled_length_le suf).
      unfold filled in *. cbn in Hcount. simpl in Hcount. lia.
Qed.

Lemma plug_replicate r : ∀ others,
  length others = r → plug (replicate r None) others = others.
Proof.
  induction r as [|r IH]; intros [|o others] Hl; simpl in *; try done.
  rewrite IH; [done|lia].
Qed.

Lemma plug_some seg suf others :
  plug ((Some <$> seg) ++ suf) others = seg ++ plug suf others.
Proof.
  induction seg as [|c seg IH]; [done|].
  rewrite fmap_cons. simpl. by rewrite IH.
Qed.

Lemma plug_segment a seg r : ∀ others,
  length others = (a + r)%nat →
  plug (replicate a None ++ (Some <$> seg) ++ replicate r None) others
  = take a others ++ seg ++ drop a others.
Proof.
  induction a as [|a IH]; intros others Hl; simpl.
  - rewrite drop_0, plug_some. by rewrite plug_replicate.
  - destruct others as [|o others]; [done|]. simpl in *. rewrite IH; [done|lia].
Qed.

Lemma copy_segment_take (path1 : list City.t) min k :
  (min + k ≤ length path1)%nat →
  foldl (λ child i, match path1 !! i with
                    | Some c => <[i := Some c]> child
                    | None => child
                    end)
        (replicate (length path1) None) (seq min k)
  = replicate min (@None City.t) ++ (Some <$> take k (drop min path1))
    ++ replicate (length path1 - min - k) None.
Proof.
  induction k as [|k IH]; intros Hk.
  - simpl seq. simpl foldl. rewrite take_0, fmap_nil, app_nil_l, <- replicate_add.
    f_equal. lia.
  - rewrite seq_S, foldl_app, IH by lia. simpl.
    destruct (lookup_lt_is_Some_2 path1 (min + k)%nat ltac:(lia)) as [c Hc].
    rewrite Hc.
    rewrite insert_app_r_alt by (rewrite length_replicate; lia).
    rewrite length_replicate.
    assert (Hlt : length (take k (drop min path1)) = k).
    { rewrite length_take, length_drop. lia. }
    rewrite insert_app_r_alt by (rewrite length_fmap; lia).
    rewrite length_fmap, Hlt.
    replace (min + k - min - k)%nat with O by lia.
    replace (length path1 - min - k)%nat with (S (length path1 - min - S k)) by lia.
    simpl. f_equal.
    rewrite (take_S_r _ _ c) by (by rewrite lookup_drop).
    by rewrite fmap_app, <- app_assoc.
Qed.

Lemma copy_segment_closed path1 min max :
  (min ≤ max < length path1)%nat →
  copy_segment path1 min max (replicate (length path1) None)
  = replicate min None ++ (Some <$> segment path1 min max)
    ++ replicate (length path1 - S max) None.
Proof.
  intros H. unfold copy_segment, segment. rewrite copy_segment_take by lia.
  do 3 f_equal. lia.
Qed.

Lemma without_split ids a seg b :
  ids = City.id <$> seg → NoDup (City.id <$> (a ++ seg ++ b)) →
  without ids (a ++ seg ++ b) = a ++ b.
Proof.
  intros -> Hnd. unfold without. rewrite !filter_app.
  rewrite !fmap_app in Hnd.
  apply NoDup_app in Hnd as (_ & Ha & Hnd). apply NoDup_app in Hnd as (_ & Hs & _).
  rewrite filter_all, filter_none, filter_all; [done| | |].
  - apply Forall_forall. intros c Hc Hin. eapply Hs; [exact Hin|by apply list_elem_of_fmap_2].
  - apply Forall_forall. intros c Hc Hn. apply Hn. by apply list_elem_of_fmap_2.
  - apply Forall_forall. intros c Hc Hin. eapply Ha; [by apply list_elem_of_fmap_2|].
    rewrite elem_of_app. by left.
Qed.

Lemma path_split (path1 : list City.t) min max :
  path1 = take min path1 ++ segment path1 min max ++ drop (S max - min) (drop min path1).
Proof. unfold segment. by rewrite take_drop, take_drop. Qed.

Lemma without_segment path1 min max :
  NoDup (City.id <$> path1) →
  without (City.id <$> segment path1 min max) path1
  = take min path1 ++ drop (S max - min) (drop min path1).
Proof.
  intros Hnd. rewrite (path_split path1 min max) at 2.
  apply without_split; [done|]. by rewrite <- path_split.
Qed.

Lemma without_length path1 path2 min max :
  NoDup (City.id <$> path1) → path1 ≡ₚ path2 → (min ≤ max < length path1)%nat →
  length (without (City.id <$> segment path1 min max) path2)
  = (min + (length path1 - S max))%nat.
Proof.
  intros Hnd Hp H. unfold without. rewrite <- Hp.
  fold (without (City.id <$> segment path1 min max) path1).
  rewrite without_segment by done.
  rewrite length_app, length_take, !length_drop. lia.
Qed.

Lemma crossover_fill_closed path1 path2 min max :
  NoDup (City.id <$> path1) → path1 ≡ₚ path2 → (min ≤ max < length path1)%nat →
  fill_from (seq 0 (length path1))
    (copy_segment path1 min max (replicate (length path1) None)) path2
  = Some (Some <$> order_crossover path1 path2 min max).
Proof.
  intros Hnd Hp H. rewrite copy_segment_closed by done.
  set (child0 := replicate min None ++ _).
  assert (Hl0 : length child0 = length path1).
  { unfold child0, segment. rewrite !length_app, !length_replicate, length_fmap,
      length_take, length_drop. lia. }
  assert (Hf0 : filled child0 = segment path1 min max).
  { unfold child0. by rewrite !filled_app, !filled_replicate, filled_some, app_nil_r. }
  rewrite <- Hl0.
  pose proof (fill_from_plug (City.id <$> segment path1 min max) child0 [] path2) as Hf.
  simpl in Hf. rewrite Hf.
  - unfold child0. rewrite plug_segment; [done|]. by apply without_length.
  - by rewrite <- Hp.
  - intros c _. by rewrite placed_spec, Hf0.
  - rewrite Hf0, Hl0, (without_length path1 path2 min max) by done.
    unfold segment. rewrite length_take, length_drop. lia.
Qed.

Lemma omap_some {A} (l : list A) : omap (λ c, c) (Some <$> l) = l.
Proof. induction l as [|c l IH]; cbn; [done|]. by rewrite IH. Qed.

Lemma crossover_closed config parent1 parent2 g :
  NoDup (City.id <$> Individual.path parent1) →
  Individual.path parent1 ≡ₚ Individual.path parent2 →
  (GAConfig.crossoverRate config <? g O) = false →
  index_draws_ok (length (Individual.path parent1)) g →
  crossover config parent1 parent2 g
  = Some (order_crossover (Individual.path parent1) (Individual.path parent2)
            (Math_floor (g 1%nat * of_nat (length (Individual.path parent1)))
               `min` Math_floor (g 2%nat * of_nat (length (Individual.path parent1))))
            (Math_floor (g 1%nat * of_nat (length (Individual.path parent1)))
               `max` Math_floor (g 2%nat * of_nat (length (Individual.path parent1)))),
          RNG_next (RNG_next (RNG_next g))).
Proof.
  intros Hnd Hp Hrate Hg. unfold crossover. rewrite bind_run. simpl. rewrite Hrate.
  rewrite bind_run, random_index_run, bind_run, random_index_run.
  change (RNG_next g O) with (g 1%nat).
  change (RNG_next (RNG_next g) O) with (g 2%nat).
  pose proof (Hg 1%nat) as H1. pose proof (Hg 2%nat) as H2.
  set (start := Math_floor (g 1%nat * _)) in *.
  set (end_ := Math_floor (g 2%nat * _)) in *.
  destruct (Nat.ltb_spec start end_) as [Hlt|Hge].
  - rewrite crossover_fill_closed by (done || lia).
    rewrite omap_some, Nat.min_l, Nat.max_r by lia. done.
  - rewrite crossover_fill_closed by (done || lia).
    rewrite omap_some, Nat.min_r, Nat.max_l by lia. done.
Qed.

Lemma order_crossover_length path1 path2 min max :
  NoDup (City.id <$> path1) → path1 ≡ₚ path2 → (min ≤ max < length path1)%nat →
  length (order_crossover path1 path2 min max) = length path1.
Proof.
  intros Hnd Hp H. pose proof (without_length path1 path2 min max Hnd Hp H) as Hl.
  unfold order_crossover. rewrite !length_app, length_take, length_drop, Hl.
  unfold segment. rewrite length_take, length_drop. lia.
Qed.

Lemma order_crossover_segment path1 path2 min max i :
  NoDup (City.id <$> path1) → path1 ≡ₚ path2 → (min ≤ max < length path1)%nat →
  (min ≤ i ≤ max)%nat →
  order_crossover path1 path2 min max !! i = path1 !! i.
Proof.
  intros Hnd Hp H Hi. pose proof (without_length path1 path2 min max Hnd Hp H) as Hl.
  unfold order_crossover.
  rewrite lookup_app_r by (rewrite length_take; lia).
  rewrite length_take, Hl. replace (min `min` (min + (length path1 - S max)))%nat with min by lia.
  assert (Hs : length (segment path1 min max) = (S max - min)%nat).
  { unfold segment. rewrite length_take, length_drop. lia. }
  rewrite lookup_app_l by lia.
  unfold segment. rewrite lookup_take_lt by lia. rewrite lookup_drop. f_equal. lia.
Qed.


Lemma without_all ids path l :
  (∀ c, c ∈ l → c ∈ without ids path) → without ids l = l.
Proof.
  intros H. apply filter_all, Forall_forall. intros c Hc.
  specialize (H c Hc). by apply list_elem_of_filter in H as [? _].
Qed.

Lemma order_crossover_without path1 path2 min max :
  without (City.id <$> segment path1 min max) (order_crossover path1 path2 min max)
  = without (City.id <$> segment path1 min max) path2.
Proof.
  unfold order_crossover.
  set (ids := City.id <$> segment path1 min max).
  set (others := without ids path2).
  trans (take min others ++ [] ++ drop min others); [|simpl; by rewrite take_drop].
  unfold without at 1. rewrite !filter_app. f_equal; [|f_equal].
  - apply (without_all ids path2). intros c Hc.
    fold others. rewrite <- (take_drop min others), elem_of_app. by left.
  - apply filter_none, Forall_forall. intros c Hc Hn. apply Hn.
    by apply list_elem_of_fmap_2.
  - apply (without_all ids path2). intros c Hc.
    fold others. rewrite <- (take_drop min others), elem_of_app. by right.
Qed.

Lemma order_crossover_self path min max :
  NoDup (City.id <$> path) → (min ≤ max < length path)%nat →
  order_crossover path path min max = path.
Proof.
  intros Hnd H. unfold order_crossover. rewrite without_segment by done.
  rewrite take_app_length' by (rewrite length_take; lia).
  rewrite drop_app_length' by (rewrite length_take; lia).
  by rewrite <- path_split.
Qed.

(** X4.  Order crossover in closed form.  When recombination takes place
    (the first draw is not above [crossoverRate]) on parents that are
    tours of the same cities, three draws are consumed and the child is
    the segment [parent1.path[min..max]] at its own positions, surrounded by
    the other cities in the order in which [parent2.path] lists them: the
    first [min] of them before the segment, the rest after it.  Here [min]
    and [max] are the smaller and the larger of the two indices drawn. *)
Theorem crossover_order (config : GAConfig.t) (parent1 parent2 : Individual.t)
    (g : RNG) :
  let path1 := Individual.path parent1 in
  let path2 := Individual.path parent2 in
  let start := Math_floor (g 1%nat * of_nat (length path1)) in
  let end_ := Math_floor (g 2%nat * of_nat (length path1)) in
  let min := (start `min` end_)%nat in
  let max := (start `max` end_)%nat in
  let ids := City.id <$> segment path1 min max in
  NoDup (City.id <$> path1) →
  path1 ≡ₚ path2 →
  (GAConfig.crossoverRate config <? g O) = false →
  index_draws_ok (length path1) g →
  ∃ child,
    crossover config parent1 parent2 g
      = Some (child, RNG_next (RNG_next (RNG_next g))) ∧
    child = order_crossover path1 path2 min max ∧
    length child = length path1 ∧
    (∀ i, (min ≤ i ≤ max)%nat → child !! i = path1 !! i) ∧
    without ids child = without ids path2.
Proof.
  intros path1 path2 start end_ min max ids Hnd Hp Hrate Hg.
  assert (H : (min ≤ max < length path1)%nat).
  { pose proof (Hg 1%nat). pose proof (Hg 2%nat). unfold min, max, start, end_. lia. }
  eexists. split; [by apply crossover_closed|]. split; [done|].
  split; [by apply order_crossover_length|].
  split; [intros i Hi; by apply order_crossover_segment|].
  apply order_crossover_without.
Qed.

Lemma crossover_order_witness :
  ∃ child,
    crossover example_config (mkIndividual triangle) (mkIndividual (reverse triangle)) cycle3
      = Some (child, RNG_next (RNG_next (RNG_next cycle3))) ∧
    child = order_crossover triangle (reverse triangle) 1 2 ∧
    length child = 3%nat ∧
    (∀ i, (1 ≤ i ≤ 2)%nat → child !! i = triangle !! i) ∧
    without (City.id <$> segment triangle 1 2) child
    = without (City.id <$> segment triangle 1 2) (reverse triangle).
Proof.
  apply (crossover_order example_config (mkIndividual triangle)
           (mkIndividual (reverse triangle)) cycle3).
  - exact triangle_ids.
  - symmetry. apply reverse_Permutation.
  - by vm_compute.
  - exact index_draws_cycle3.
Defined.

(** X5.  Crossing a tour with itself gives the tour back, whether or not
    recombination takes place. *)
Theorem crossover_same_parents (config : GAConfig.t) (parent1 parent2 : Individual.t)
    (g : RNG) :
  NoDup (City.id <$> Individual.path parent1) →
  Individual.path parent2 = Individual.path parent1 →
  index_draws_ok (length (Individual.path parent1)) g →
  fst <$> crossover config parent1 parent2 g = Some (Individual.path parent1).
Proof.
  intros Hnd Heq Hg.
  destruct (GAConfig.crossoverRate config <? g O) eqn:Hrate.
  - unfold crossover. rewrite bind_run. simpl. by rewrite Hrate.
  - rewrite crossover_closed by (done || by rewrite Heq).
    simpl. rewrite Heq, order_crossover_self; [done|done|].
    pose proof (Hg 1%nat). pose proof (Hg 2%nat). lia.
Qed.

Lemma crossover_same_parents_witness :
  fst <$> crossover example_config (mkIndividual triangle) (mkIndividual triangle) half
  = Some triangle.
Proof.
  apply (crossover_same_parents example_config (mkIndividual triangle)
           (mkIndividual triangle) half).
  - exact triangle_ids.
  - done.
  - exact index_draws_half.
Defined.

(** ** Mutation *)

Lemma swap_lookup (l : list City.t) i j :
  (i < length l)%nat → (j < length l)%nat →
  length (swap l i j) = length l ∧
  swap l i j !! i = l !! j ∧
  swap l i j !! j = l !! i ∧
  ∀ k, k ≠ i → k ≠ j → swap l i j !! k = l !! k.
Proof.
  intros Hi Hj. unfold swap.
  destruct (lookup_lt_is_Some_2 l i Hi) as [ci Hci].
  destruct (lookup_lt_is_Some_2 l j Hj) as [cj Hcj].
  rewrite Hci, Hcj. split; [by rewrite !length_insert|]. split; [|split].
  - destruct (decide (i = j)) as [->|Hne].
    + rewrite list_lookup_insert_eq by (by rewrite length_insert). congruence.
    + rewrite list_lookup_insert_ne by done. by rewrite list_lookup_insert_eq.
  - by rewrite list_lookup_insert_eq by (by rewrite length_insert).
  - intros k Hki Hkj. by rewrite !list_lookup_insert_ne.
Qed.

(** X6.  [mutate] returns a tour of the same length.  When the first draw
    is above [mutationRate] it is the given tour and one draw is consumed;
    otherwise three draws are consumed and the tour differs from the given
    one at most at the two indices [i] and [j] drawn, whose cities are
    exchanged. *)
Theorem mutate_swaps_two (config : GAConfig.t) (path : list City.t) (g : RNG) :
  let i := Math_floor (g 1%nat * of_nat (length path)) in
  let j := Math_floor (g 2%nat * of_nat (length path)) in
  index_draws_ok (length path) g →
  ∃ path' g',
    mutate config path g = Some (path', g') ∧
    length path' = length path ∧
    if GAConfig.mutationRate config <? g O
    then path' = path ∧ g' = RNG_next g
    else g' = RNG_next (RNG_next (RNG_next g)) ∧
         path' !! i = path !! j ∧
         path' !! j = path !! i ∧
         ∀ k, k ≠ i → k ≠ j → path' !! k = path !! k.
Proof.
  intros i j Hg. unfold mutate. rewrite bind_run. simpl.
  destruct (GAConfig.mutationRate config <? g O).
  - by eexists _, _.
  - rewrite bind_run, random_index_run, bind_run, random_index_run.
    change (RNG_next g O) with (g 1%nat).
    change (RNG_next (RNG_next g) O) with (g 2%nat).
    fold i j.
    destruct (swap_lookup path i j (Hg 1%nat) (Hg 2%nat)) as (Hl & H1 & H2 & H3).
    eexists _, _. split; [reflexivity|]. done.
Qed.

Lemma mutate_swaps_two_witness :
  ∃ path' g',
    mutate mutating_config triangle cycle3 = Some (path', g') ∧
    length path' = 3%nat ∧
    g' = RNG_next (RNG_next (RNG_next cycle3)) ∧
    path' !! 2%nat = triangle !! 1%nat ∧
    path' !! 1%nat = triangle !! 2%nat ∧
    ∀ k, k ≠ 2%nat → k ≠ 1%nat → path' !! k = triangle !! k.
Proof.
  apply (mutate_swaps_two mutating_config triangle cycle3).
  exact index_draws_cycle3.
Defined.

(** ** Empty populations *)

Lemma generateCities_from_total count : ∀ i g,
  ∃ cities g', generateCities_from i count g = Some (cities, g').
Proof.
  induction count as [|count IH]; intros i g; simpl.
  - by eexists _, _.
  - rewrite !bind_run. simpl. rewrite bind_run.
    change (Math_random (RNG_next g)) with (Some (RNG_next g O, RNG_next (RNG_next g))).
    cbv beta iota. rewrite bind_run.
    destruct (IH (S i) (RNG_next (RNG_next g))) as (rest & g' & ->).
    by eexists _, _.
Qed.

Lemma reset_without_population config g :
  GAConfig.populationSize config = O → reset config g = None.
Proof.
  intros Hz. unfold reset, generateCities. rewrite bind_run.
  destruct (generateCities_from_total (GAConfig.cityCount config) O g)
    as (newCities & g1 & ->).
  by rewrite Hz.
Qed.

(** X7.  [reset] completes exactly when the configuration asks for at
    least one individual, whatever the draws: with [populationSize = 0] the
    population is empty, [initBest] is [undefined] and reading
    [initBest.path] is a [TypeError]. *)
Theorem reset_succeeds_iff (config : GAConfig.t) (g : RNG) :
  is_Some (reset config g) ↔ (1 ≤ GAConfig.populationSize config)%nat.
Proof.
  split.
  - intros [r Hr]. destruct (GAConfig.populationSize config) eqn:E; [|lia].
    by rewrite reset_without_population in Hr.
  - intros Hsize. unfold reset, generateCities. rewrite bind_run.
    destruct (generateCities_from_total (GAConfig.cityCount config) O g)
      as (newCities & g1 & ->).
    rewrite bind_run.
    destruct (initPopulation_spec newCities (GAConfig.populationSize config) g1)
      as (newPopulation & g2 & -> & Hlen & _).
    destruct (sort_by_head_elem by_length_asc newPopulation) as (initBest & -> & _).
    + intros E. rewrite E in Hlen. simpl in Hlen. lia.
    + by eexists.
Qed.

(** X8.  A generation step on tours of the cities completes exactly when
    the generation ceiling is reached or the population is not empty: on
    an empty population below the ceiling, [elite] is [undefined] and the
    step ends in a [TypeError]. *)
Theorem gaIteration_succeeds_iff (config : GAConfig.t) (st : RunState) (g : RNG) :
  NoDup (City.id <$> cities st) →
  Forall (λ ind, Individual.path ind ≡ₚ cities st) (population st) →
  index_draws_ok (length (cities st)) g →
  is_Some (gaIteration config st g) ↔
  (1000 ≤ currentGen st)%nat ∨ population st ≠ [].
Proof.
  intros Hnd Hvalid _. unfold gaIteration.
  destruct (Nat.leb_spec 1000 (currentGen st)) as [Hc|Hc].
  { split; [by left|by eexists]. }
  destruct (population st) as [|ind rest] eqn:Ep.
  { split; [by intros [r Hr]|intros [?|?]; [lia|done]]. }
  split; [by right|intros _].
  destruct (sort_by_head_elem by_fitness_desc (ind :: rest) ltac:(done))
    as (elite & -> & _).
  rewrite bind_run.
  destruct (refill_spec config (cities st) (ind :: rest)
              (GAConfig.populationSize config - 1) [elite] g ltac:(done) Hnd Hvalid)
    as (children & g1 & -> & _).
  destruct (sort_by_head_elem by_length_asc ([elite] ++ children) ltac:(done))
    as (currentBest & -> & _).
  by eexists.
Qed.

Lemma gaIteration_succeeds_iff_witness :
  is_Some (gaIteration example_config example_state half) ↔
  (1000 ≤ currentGen example_state)%nat ∨ population example_state ≠ [].
Proof.
  apply gaIteration_succeeds_iff.
  - exact triangle_ids.
  - exact example_state_valid.
  - exact index_draws_half.
Defined.

(** ** The fallback of [select] *)

Lemma select_walk_exhausted randomNum population : ∀ cumulativeFitness,
  population ≠ [] →
  select_walk randomNum cumulativeFitness population = None →
  (randomNum <=? foldl (λ sum ind, sum + Individual.fitness ind)
                   cumulativeFitness population) = false.
Proof.
  induction population as [|ind rest IH]; intros c Hne; [done|]. simpl.
  destruct (randomNum <=? c + Individual.fitness ind) eqn:E; [done|].
  destruct rest as [|ind' rest]; [done|]. intros H. by apply IH.
Qed.

Lemma select_walk_reached randomNum population : ∀ cumulativeFitness,
  population ≠ [] →
  (randomNum <=? foldl (λ sum ind, sum + Individual.fitness ind)
                   cumulativeFitness population) = true →
  is_Some (select_walk randomNum cumulativeFitness population).
Proof.
  intros c Hne H.
  destruct (select_walk randomNum c population) eqn:E; [done|].
  apply select_walk_exhausted in E; [|done]. congruence.
Qed.

(** X9.  The fallback [return population[0]] of [select].  The running
    sum of the walk ends at [totalFitness], so the walk of a non-empty
    population is exhausted only if the drawn number
    [Math.random() * totalFitness] is not less than or equal to
    [totalFitness] (it is larger, or one of the two is [NaN]); whenever
    the drawn number is at most [totalFitness], the walk itself returns an
    individual. *)
Theorem select_fallback (population : list Individual.t) (g : RNG) :
  let randomNum := g O * totalFitness population in
  population ≠ [] →
  (select_walk randomNum 0 population = None →
     (randomNum <=? totalFitness population) = false ∧
     select population g = Some (population !! O, RNG_next g)) ∧
  ((randomNum <=? totalFitness population) = true →
     ∃ ind, select_walk randomNum 0 population = Some ind ∧
            select population g = Some (Some ind, RNG_next g)).
Proof.
  intros randomNum Hne. split.
  - intros H. split; [by apply select_walk_exhausted|].
    unfold select. rewrite bind_run. simpl. fold (totalFitness population).
    fold randomNum. by rewrite H.
  - intros H. destruct (select_walk_reached randomNum population 0 Hne H) as [ind Hind].
    exists ind. split; [done|].
    unfold select. rewrite bind_run. simpl. fold (totalFitness population).
    fold randomNum. by rewrite Hind.
Qed.

Lemma select_fallback_witness :
  (select_walk (half O * totalFitness (population example_state)) 0
     (population example_state) = None →
   (half O * totalFitness (population example_state)
      <=? totalFitness (population example_state)) = false ∧
   select (population example_state) half
   = Some (population example_state !! O, RNG_next half)) ∧
  ((half O * totalFitness (population example_state)
      <=? totalFitness (population example_state)) = true →
   ∃ ind, select_walk (half O * totalFitness (population example_state)) 0
            (population example_state) = Some ind ∧
          select (population example_state) half = Some (Some ind, RNG_next half)).
Proof. apply (select_fallback (population example_state) half). done. Defined.

(** ** Cities at the same place *)

Lemma distance_same a b :
  is_finite (City.x a) = true → is_finite (City.y a) = true →
  City.x b = City.x a → City.y b = City.y a → distance a b = 0.
Proof.
  intros Hx Hy Ex Ey. unfold distance, Math_hypot.
  rewrite Ex, Ey, !sub_self by done. reflexivity.
Qed.

Lemma foldl_add_zeros ts : Forall (λ t, t = 0) ts → foldl add 0 ts = 0.
Proof.
  induction 1 as [|t ts -> _ IH]; [done|]. simpl.
  change (0 + 0) with 0. exact IH.
Qed.

(** X10.  A tour whose cities all lie at the same finite point has length
    [0] and fitness [+Infinity]; so has the empty tour and the tour of one
    city. *)
Theorem coincident_cities (path : list City.t) (x0 y0 : float) :
  is_finite x0 = true → is_finite y0 = true →
  Forall (λ c, City.x c = x0 ∧ City.y c = y0) path →
  calculatePathLength path = 0 ∧
  mkIndividual path = Individual.mk path infinity 0.
Proof.
  intros Hx Hy Hall.
  assert (Hlen : calculatePathLength path = 0).
  { rewrite calculatePathLength_edges. apply foldl_add_zeros.
    apply Forall_lookup. intros i t Ht. unfold edge_lengths in Ht.
    apply lookup_zip_with_Some in Ht as (a & b & -> & Ha & Hb).
    rewrite Forall_forall in Hall.
    destruct (Hall a) as [Hax Hay]; [by eapply list_elem_of_lookup_2|].
    destruct (Hall b) as [Hbx Hby].
    { apply (elem_of_rotate path 1). by eapply list_elem_of_lookup_2. }
    apply distance_same; congruence. }
  split; [done|]. unfold mkIndividual, calculateFitness. simpl. by rewrite Hlen.
Qed.

Lemma coincident_cities_witness :
  calculatePathLength lone_city = 0 ∧
  mkIndividual lone_city = Individual.mk lone_city infinity 0.
Proof.
  apply (coincident_cities lone_city 120 80); [done|done|].
  by repeat constructor.
Defined.

(** ** Fitness *)

(** X11.  For cities with finite coordinates the length and the fitness
    that [initPopulation] and [gaIteration] store with a tour are numbers
    greater than or equal to [0]: neither is [NaN] and neither is
    negative (the fitness may be [+Infinity]). *)
Theorem fitness_never_nan (path : list City.t) :
  Forall finite_city path →
  let ind := mkIndividual path in
  is_nan (Individual.length ind) = false ∧
  (0 <=? Individual.length ind) = true ∧
  is_nan (Individual.fitness ind) = false ∧
  (0 <=? Individual.fitness ind) = true.
Proof.
  intros Hfin ind.
  destruct (tour_of_finite path ind Hfin) as [Hl Hf]; [by split|].
  split; [by apply nonneg_not_nan|]. split; [by apply nonneg_leb|].
  split; [by apply nonneg_not_nan|by apply nonneg_leb].
Qed.

Lemma fitness_never_nan_witness :
  is_nan (Individual.length (mkIndividual walk)) = false ∧
  (0 <=? Individual.length (mkIndividual walk)) = true ∧
  is_nan (Individual.fitness (mkIndividual walk)) = false ∧
  (0 <=? Individual.fitness (mkIndividual walk)) = true.
Proof. apply (fitness_never_nan walk). exact walk_finite. Defined.

(** ** Elitism *)

Lemma gaIteration_elite config st g st' g' :
  well_formed st →
  gaIteration config st g = Some (st', g') →
  ∀ ind, ind ∈ population st →
    ∃ ind', ind' ∈ population st' ∧
      (Individual.fitness ind <=? Individual.fitness ind') = true.
Proof.
  intros (Hnd & Hfin & Hne & Hpop & Hbest & Hle).
  assert (Hfit : Forall (λ ind, is_nan (Individual.fitness ind) = false) (population st)).
  { eapply Forall_impl; [exact Hpop|]. intros ind Hind.
    by apply nonneg_not_nan, (tour_of_finite (cities st)). }
  unfold gaIteration.
  destruct (Nat.leb_spec 1000 (currentGen st)) as [Hc|Hc].
  { intros [= <- <-] ind Hind. exists ind. split; [done|].
    rewrite Forall_forall in Hfit. by apply leb_refl, Hfit. }
  destruct (elite_by_fitness (population st) Hfit Hne) as (elite & -> & Hin & Hmax).
  rewrite bind_run.
  destruct (refill_spec config (cities st) (population st)
              (GAConfig.populationSize config - 1) [elite] g Hne Hnd)
    as (children & g2 & -> & _).
  { eapply Forall_impl; [exact Hpop|]. by intros ind [? _]. }
  destruct (head (sort_by by_length_asc ([elite] ++ children))); [|done].
  intros [= <- <-] ind Hind. exists elite. split; [by left|by apply Hmax].
Qed.

Lemma well_formed_best_not_nan st :
  well_formed st → is_nan (Individual.length (bestIndividual st)) = false.
Proof.
  intros (_ & Hfin & _ & _ & Hbest & _).
  by apply nonneg_not_nan, (tour_of_finite (cities st)).
Qed.

(** ** Rounding against representable bounds *)

Section RoundingBounds.
Local Open Scope Z_scope.

Lemma valid_finite_emax s m e :
  valid_binary (S754_finite s m e) = true -> e <= emax - prec.
Proof.
  simpl. unfold bounded. intros [_ H]%andb_prop. by apply Z.leb_le.
Qed.

Lemma shiftr_floor M n : 0 <= M -> 0 <= n -> Z.shiftr M n * 2 ^ n <= M.
Proof.
  intros HM Hn. rewrite Z.shiftr_div_pow2 by lia. rewrite Z.mul_comm.
  apply Z.mul_div_le. by apply pow2_pos.
Qed.

Lemma shiftr_ceil M n : 0 <= M -> 0 <= n -> M < (Z.shiftr M n + 1) * 2 ^ n.
Proof.
  intros HM Hn. rewrite Z.shiftr_div_pow2 by lia.
  pose proof (pow2_pos n Hn) as Hp.
  pose proof (Z.div_mod M (2 ^ n) ltac:(lia)) as Hdm.
  pose proof (Z.mod_pos_bound M (2 ^ n) Hp) as Hb. nia.
Qed.

(** One rounding step: the rounded mantissa is the floor [q] of
    [M / 2 ^ p] or its successor, and the successor only when [M] is not
    a multiple of [2 ^ p]. *)
Lemma round_step M p :
  0 <= M ->
  let mrs := SpecFloat.iter_pos shr_1 p (Build_shr_record M false false) in
  let q := Z.shiftr M (Zpos p) in
  let m1 := round_nearest_even (shr_m mrs) (loc_of_shr_record mrs) in
  q <= m1 <= q + 1 /\ (m1 = q + 1 -> q * 2 ^ Zpos p < M).
Proof.
  intros HM mrs q m1.
  pose proof (iter_shr_1_m p (Build_shr_record M false false) HM) as Em.
  pose proof (iter_shr_1_r p (Build_shr_record M false false) HM) as Er.
  simpl shr_m in Em, Er. fold mrs in Em, Er. fold q in Em.
  subst m1. rewrite Em.
  split; [split; [apply round_nearest_even_ge|apply round_nearest_even_le]|].
  destruct mrs as [m r s]. simpl in Er. destruct r.
  - intros _. symmetry in Er. apply testbit_upper_half in Er; [|lia|lia].
    fold q in Er. pose proof (pow2_pos (Zpos p) ltac:(lia)). lia.
  - destruct s; simpl; lia.
Qed.

Lemma digits_shiftr_lower M D n :
  0 <= n -> n <= D - 53 -> 2 ^ (D - 1) <= M -> 2 ^ 52 <= Z.shiftr M n.
Proof.
  intros Hn HD HM. rewrite Z.shiftr_div_pow2 by lia.
  apply Z.div_le_lower_bound; [by apply pow2_pos|].
  rewrite Z.mul_comm, <- pow2_split by lia.
  eapply Z.le_trans; [|exact HM]. apply pow2_le. lia.
Qed.

(** The first shift of [binary_round_aux] on an exact input that has at
    least the digits of a canonical mantissa. *)
Lemma shr_fexp_first M E :
  0 < M ->
  let e1 := fexp prec emax (Zdigits2 M + E) in
  let q := Z.shiftr M (e1 - E) in
  let r1 := shr_fexp prec emax M E loc_Exact in
  let m1 := round_nearest_even (shr_m r1.1) (loc_of_shr_record r1.1) in
  E <= e1 ->
  r1.2 = e1 /\ q <= m1 <= q + 1 /\ (m1 = q + 1 -> q * 2 ^ (e1 - E) < M) /\
  m1 <= 2 ^ 53 /\ (emin < e1 -> 2 ^ 52 <= m1).
Proof.
  intros HM e1 q r1 m1 He.
  pose proof (Zdigits2_lt M ltac:(lia)) as Hhi.
  assert (Hlo : 2 ^ (Zdigits2 M - 1) <= M).
  { destruct M as [|p|p]; try lia. simpl. apply digits2_pos_bounds. }
  set (D := Zdigits2 M) in *.
  assert (He1 : e1 = Z.max (D + E - 53) (3 - 1024 - 53)) by reflexivity.
  assert (Hq : q <= m1 <= q + 1 /\ (m1 = q + 1 -> q * 2 ^ (e1 - E) < M) /\ r1.2 = e1).
  { subst r1 m1 q. unfold shr_fexp. fold D. fold e1.
    destruct (e1 - E) as [|p|p] eqn:En; try lia.
    - simpl. rewrite Z.shiftr_0_r. lia.
    - simpl shr. simpl fst. simpl snd.
      pose proof (round_step M p ltac:(lia)) as H. cbv zeta in H.
      destruct H as [H1 H2]. split; [exact H1|]. split; [exact H2|]. lia. }
  destruct Hq as (Hq1 & Hq2 & Hr). split; [exact Hr|]. split; [exact Hq1|].
  split; [exact Hq2|].
  pose proof (shiftr_floor M (e1 - E) ltac:(lia) ltac:(lia)) as Hfl. fold q in Hfl.
  pose proof (pow2_pos (e1 - E) ltac:(lia)) as Hp.
  split.
  - assert (q < 2 ^ 53); [|lia].
    assert (2 ^ D <= 2 ^ 53 * 2 ^ (e1 - E)).
    { rewrite <- pow2_split by lia. apply pow2_le. lia. }
    nia.
  - intros Hn. unfold SpecFloat.emin, prec, emax in Hn.
    assert (2 ^ 52 <= q); [|lia].
    apply (digits_shiftr_lower M D); lia.
Qed.

Lemma shr_fexp_carry e1 :
  emin <= e1 ->
  shr_fexp prec emax (2 ^ 53) e1 loc_Exact
  = (Build_shr_record (2 ^ 52) false false, e1 + 1).
Proof.
  intros He. unfold shr_fexp.
  change (Zdigits2 (2 ^ 53)) with 54.
  assert (Hn : fexp prec emax (54 + e1) - e1 = 1).
  { unfold fexp, SpecFloat.emin, emax, prec in *. lia. }
  rewrite Hn. reflexivity.
Qed.

Lemma shr_fexp_stable m1 e1 :
  0 <= m1 < 2 ^ 53 -> emin <= e1 ->
  shr_fexp prec emax m1 e1 loc_Exact = (Build_shr_record m1 false false, e1).
Proof.
  intros Hm He. unfold shr_fexp.
  assert (Hd : Zdigits2 m1 <= 53) by (apply Zdigits2_le; lia).
  assert (Hn : fexp prec emax (Zdigits2 m1 + e1) - e1 <= 0).
  { unfold fexp, SpecFloat.emin, emax, prec in *. lia. }
  destruct (fexp prec emax (Zdigits2 m1 + e1) - e1) as [|p|p]; try lia; reflexivity.
Qed.

(** The second shift: it only renormalises the mantissa [2 ^ 53]. *)
Lemma shr_fexp_second m1 e1 :
  0 <= m1 <= 2 ^ 53 -> emin <= e1 ->
  let r2 := shr_fexp prec emax m1 e1 loc_Exact in
  0 <= shr_m r2.1 < 2 ^ 53 /\ e1 <= r2.2 /\
  shr_m r2.1 * 2 ^ (r2.2 - e1) = m1 /\
  (2 ^ 52 <= m1 -> 2 ^ 52 <= shr_m r2.1) /\
  (r2.2 = e1 \/ shr_m r2.1 = 2 ^ 52).
Proof.
  intros Hm He r2. subst r2.
  destruct (Z_lt_le_dec m1 (2 ^ 53)) as [Hlt|Hge].
  - rewrite shr_fexp_stable by lia. simpl fst. simpl snd. simpl shr_m.
    rewrite Z.sub_diag. change (2 ^ 0) with 1. split; [lia|]. split; [lia|].
    split; [lia|]. split; [done|]. by left.
  - assert (Em : m1 = 2 ^ 53) by lia. subst m1. clear Hm Hge.
    rewrite shr_fexp_carry by done. simpl fst. simpl snd. simpl shr_m.
    replace (e1 + 1 - e1) with 1 by lia.
    split; [done|]. split; [lia|]. split; [reflexivity|]. split; [done|]. by right.
Qed.

(** The result of [binary_round_aux] before the overflow test. *)
Lemma binary_round_aux_raw s M E :
  0 < M ->
  let e1 := fexp prec emax (Zdigits2 M + E) in
  let q := Z.shiftr M (e1 - E) in
  E <= e1 ->
  exists m1 m2 e2,
    binary_round_aux prec emax s M E loc_Exact
    = match m2 with
      | Z0 => S754_zero s
      | Zpos p => if e2 <=? emax - prec then S754_finite s p e2 else S754_infinity s
      | Zneg _ => S754_nan
      end /\
    q <= m1 <= q + 1 /\ (m1 = q + 1 -> q * 2 ^ (e1 - E) < M) /\
    0 <= m2 < 2 ^ 53 /\ e1 <= e2 /\ m2 * 2 ^ (e2 - e1) = m1 /\
    (emin < e2 -> 2 ^ 52 <= m2).
Proof.
  intros HM e1 q He. unfold binary_round_aux.
  pose proof (shr_fexp_first M E HM He) as H. cbv zeta in H.
  fold e1 in H. fold q in H.
  destruct (shr_fexp prec emax M E loc_Exact) as [mrs1 e1'].
  cbn [fst snd] in H. destruct H as (Hr & Hq1 & Hq2 & Hm1 & Hn1).
  subst e1'.
  set (m1 := round_nearest_even (shr_m mrs1) (loc_of_shr_record mrs1)) in *.
  assert (Hq0 : 0 <= q) by (apply Z.shiftr_nonneg; lia).
  assert (Hemin : emin <= e1).
  { subst e1. unfold fexp. lia. }
  pose proof (shr_fexp_second m1 e1 ltac:(lia) Hemin) as (H1 & H2 & H3 & H4 & H5).
  destruct (shr_fexp prec emax m1 e1 loc_Exact) as [mrs2 e2].
  cbn [fst snd] in H1, H2, H3, H4, H5.
  exists m1, (shr_m mrs2), e2.
  split; [reflexivity|]. split; [done|]. split; [done|]. split; [done|].
  split; [done|]. split; [done|].
  intros Hlt. destruct H5 as [-> | ->]; [by apply H4, Hn1|done].
Qed.

Lemma SFleb_finite_pos p e2 mc ec :
  e2 < ec \/ (e2 = ec /\ Zpos p <= Zpos mc) ->
  SFleb (S754_finite false p e2) (S754_finite false mc ec) = true.
Proof.
  intros H. apply SFleb_rank; [done|done|]. simpl. lia.
Qed.

Lemma Zdigits2_lower m k : 0 < k -> 2 ^ (k - 1) <= m -> k <= Zdigits2 m.
Proof.
  intros Hk Hm. assert (0 < 2 ^ (k - 1)) by (apply pow2_pos; lia).
  pose proof (Zdigits2_lt m ltac:(lia)) as Hlt.
  pose proof (Zdigits2_nonneg m) as Hn.
  destruct (Z_lt_le_dec (Zdigits2 m) k) as [Hd|]; [|lia].
  exfalso. assert (2 ^ Zdigits2 m <= 2 ^ (k - 1)) by (apply pow2_le; lia). lia.
Qed.

(** Scaled values: [m * 2 ^ (e - z)] for a base exponent [z <= e]. *)
Lemma scaled_split m e e' z :
  z <= e' -> e' <= e -> m * 2 ^ (e - z) = m * 2 ^ (e - e') * 2 ^ (e' - z).
Proof.
  intros H1 H2. rewrite <- Z.mul_assoc, <- pow2_split by lia. do 2 f_equal. lia.
Qed.

(** Canonical numbers are ordered like their values. *)
Lemma canonical_value_le m2 e2 mc ec z :
  0 < m2 < 2 ^ 53 -> (emin < e2 -> 2 ^ 52 <= m2) ->
  0 < mc < 2 ^ 53 ->
  z <= e2 -> z <= ec ->
  m2 * 2 ^ (e2 - z) <= mc * 2 ^ (ec - z) ->
  emin <= ec ->
  e2 < ec \/ (e2 = ec /\ m2 <= mc).
Proof.
  intros Hm2 Hn2 Hmc Hz2 Hzc Hle Hec.
  destruct (Z.lt_trichotomy e2 ec) as [Hlt|[Heq|Hgt]]; [by left| |].
  - right. split; [done|]. subst e2.
    pose proof (pow2_pos (ec - z) ltac:(lia)). nia.
  - exfalso. specialize (Hn2 ltac:(lia)).
    rewrite (scaled_split m2 e2 ec z) in Hle by lia.
    pose proof (pow2_pos (ec - z) ltac:(lia)) as Hp.
    assert (Hq : 2 ^ 1 <= 2 ^ (e2 - ec)) by (apply pow2_le; lia).
    change (2 ^ 1) with 2 in Hq.
    assert (mc < m2 * 2 ^ (e2 - ec)) by nia.
    nia.
Qed.

(** Rounding is monotone against a representable upper bound. *)
Lemma binary_round_aux_upper M E mc ec z :
  0 < M -> E <= fexp prec emax (Zdigits2 M + E) ->
  valid_binary (S754_finite false mc ec) = true ->
  z <= E -> z <= ec ->
  M * 2 ^ (E - z) <= Zpos mc * 2 ^ (ec - z) ->
  SFleb (binary_round_aux prec emax false M E loc_Exact) (S754_finite false mc ec) = true.
Proof.
  intros HM Hfill V Hz Hzc Hle.
  pose proof (valid_finite_emax _ _ _ V) as Hmax.
  apply valid_finite_bounds in V as (Hec & Hmc & Hnc).
  destruct (binary_round_aux_raw false M E HM Hfill)
    as (m1 & m2 & e2 & -> & Hq1 & Hq2 & Hm2 & He2 & Hm21 & Hn2).
  set (e1 := fexp prec emax (Zdigits2 M + E)) in *.
  set (q := Z.shiftr M (e1 - E)) in *.
  pose proof (shiftr_floor M (e1 - E) ltac:(lia) ltac:(lia)) as Hfl. fold q in Hfl.
  pose proof (pow2_pos (E - z) ltac:(lia)) as HpE.
  pose proof (pow2_pos (e1 - E) ltac:(lia)) as Hp1.
  assert (Hq0 : 0 <= q) by (apply Z.shiftr_nonneg; lia).
  assert (Hm1 : m1 * 2 ^ (e1 - z) <= Zpos mc * 2 ^ (ec - z)).
  { rewrite (scaled_split m1 e1 E z) by lia.
    destruct (Z.eq_dec m1 q) as [->|Hne].
    - eapply Z.le_trans; [|exact Hle]. apply Z.mul_le_mono_nonneg_r; lia.
    - assert (Em : m1 = q + 1) by lia. specialize (Hq2 Em).
      (* the bound is a multiple of the unit of the result *)
      assert (Hd : Zdigits2 M + E <= Zpos (digits2_pos mc) + ec).
      { pose proof (digits2_pos_bounds mc) as [_ Hhi].
        assert (Hlo : 2 ^ (Zdigits2 M - 1) <= M).
        { destruct M as [|p|p]; try lia. simpl. apply digits2_pos_bounds. }
        assert (HD : 0 < Zdigits2 M) by (destruct M; simpl; lia).
        assert (H1 : 2 ^ (Zdigits2 M - 1 + (E - z)) < 2 ^ (Zpos (digits2_pos mc) + (ec - z))).
        { rewrite !pow2_split by lia.
          pose proof (pow2_pos (ec - z) ltac:(lia)).
          pose proof (pow2_pos (Zdigits2 M - 1) ltac:(lia)). nia. }
        apply Z.pow_lt_mono_r_iff in H1; lia. }
      assert (Hdc : Zpos (digits2_pos mc) <= 53).
      { apply (Zdigits2_le (Zpos mc)); lia. }
      assert (Hge : e1 <= ec).
      { subst e1. unfold fexp, SpecFloat.emin, prec, emax in *. lia. }
      rewrite (scaled_split (Zpos mc) ec e1 z) in Hle |- * by lia.
      rewrite (scaled_split (Zpos mc * 2 ^ (ec - e1)) e1 E z) in Hle |- * by lia.
      apply Z.mul_le_mono_nonneg_r; [lia|].
      set (C := Zpos mc * 2 ^ (ec - e1)) in *.
      assert (q * 2 ^ (e1 - E) < C * 2 ^ (e1 - E)) by nia.
      assert (q < C) by nia. subst m1. nia. }
  assert (Hv : m2 * 2 ^ (e2 - z) <= Zpos mc * 2 ^ (ec - z)).
  { rewrite (scaled_split m2 e2 e1 z) by lia. by rewrite Hm21. }
  destruct m2 as [|p|p]; [done| |lia].
  destruct (canonical_value_le (Zpos p) e2 (Zpos mc) ec z) as [Hlt|[Heq Hlem]];
    try done; try lia.
  - destruct (Z.leb_spec e2 (emax - prec)); [|lia].
    apply SFleb_finite_pos. by left.
  - destruct (Z.leb_spec e2 (emax - prec)); [|lia].
    apply SFleb_finite_pos. by right.
Qed.

(** Rounding is monotone against a representable lower bound. *)
Lemma binary_round_aux_lower M E mc ec z :
  0 < M -> E <= fexp prec emax (Zdigits2 M + E) ->
  valid_binary (S754_finite false mc ec) = true ->
  z <= E -> z <= ec ->
  Zpos mc * 2 ^ (ec - z) <= M * 2 ^ (E - z) ->
  SFleb (S754_finite false mc ec) (binary_round_aux prec emax false M E loc_Exact) = true.
Proof.
  intros HM Hfill V Hz Hzc Hle.
  apply valid_finite_bounds in V as (Hec & Hmc & Hnc).
  destruct (binary_round_aux_raw false M E HM Hfill)
    as (m1 & m2 & e2 & -> & Hq1 & Hq2 & Hm2 & He2 & Hm21 & Hn2).
  set (e1 := fexp prec emax (Zdigits2 M + E)) in *.
  set (q := Z.shiftr M (e1 - E)) in *.
  pose proof (pow2_pos (E - z) ltac:(lia)) as HpE.
  pose proof (pow2_pos (e1 - E) ltac:(lia)) as Hp1.
  pose proof (pow2_pos (ec - z) ltac:(lia)) as Hpc.
  assert (Hq0 : 0 <= q) by (apply Z.shiftr_nonneg; lia).
  assert (Hemin : emin <= e1) by (subst e1; unfold fexp; lia).
  assert (Hq : Zpos mc * 2 ^ (ec - z) <= q * 2 ^ (e1 - z)).
  { destruct (Z_le_gt_dec e1 ec) as [Hge|Hlt].
    - (* the bound is a multiple of the unit of the result *)
      rewrite (scaled_split (Zpos mc) ec e1 z) in Hle |- * by lia.
      apply Z.mul_le_mono_nonneg_r; [apply Z.lt_le_incl, pow2_pos; lia|].
      rewrite (scaled_split (Zpos mc * 2 ^ (ec - e1)) e1 E z) in Hle by lia.
      set (C := Zpos mc * 2 ^ (ec - e1)) in *.
      assert (HC : C * 2 ^ (e1 - E) <= M) by nia.
      subst q. rewrite Z.shiftr_div_pow2 by lia.
      apply Z.div_le_lower_bound; [done|]. lia.
    - (* the result lies in a higher binade than the bound *)
      assert (He1 : e1 = Zdigits2 M + E - 53).
      { subst e1. unfold fexp, SpecFloat.emin, prec, emax in *. lia. }
      assert (Hlo : 2 ^ (Zdigits2 M - 1) <= M).
      { destruct M as [|p|p]; try lia. simpl. apply digits2_pos_bounds. }
      assert (Hq52 : 2 ^ 52 <= q).
      { apply (digits_shiftr_lower M (Zdigits2 M)); lia. }
      rewrite (scaled_split q e1 ec z) by lia.
      apply Z.mul_le_mono_nonneg_r; [lia|].
      assert (2 ^ 1 <= 2 ^ (e1 - ec)) by (apply pow2_le; lia).
      change (2 ^ 1) with 2 in *. nia. }
  assert (Hv : Zpos mc * 2 ^ (ec - z) <= m2 * 2 ^ (e2 - z)).
  { rewrite (scaled_split m2 e2 e1 z) by lia. rewrite Hm21.
    eapply Z.le_trans; [exact Hq|].
    apply Z.mul_le_mono_nonneg_r; [apply Z.lt_le_incl, pow2_pos; lia|lia]. }
  destruct m2 as [|p|p]; [lia| |lia].
  destruct (Z.leb_spec e2 (emax - prec)); [|done].
  apply SFleb_finite_pos.
  apply (canonical_value_le (Zpos mc) ec (Zpos p) e2 z); try done; lia.
Qed.

(** A product has at least the digits of a canonical mantissa. *)
Lemma digits2_pos_mul_lower a b :
  Zpos (digits2_pos a) + Zpos (digits2_pos b) - 1 <= Zpos (digits2_pos (a * b)).
Proof.
  pose proof (digits2_pos_bounds a) as [Ha _]. pose proof (digits2_pos_bounds b) as [Hb _].
  apply (Zdigits2_lower (Zpos (a * b))); [lia|].
  replace (Zpos (digits2_pos a) + Zpos (digits2_pos b) - 1 - 1)
    with ((Zpos (digits2_pos a) - 1) + (Zpos (digits2_pos b) - 1)) by lia.
  rewrite pow2_split by lia. rewrite Pos2Z.inj_mul.
  pose proof (pow2_pos (Zpos (digits2_pos a) - 1) ltac:(lia)).
  pose proof (pow2_pos (Zpos (digits2_pos b) - 1) ltac:(lia)). nia.
Qed.

Lemma SFmul_filled sx mx ex sy my ey :
  valid_binary (S754_finite sx mx ex) = true ->
  valid_binary (S754_finite sy my ey) = true ->
  ex + ey <= fexp prec emax (Zdigits2 (Zpos (mx * my)) + (ex + ey)).
Proof.
  intros Vx Vy. simpl in Vx, Vy. unfold bounded in Vx, Vy.
  apply andb_prop in Vx as [Vx _]. apply andb_prop in Vy as [Vy _].
  apply canonical_bounds in Vx as (Hex & Hdx & Hnx).
  apply canonical_bounds in Vy as (Hey & Hdy & Hny).
  pose proof (digits2_pos_mul_lower mx my) as Hd. simpl Zdigits2.
  unfold fexp, SpecFloat.emin, prec, emax in *. lia.
Qed.

(** The product of a number in [[0,1)] and a finite number [t >= 0] is at
    most [t]. *)
Lemma SFmul_unit_le x t :
  valid_binary x = true -> valid_binary t = true ->
  SFleb (S754_zero false) x = true ->
  SFltb x (S754_finite false 4503599627370496 (-52)) = true ->
  sf_finite t = true -> sf_weak false t ->
  SFleb (SFmul prec emax x t) t = true.
Proof.
  intros Vx Vt H0 H1 Ft Wt.
  destruct t as [st|st| |st mt et]; try done; simpl in Wt; subst st.
  - destruct x as [sx|sx| |sx mx ex]; try done; by destruct sx.
  - destruct x as [sx|sx| |sx mx ex]; try done.
    + by destruct sx.
    + destruct sx; [discriminate H0|].
      apply SFltb_true_iff in H1. pose proof (lt_two_pow_52 mx ex Vx H1) as Hr.
      simpl SFmul.
      pose proof (digits2_pos_bounds mx) as [_ Hhi].
      assert (Hex : ex <= 0) by lia.
      apply (binary_round_aux_upper _ _ _ _ (ex + et)); try done; try lia.
      * by apply (SFmul_filled false _ _ false).
      * rewrite Z.sub_diag, Z.mul_1_r. replace (et - (ex + et)) with (- ex) by lia.
        assert (2 ^ Zpos (digits2_pos mx) <= 2 ^ (- ex)) by (apply pow2_le; lia).
        rewrite Pos2Z.inj_mul. nia.
Qed.

(** Canonical numbers have the order of their values. *)
Lemma canonical_le_value m2 e2 mc ec z :
  0 < m2 < 2 ^ 53 -> 0 < mc -> (emin < ec -> 2 ^ 52 <= mc) ->
  emin <= e2 -> z <= e2 -> z <= ec ->
  e2 < ec \/ (e2 = ec /\ m2 <= mc) ->
  m2 * 2 ^ (e2 - z) <= mc * 2 ^ (ec - z).
Proof.
  intros Hm2 Hmc Hnc He2 Hz2 Hzc [Hlt|[-> Hle]].
  - specialize (Hnc ltac:(lia)).
    rewrite (scaled_split mc ec e2 z) by lia.
    apply Z.mul_le_mono_nonneg_r; [apply Z.lt_le_incl, pow2_pos; lia|].
    assert (2 ^ 1 <= 2 ^ (ec - e2)) by (apply pow2_le; lia).
    change (2 ^ 1) with 2 in *. nia.
  - apply Z.mul_le_mono_nonneg_r; [apply Z.lt_le_incl, pow2_pos; lia|lia].
Qed.

Lemma sf_scaled_finite m e :
  sf_scaled (S754_finite false m e) = Zpos m * 2 ^ (e - emin).
Proof. reflexivity. Qed.

Lemma sf_scaled_pos x :
  valid_binary x = true -> sf_positive x -> 0 < sf_scaled x.
Proof.
  destruct x as [| | |[] m e]; try done. intros V _.
  apply valid_finite_bounds in V as (He & _).
  rewrite sf_scaled_finite. pose proof (pow2_pos (e - emin) ltac:(lia)). nia.
Qed.

(** For finite numbers that are not negative, [<=] is the order of the
    values. *)
Lemma SFleb_scaled x y :
  valid_binary x = true -> valid_binary y = true ->
  sf_positive x -> sf_positive y ->
  SFleb x y = true <-> sf_scaled x <= sf_scaled y.
Proof.
  destruct x as [| | |[] mx ex]; try done. destruct y as [| | |[] my ey]; try done.
  intros Vx Vy _ _. rewrite !sf_scaled_finite.
  apply valid_finite_bounds in Vx as (Hex & Hmx & Hnx).
  apply valid_finite_bounds in Vy as (Hey & Hmy & Hny).
  split.
  - intros H. apply SFleb_rank in H; [|done|done]. simpl in H.
    apply canonical_le_value; try lia.
  - intros H. apply SFleb_finite_pos.
    apply (canonical_value_le (Zpos mx) ex (Zpos my) ey emin); try done; lia.
Qed.

(** Alignment of a mantissa keeps its value and fills its digits. *)
Lemma digits2_pos_shift m k :
  0 <= k -> Zdigits2 (Zpos m * 2 ^ k) = Zpos (digits2_pos m) + k.
Proof.
  intros Hk. pose proof (digits2_pos_bounds m) as [Hlo Hhi].
  pose proof (pow2_pos k Hk) as Hp.
  apply Zdigits2_unique; [lia|].
  replace (Zpos (digits2_pos m) + k - 1) with ((Zpos (digits2_pos m) - 1) + k) by lia.
  rewrite !pow2_split by lia. split; nia.
Qed.

Lemma binary_round_aligned s m e :
  emin <= e ->
  exists mz ez,
    binary_round prec emax s m e = binary_round_aux prec emax s (Zpos mz) ez loc_Exact /\
    emin <= ez <= e /\ Zpos mz = Zpos m * 2 ^ (e - ez) /\
    ez <= fexp prec emax (Zdigits2 (Zpos mz) + ez).
Proof.
  intros He. unfold binary_round.
  set (f := fexp prec emax (Zpos (digits2_pos m) + e)).
  assert (Hf : emin <= f) by (subst f; unfold fexp; lia).
  pose proof (shl_align_exp m e f) as Hx.
  destruct (Z_le_gt_dec f e) as [Hle|Hgt].
  - pose proof (shl_align_m m e f Hle) as Hm.
    destruct (shl_align m e f) as [mz ez]. simpl in Hx, Hm.
    rewrite Z.min_r in Hx by lia. subst ez.
    exists mz, f. split; [done|]. split; [lia|]. split; [done|].
    rewrite Hm, digits2_pos_shift by lia.
    replace (Zpos (digits2_pos m) + (e - f) + f) with (Zpos (digits2_pos m) + e) by lia.
    fold f. lia.
  - pose proof (shl_align_m m e e ltac:(lia)) as Hm.
    assert (Hs : shl_align m e f = (m, e)).
    { unfold shl_align. destruct (f - e) eqn:E; try lia; reflexivity. }
    rewrite Hs. exists m, e. split; [done|]. split; [lia|].
    split; [rewrite Z.sub_diag; lia|]. simpl Zdigits2. fold f. lia.
Qed.

(** The sum of two finite numbers that are not negative lies between
    the representable bounds of its value. *)
Lemma SFadd_bounds x a lo hi :
  valid_binary x = true -> valid_binary a = true ->
  valid_binary lo = true -> valid_binary hi = true ->
  sf_weak false x -> sf_finite x = true ->
  sf_positive a -> sf_positive lo -> sf_positive hi ->
  sf_scaled lo <= sf_scaled x + sf_scaled a <= sf_scaled hi ->
  SFleb lo (SFadd prec emax x a) = true /\ SFleb (SFadd prec emax x a) hi = true.
Proof.
  intros Vx Va Vlo Vhi Wx Fx Pa Plo Phi [Hlo Hhi].
  destruct a as [| | |[] ma ea]; try done.
  destruct x as [sx|sx| |sx mx ex]; try done; simpl in Wx; subst sx.
  - (* [0 + a] is [a] *)
    simpl SFadd. change (sf_scaled (S754_zero false)) with 0 in *.
    split; apply SFleb_scaled; try done; lia.
  - simpl SFadd.
    destruct lo as [| | |[] ml el]; try done. destruct hi as [| | |[] mh eh]; try done.
    rewrite !sf_scaled_finite in *.
    pose proof Vx as (Hex & _)%valid_finite_bounds.
    pose proof Va as (Hea & _)%valid_finite_bounds.
    pose proof Vlo as (Hel & _)%valid_finite_bounds.
    pose proof Vhi as (Heh & _)%valid_finite_bounds.
    set (ez := Z.min ex ea).
    set (sm := ((shl_align mx ex ez).1 + (shl_align ma ea ez).1)%positive).
    assert (Es : Zpos mx * 2 ^ (ex - ez) + Zpos ma * 2 ^ (ea - ez) = Zpos sm).
    { subst sm. rewrite Pos2Z.inj_add, !shl_align_m by lia. reflexivity. }
    destruct (binary_round_aligned false sm ez ltac:(lia))
      as (mz & ez' & -> & Hez & Hmz & Hfill).
    (* the value of the aligned sum *)
    assert (Hval : Zpos mz * 2 ^ (ez' - emin)
                   = Zpos mx * 2 ^ (ex - emin) + Zpos ma * 2 ^ (ea - emin)).
    { rewrite Hmz, <- Es.
      rewrite <- (scaled_split (Zpos mx * 2 ^ (ex - ez) + Zpos ma * 2 ^ (ea - ez))
                    ez ez' emin) by lia.
      rewrite Z.mul_add_distr_r.
      rewrite <- (scaled_split (Zpos mx) ex ez emin) by lia.
      rewrite <- (scaled_split (Zpos ma) ea ez emin) by lia.
      reflexivity. }
    split.
    + apply (binary_round_aux_lower _ _ _ _ emin); try done; try lia.
    + apply (binary_round_aux_upper _ _ _ _ emin); try done; try lia.
Qed.

Lemma SFmul_finite_weak x y :
  sf_weak false x -> sf_weak false y -> sf_finite x = true -> sf_finite y = true ->
  sf_weak false (SFmul prec emax x y).
Proof.
  destruct x as [sx|sx| |sx mx ex], y as [sy|sy| |sy my ey]; simpl;
    try contradiction; try discriminate; intros -> -> _ _; simpl; try reflexivity.
  apply binary_round_aux_weak. lia.
Qed.

(** [r * c + d] for a draw [r] in [[0,1)]: between [d] and [c + d]. *)
Lemma SF_unit_affine_bounds x c d lo hi :
  valid_binary x = true -> valid_binary c = true -> valid_binary d = true ->
  valid_binary lo = true -> valid_binary hi = true ->
  SFleb (S754_zero false) x = true ->
  SFltb x (S754_finite false 4503599627370496 (-52)) = true ->
  valid_binary (SFmul prec emax x c) = true ->
  sf_positive c -> sf_positive d -> sf_positive lo -> sf_positive hi ->
  sf_scaled lo <= sf_scaled d -> sf_scaled c + sf_scaled d <= sf_scaled hi ->
  SFleb lo (SFadd prec emax (SFmul prec emax x c) d) = true /\
  SFleb (SFadd prec emax (SFmul prec emax x c) d) hi = true.
Proof.
  intros Vx Vc Vd Vlo Vhi H0 H1 Vp Pc Pd Plo Phi Hlo Hhi.
  assert (Wc : sf_weak false c) by (destruct c as [| | |[]]; done).
  assert (Fc : sf_finite c = true) by (destruct c as [| | |[]]; done).
  destruct x as [sx|sx| |sx mx ex]; try done.
  { (* the draw is [0] *)
    destruct c as [| | |[] mc ec]; try done. destruct d as [| | |[] md ed]; try done.
    assert (E : SFadd prec emax (SFmul prec emax (S754_zero sx) (S754_finite false mc ec))
                  (S754_finite false md ed) = S754_finite false md ed) by (by destruct sx).
    rewrite E. pose proof (sf_scaled_pos _ Vc Pc).
    split; apply SFleb_scaled; try done; lia. }
  { by destruct sx. }
  destruct sx; [discriminate H0|].
  assert (Wx : sf_weak false (S754_finite false mx ex)) by done.
  assert (Fx : sf_finite (S754_finite false mx ex) = true) by done.
  pose proof (SFmul_unit_le _ c Vx Vc H0 H1 Fc Wc) as Hle.
  pose proof (SFmul_finite_weak _ c Wx Wc Fx Fc) as Wp.
  set (p := SFmul prec emax _ c) in *.
  assert (Fp : sf_finite p = true).
  { destruct p as [sp|sp| |sp mp ep]; try done.
    simpl in Wp. subst sp. destruct c as [| | |[]]; done. }
  assert (Hp : 0 <= sf_scaled p <= sf_scaled c).
  { destruct p as [sp|sp| |sp mp ep]; try done; simpl in Wp; subst sp.
    - change (sf_scaled (S754_zero false)) with 0.
      pose proof (sf_scaled_pos c Vc Pc). lia.
    - pose proof (sf_scaled_pos (S754_finite false mp ep) Vp I).
      apply SFleb_scaled in Hle; try done. lia. }
  apply SFadd_bounds; try done. lia.
Qed.

Lemma SFmul_unit_nonneg x c :
  SFleb (S754_zero false) x = true ->
  SFltb x (S754_finite false 4503599627370496 (-52)) = true ->
  sf_positive c ->
  SFleb (S754_zero false) (SFmul prec emax x c) = true.
Proof.
  intros H0 H1 Pc. destruct c as [| | |[] mc ec]; try done.
  destruct x as [sx|sx| |sx mx ex]; try discriminate H0.
  - by destruct sx.
  - destruct sx; [discriminate H0|discriminate H1].
  - destruct sx; [discriminate H0|].
    apply SFleb_zero_weak, SFmul_finite_weak; done.
Qed.

End RoundingBounds.

Lemma mul_unit_le r t :
  unit_draw r → is_finite t = true → nonneg t → (r * t <=? t) = true.
Proof.
  intros [H0 H1] Ft Wt. rewrite is_finite_spec in Ft.
  rewrite FloatAxioms.leb_spec in H0. rewrite FloatAxioms.ltb_spec in H1.
  rewrite FloatAxioms.leb_spec, mul_spec.
  apply SFmul_unit_le; try done; apply Prim2SF_valid.
Qed.

Lemma unit_affine_bounds r c d lo hi :
  unit_draw r →
  sf_positive (Prim2SF c) → sf_positive (Prim2SF d) →
  sf_positive (Prim2SF lo) → sf_positive (Prim2SF hi) →
  (sf_scaled (Prim2SF lo) ≤ sf_scaled (Prim2SF d))%Z →
  (sf_scaled (Prim2SF c) + sf_scaled (Prim2SF d) ≤ sf_scaled (Prim2SF hi))%Z →
  (lo <=? r * c + d) = true ∧ (r * c + d <=? hi) = true.
Proof.
  intros [H0 H1] Pc Pd Plo Phi Hlo Hhi.
  rewrite FloatAxioms.leb_spec in H0. rewrite FloatAxioms.ltb_spec in H1.
  rewrite !FloatAxioms.leb_spec, add_spec, mul_spec.
  apply SF_unit_affine_bounds; try done; try apply Prim2SF_valid.
  rewrite <- mul_spec. apply Prim2SF_valid.
Qed.

Lemma unit_coordinates_inside r :
  unit_draw r →
  (20 <=? r * (canvasWidth - 40) + 20) = true ∧
  (r * (canvasWidth - 40) + 20 <=? canvasWidth - 20) = true ∧
  (20 <=? r * (canvasHeight - 40) + 20) = true ∧
  (r * (canvasHeight - 40) + 20 <=? canvasHeight - 20) = true.
Proof.
  intros Hr.
  pose proof (unit_affine_bounds r (canvasWidth - 40) 20 20 (canvasWidth - 20) Hr
                I I I I ltac:(by vm_compute) ltac:(by vm_compute)) as [H1 H2].
  pose proof (unit_affine_bounds r (canvasHeight - 40) 20 20 (canvasHeight - 20) Hr
                I I I I ltac:(by vm_compute) ltac:(by vm_compute)) as [H3 H4].
  done.
Qed.

(** The product of a draw in [[0,1)] and a number [c > 0]: between [0]
    and [c]. *)
Lemma mul_unit_range r c :
  unit_draw r → sf_positive (Prim2SF c) →
  (0 <=? r * c) = true ∧ (r * c <=? c) = true.
Proof.
  intros Hr Pc. split.
  - destruct Hr as [H0 H1].
    rewrite FloatAxioms.leb_spec in H0. rewrite FloatAxioms.ltb_spec in H1.
    rewrite FloatAxioms.leb_spec, mul_spec.
    by apply SFmul_unit_nonneg.
  - apply mul_unit_le; [done| |].
    + rewrite is_finite_spec. by destruct (Prim2SF c) as [| | |[]].
    + unfold nonneg. by destruct (Prim2SF c) as [| | |[]].
Qed.

Lemma of_nat_positive n :
  (1 ≤ n)%nat → (Z.of_nat n < 2 ^ 53)%Z → sf_positive (Prim2SF (of_nat n)).
Proof.
  intros Hn Hlt. by destruct (of_nat_spec n Hn Hlt) as (mn & en & -> & _).
Qed.

(** ** Cities inside the canvas *)

Lemma generateCities_from_inside count : ∀ i g cities g',
  unit_draws g →
  generateCities_from i count g = Some (cities, g') →
  Forall inside_canvas cities.
Proof.
  induction count as [|count IH]; intros i g cities g' Hg; simpl.
  - by intros [= <- <-].
  - rewrite !bind_run. simpl. rewrite bind_run.
    change (Math_random (RNG_next g)) with (Some (RNG_next g O, RNG_next (RNG_next g))).
    cbv beta iota. rewrite bind_run.
    destruct (generateCities_from (S i) count (RNG_next (RNG_next g)))
      as [[rest g1]|] eqn:E; [|done].
    intros [= <- <-]. constructor.
    + destruct (unit_coordinates_inside (g O) (Hg O)) as (H1 & H2 & _).
      destruct (unit_coordinates_inside (g 1%nat) (Hg 1%nat)) as (_ & _ & H3 & H4).
      done.
    + eapply IH; [|exact E]. intros k. apply (Hg (S (S k))).
Qed.

(** X14.  The cities that [generateCities] places lie inside the canvas, at
    least 20 pixels away from its border: when every draw is a number in
    [[0,1)], every city has [20 <= x <= canvasWidth - 20] and
    [20 <= y <= canvasHeight - 20], the rounding of the multiplication and
    of the addition included. *)
Theorem generateCities_inside_canvas (count : nat) (g : RNG) :
  unit_draws g →
  ∃ cities g',
    generateCities count g = Some (cities, g') ∧
    length cities = count ∧
    Forall inside_canvas cities.
Proof.
  intros Hg. unfold generateCities.
  destruct (generateCities_from_spec count O g (unit_draws_coordinates g Hg))
    as (cities & g' & H & Hids & _).
  exists cities, g'. split; [done|].
  split; [by rewrite <- (length_fmap City.id), Hids, length_seq|].
  by eapply generateCities_from_inside.
Qed.

Lemma generateCities_inside_canvas_witness :
  ∃ cities g',
    generateCities 3 cycle3 = Some (cities, g') ∧
    length cities = 3%nat ∧
    Forall inside_canvas cities.
Proof. apply generateCities_inside_canvas. exact unit_draws_cycle3. Defined.

(** ** The walk of [select] always returns *)

Lemma nonneg_totalFitness population :
  Forall (λ ind, nonneg (Individual.fitness ind)) population →
  nonneg (totalFitness population).
Proof.
  unfold totalFitness. generalize nonneg_zero. generalize 0.
  induction population as [|ind rest IH]; intros a Ha Hall; simpl; [done|].
  apply Forall_cons in Hall as [Hind Hall]. apply IH; [by apply nonneg_add|done].
Qed.

(** X15.  For a draw in [[0,1)] and a non-empty population whose fitness
    values are numbers that are not negative and whose total fitness is
    finite, the drawn number [Math.random() * totalFitness] is at most
    [totalFitness] although the product is rounded, so the walk of [select]
    returns an individual of the population: the fallback
    [return population[0]] is never reached. *)
Theorem select_walk_returns (population : list Individual.t) (g : RNG) :
  population ≠ [] →
  Forall (λ ind, nonneg (Individual.fitness ind)) population →
  is_finite (totalFitness population) = true →
  unit_draw (g O) →
  (g O * totalFitness population <=? totalFitness population) = true ∧
  ∃ ind,
    select_walk (g O * totalFitness population) 0 population = Some ind ∧
    select population g = Some (Some ind, RNG_next g) ∧
    ind ∈ population.
Proof.
  intros Hne Hfit Hfin Hr.
  assert (Hle : (g O * totalFitness population <=? totalFitness population) = true).
  { apply mul_unit_le; [done|done|by apply nonneg_totalFitness]. }
  split; [done|].
  destruct (select_walk_reached _ population 0 Hne Hle) as [ind Hind].
  exists ind. split; [done|]. split.
  - unfold select. rewrite bind_run. simpl. fold (totalFitness population).
    by rewrite Hind.
  - by eapply select_walk_elem.
Qed.

Lemma select_walk_returns_witness :
  (cycle3 O * totalFitness (population example_state)
     <=? totalFitness (population example_state)) = true ∧
  ∃ ind,
    select_walk (cycle3 O * totalFitness (population example_state)) 0
      (population example_state) = Some ind ∧
    select (population example_state) cycle3 = Some (Some ind, RNG_next cycle3) ∧
    ind ∈ population example_state.
Proof.
  apply select_walk_returns.
  - done.
  - repeat constructor; by vm_compute.
  - by vm_compute.
  - exact (unit_draws_cycle3 O).
Defined.

(** ** Random indices *)

(** X12.  [Math.floor(Math.random() * n)] is an index below [n]: for a
    draw in [[0,1)] and [1 <= n < 2 ^ 53], the binary64 product
    [Math.random() * n], although rounded, is a number between [0] and [n]
    whose floor is at most [n - 1].  The indices that [crossover] and
    [mutate] draw therefore lie within the tour. *)
Theorem random_index_in_range (n : nat) (g : RNG) :
  unit_draws g → (1 ≤ n)%nat → (Z.of_nat n < 2 ^ 53)%Z →
  index_draws_ok n g ∧
  (0 <=? g O * of_nat n) = true ∧ (g O * of_nat n <=? of_nat n) = true ∧
  ∃ i, random_index n g = Some (i, RNG_next g) ∧ (i < n)%nat.
Proof.
  intros Hg Hn Hlt. split; [by apply unit_draws_index|].
  destruct (mul_unit_range (g O) (of_nat n) (Hg O) (of_nat_positive n Hn Hlt))
    as [Hlo Hhi].
  split; [done|]. split; [done|].
  rewrite random_index_run. eexists. split; [reflexivity|].
  by apply Math_floor_unit_product.
Qed.

Lemma random_index_in_range_witness :
  index_draws_ok 3 cycle3 ∧
  (0 <=? cycle3 O * of_nat 3) = true ∧ (cycle3 O * of_nat 3 <=? of_nat 3) = true ∧
  ∃ i, random_index 3 cycle3 = Some (i, RNG_next cycle3) ∧ (i < 3)%nat.
Proof.
  apply random_index_in_range.
  - exact unit_draws_cycle3.
  - lia.
  - done.
Defined.

(** * Reciprocals

    The fitness is the reciprocal [1 / length].  [SFdiv] computes the
    quotient [q] of [2 ^ (52 + s)] by the mantissa of the length, with the
    position of the remainder, and rounds it to nearest even; the
    reciprocal is antitone. *)

Section Reciprocal.
Local Open Scope Z_scope.
















End Reciprocal.

Section ReciprocalOrder.





Lemma ltb_irrefl a : (a <? a) = false.
Proof.
  rewrite FloatAxioms.ltb_spec. unfold SFltb.
  destruct (sf_is_nan (Prim2SF a)) eqn:E.
  - by destruct (Prim2SF a).
  - by rewrite SFcompare_refl.
Qed.

End ReciprocalOrder.

(** * The first element of a sorted array *)

Section SortHead.
Context {A : Type} (comparefn : A → A → float).




End SortHead.

(** * The elite of a rendered population *)








(** * The timer *)

(** A tick is the generation step of the click-time state; only its
    writes land in the state of the component. *)
Lemma tick_gaIteration config closure st g :
  (currentGen closure < 1000)%nat →
  tick config closure st g
  = match gaIteration config closure g with
    | Some (st1, g1) =>
        Some (mkRunState (cities st) (population st1)
                (if Individual.length (bestIndividual st1)
                      <? Individual.length (bestIndividual closure)
                 then bestIndividual st1 else bestIndividual st)
                (S (currentGen st)) (isRunning st), g1)
    | None => None
    end.
Proof.
  intros Hc. unfold tick, gaIteration.
  destruct (Nat.leb_spec 1000 (currentGen closure)) as [?|_]; [lia|].
  destruct (head (sort_by by_fitness_desc (population closure))) as [elite|]; [|done].
  rewrite !bind_run.
  destruct (refill _ _ _ _ g) as [[newPopulation g1]|]; [|done].
  destruct (head (sort_by by_length_asc newPopulation)) as [currentBest|]; [|done].
  cbn [mret M_ret bestIndividual population].
  destruct (Individual.length currentBest <? _) eqn:E.
  - by rewrite E.
  - by rewrite ltb_irrefl.
Qed.

Lemma gaIteration_tick config st g : gaIteration config st g = tick config st st g.
Proof. reflexivity. Qed.

Lemma render_well_formed st : well_formed st → well_formed (render st).
Proof.
  intros (Hnd & Hfin & Hne & Hpop & Hbest & Hle).
  pose proof (sort_by_perm by_length_asc (population st)) as Hp.
  split; [done|]. split; [done|]. split; [|split; [|split; [done|]]]; simpl.
  - intros E. rewrite E in Hp. apply Permutation_nil_l in Hp. by subst.
  - by rewrite Hp.
  - intros ind Hind. apply Hle. by rewrite <- Hp.
Qed.

Lemma toggleRun_well_formed st : well_formed st → well_formed (toggleRun st).
Proof. done. Qed.

Lemma tick_spec config closure st g :
  well_formed closure → (currentGen closure < 1000)%nat →
  well_formed st → cities st = cities closure →
  (Individual.length (bestIndividual st)
     <=? Individual.length (bestIndividual closure)) = true →
  ∃ st' g',
    tick config closure st g = Some (st', g') ∧
    well_formed st' ∧ cities st' = cities closure ∧
    (Individual.length (bestIndividual st')
       <=? Individual.length (bestIndividual closure)) = true ∧
    currentGen st' = S (currentGen st) ∧
    isRunning st' = isRunning st ∧
    length (population st') = (1 `max` GAConfig.populationSize config)%nat ∧
    (∀ ind, ind ∈ population closure →
       ∃ ind', ind' ∈ population st' ∧
         (Individual.fitness ind <=? Individual.fitness ind') = true).
Proof.
  intros Hwc Hc Hwf Hcities Hrec.
  rewrite tick_gaIteration by done.
  destruct (gaIteration_spec config closure g Hwc)
    as (st1 & g1 & Hstep & Hwf1 & Hc1 & _ & Hnext).
  destruct (Hnext Hc) as (_ & _ & Hlen).
  pose proof (gaIteration_best _ _ _ _ _ Hstep) as Hb.
  pose proof (gaIteration_elite _ _ _ _ _ Hwc Hstep) as He.
  rewrite Hstep. eexists _, g1. split; [reflexivity|]. simpl.
  destruct Hwf as (Hnd & Hfin & _ & _ & Hbest & _).
  destruct Hwf1 as (_ & _ & Hne1 & Hpop1 & Hbest1 & Hle1).
  rewrite Hc1, <- Hcities in Hpop1, Hbest1.
  assert (Hn1 : is_nan (Individual.length (bestIndividual st1)) = false).
  { by apply nonneg_not_nan, (tour_of_finite (cities st)). }
  assert (Hnc : is_nan (Individual.length (bestIndividual closure)) = false).
  { by apply leb_not_nan in Hrec as [_ ?]. }
  destruct (Individual.length (bestIndividual st1)
              <? Individual.length (bestIndividual closure)) eqn:E.
  - split; [done|]. split; [done|]. split; [by apply ltb_leb|]. done.
  - split; [|done].
    split; [done|]. split; [done|]. split; [done|]. split; [done|]. split; [done|].
    intros ind Hind. eapply leb_trans; [exact Hrec|].
    eapply leb_trans; [|by apply Hle1].
    by apply ltb_false_leb.
Qed.

Lemma ticks_spec config closure n : ∀ st g,
  well_formed closure → (currentGen closure < 1000)%nat →
  well_formed st → cities st = cities closure →
  (Individual.length (bestIndividual st)
     <=? Individual.length (bestIndividual closure)) = true →
  ∃ st' g',
    ticks config closure n st g = Some (st', g') ∧
    well_formed st' ∧ cities st' = cities closure ∧
    (Individual.length (bestIndividual st')
       <=? Individual.length (bestIndividual closure)) = true ∧
    currentGen st' = (currentGen st + n)%nat ∧
    isRunning st' = isRunning st ∧
    ((1 ≤ n)%nat →
       length (population st') = (1 `max` GAConfig.populationSize config)%nat ∧
       ∀ ind, ind ∈ population closure →
         ∃ ind', ind' ∈ population st' ∧
           (Individual.fitness ind <=? Individual.fitness ind') = true).
Proof.
  induction n as [|n IH]; intros st g Hwc Hc Hwf Hcities Hrec; simpl.
  - exists st, g. split; [done|]. split; [done|]. split; [done|]. split; [done|].
    split; [lia|]. split; [done|]. lia.
  - rewrite bind_run.
    destruct (IH st g Hwc Hc Hwf Hcities Hrec)
      as (st1 & g1 & -> & Hwf1 & Hc1 & Hrec1 & Hgen1 & Hrun1 & _).
    rewrite bind_run.
    destruct (tick_spec config closure st1 g1 Hwc Hc Hwf1 Hc1 Hrec1)
      as (st2 & g2 & -> & Hwf2 & Hc2 & Hrec2 & Hgen2 & Hrun2 & Hlen2 & Hel2).
    exists (render st2), g2. split; [done|].
    split; [by apply render_well_formed|]. split; [done|]. split; [done|].
    split; [simpl; lia|]. split; [simpl; congruence|]. intros _.
    pose proof (sort_by_perm by_length_asc (population st2)) as Hp.
    split; [simpl; by rewrite Hp|].
    intros ind Hind. destruct (Hel2 ind Hind) as (ind' & Hin' & Hle').
    exists ind'. split; [|done]. simpl. by rewrite Hp.
Qed.

(** C6.  The ceiling does not stop a run that was started below it.  When
    the button is pressed on a rendered state whose counter is below 1000,
    every tick of the timer tests the counter of that render and never the
    counter of the component, which [setCurrentGen] advances: after [n]
    ticks, for every [n], the run has not failed, the counter is the
    initial one plus [n] (so it passes 1000), [isRunning] is still [true]
    and the state is well-formed, with the population that the last tick
    has bred.  No tick takes the branch of the ceiling: the step at the
    ceiling neither stops the run nor leaves the counter unchanged. *)
Theorem generation_ceiling_missed (config : GAConfig.t) (st0 : RunState)
    (n : nat) (g : RNG) :
  well_formed st0 → isRunning st0 = false → (currentGen st0 < 1000)%nat →
  index_draws_ok (length (cities st0)) g →
  ∃ st g',
    ticks config (render st0) n (toggleRun (render st0)) g = Some (st, g') ∧
    currentGen st = (currentGen st0 + n)%nat ∧
    isRunning st = true ∧
    well_formed st ∧
    ((1 ≤ n)%nat →
       length (population st) = (1 `max` GAConfig.populationSize config)%nat).
Proof.
  intros Hwf Hrun Hc _.
  pose proof (render_well_formed st0 Hwf) as Hwr.
  destruct (ticks_spec config (render st0) n (toggleRun (render st0)) g Hwr Hc)
    as (st & g' & Ht & Hwf' & _ & _ & Hgen & Hr & Hpop); [done|done| |].
  { apply leb_refl. by apply well_formed_best_not_nan. }
  exists st, g'. split; [done|]. split; [done|].
  split; [rewrite Hr; simpl; by rewrite Hrun|]. split; [done|].
  intros Hn. by destruct (Hpop Hn).
Qed.

Lemma generation_ceiling_missed_witness :
  ∃ st g',
    ticks example_config (render example_state) 1001
      (toggleRun (render example_state)) half = Some (st, g') ∧
    currentGen st = (currentGen example_state + 1001)%nat ∧
    isRunning st = true ∧
    well_formed st ∧
    ((1 ≤ 1001)%nat →
       length (population st) = (1 `max` GAConfig.populationSize example_config)%nat).
Proof.
  apply generation_ceiling_missed.
  - exact example_state_well_formed.
  - reflexivity.
  - simpl. lia.
  - exact index_draws_half.
Defined.

(** [reset] with the draws [square_reset_draws] leaves [square_state]: the
    draws of the comparator are below [0.5], and the insertion sort of
    this embedding then keeps the order of the cities. *)
Lemma square_state_reset :
  fst <$> reset square_config square_reset_draws = Some square_state.
Proof. by vm_compute. Qed.

Lemma unit_draws_square : unit_draws square_draws.
Proof.
  intros k. unfold square_draws.
  do 12 (destruct k as [|k]; [by split|]). by split.
Qed.

(** C2.  The best-ever record gets longer from one generation to the
    next.  On the rendered [square_state] (population and record: the tour
    [0; 1; 2; 3]) the first tick breeds the perimeter [0; 2; 1; 3], which
    becomes the record; the second tick breeds [0; 1; 3; 2] from the same
    click-time population, compares it with the click-time record
    [0; 1; 2; 3], finds it shorter and stores it: the record after the
    second tick is longer than the record after the first, which was an
    individual of the population of the first generation. *)
Theorem best_ever_rises :
  ∃ st0 st1 st2,
    square_run 0 = Some st0 ∧ square_run 1 = Some st1 ∧ square_run 2 = Some st2 ∧
    City.id <$> Individual.path (bestIndividual st0) = [0; 1; 2; 3]%nat ∧
    City.id <$> Individual.path (bestIndividual st1) = [0; 2; 1; 3]%nat ∧
    City.id <$> Individual.path (bestIndividual st2) = [0; 1; 3; 2]%nat ∧
    (Individual.length (bestIndividual st1)
       <? Individual.length (bestIndividual st2)) = true ∧
    (Individual.length (bestIndividual st2)
       <? Individual.length (bestIndividual st0)) = true ∧
    bestIndividual st1 ∈ population st1 ∧
    bestIndividual st2 ∈ population st2.
Proof.
  destruct (square_run 0) as [st0|] eqn:E0; [|vm_compute in E0; discriminate E0].
  destruct (square_run 1) as [st1|] eqn:E1; [|vm_compute in E1; discriminate E1].
  destruct (square_run 2) as [st2|] eqn:E2; [|vm_compute in E2; discriminate E2].
  exists st0, st1, st2. split; [done|]. split; [done|]. split; [done|].
  vm_compute in E0, E1, E2. injection E0 as <-. injection E1 as <-. injection E2 as <-.
  repeat (split; [by vm_compute|]). split; left.
Qed.

(** X3.  With [populationSize >= 1], [1 <= cityCount < 2 ^ 53] and draws in
    [[0,1)], every index drawn lies within the tours, and [reset], the
    render, the button and any number [n] of ticks of the timer run without
    a [TypeError].  The final state is well-formed, it has the cities that
    [reset] generated ([cityCount] of them) and [populationSize]
    individuals, [isRunning] is [true], and its generation counter is [n]:
    it is not capped at 1000. *)
Theorem timer_from_reset (config : GAConfig.t) (n : nat) (g : RNG) :
  (1 ≤ GAConfig.populationSize config)%nat →
  (1 ≤ GAConfig.cityCount config)%nat →
  (Z.of_nat (GAConfig.cityCount config) < 2 ^ 53)%Z →
  unit_draws g →
  index_draws_ok (GAConfig.cityCount config) g ∧
  ∃ st0 g0 st g',
    reset config g = Some (st0, g0) ∧
    ticks config (render st0) n (toggleRun (render st0)) g0 = Some (st, g') ∧
    well_formed st ∧
    cities st = cities st0 ∧
    length (cities st) = GAConfig.cityCount config ∧
    length (population st) = GAConfig.populationSize config ∧
    currentGen st = n ∧
    isRunning st = true.
Proof.
  intros Hsize Hcount Hlt Hg. split; [by apply unit_draws_index|].
  destruct (reset_spec config g Hsize Hg)
    as (st0 & g0 & Hr & Hwf & Hgen & Hrun & Hcities & Hpop).
  pose proof (render_well_formed st0 Hwf) as Hwr.
  destruct (ticks_spec config (render st0) n (toggleRun (render st0)) g0 Hwr)
    as (st & g' & Ht & Hwf' & Hc & _ & Hcnt & Hr' & Hlen); [simpl; lia|done|done| |].
  { apply leb_refl. by apply well_formed_best_not_nan. }
  exists st0, g0, st, g'. split; [done|]. split; [done|]. split; [done|].
  split; [done|]. split; [by rewrite Hc|].
  split; [|split; [rewrite Hcnt; simpl; lia|rewrite Hr'; simpl; by rewrite Hrun]].
  destruct n as [|n].
  - simpl in Ht. injection Ht as <- <-. simpl.
    by rewrite (sort_by_perm by_length_asc (population st0)).
  - destruct Hlen as [-> _]; lia.
Qed.

Lemma timer_from_reset_witness :
  index_draws_ok (GAConfig.cityCount example_config) half ∧
  ∃ st0 g0 st g',
    reset example_config half = Some (st0, g0) ∧
    ticks example_config (render st0) 5 (toggleRun (render st0)) g0 = Some (st, g') ∧
    well_formed st ∧
    cities st = cities st0 ∧
    length (cities st) = GAConfig.cityCount example_config ∧
    length (population st) = GAConfig.populationSize example_config ∧
    currentGen st = 5%nat ∧
    isRunning st = true.
Proof.
  apply timer_from_reset.
  - simpl. lia.
  - simpl. lia.
  - done.
  - exact unit_draws_half.
Defined.

(** X13.  Under the timer every generation is bred from the population of
    the render in which the button was pressed, and its elite is copied
    into every generation: after [n >= 1] ticks, every individual of that
    click-time population is matched by an individual of the current
    population whose fitness is at least as high.  (Nothing relates the
    best fitness of one generation to that of the next.) *)
Theorem elite_survives_every_tick (config : GAConfig.t) (n : nat)
    (st0 st : RunState) (g g' : RNG) :
  well_formed st0 → (currentGen st0 < 1000)%nat → (1 ≤ n)%nat →
  index_draws_ok (length (cities st0)) g →
  ticks config (render st0) n (toggleRun (render st0)) g = Some (st, g') →
  ∀ ind, ind ∈ population st0 →
    ∃ ind', ind' ∈ population st ∧
      (Individual.fitness ind <=? Individual.fitness ind') = true.
Proof.
  intros Hwf Hc Hn _ Ht ind Hind.
  pose proof (render_well_formed st0 Hwf) as Hwr.
  destruct (ticks_spec config (render st0) n (toggleRun (render st0)) g Hwr Hc)
    as (st1 & g1 & Ht1 & _ & _ & _ & _ & _ & Hpop); [done|done| |].
  { apply leb_refl. by apply well_formed_best_not_nan. }
  rewrite Ht in Ht1. injection Ht1 as <- <-.
  destruct (Hpop Hn) as [_ Hel]. apply Hel. simpl.
  by rewrite (sort_by_perm by_length_asc (population st0)).
Qed.

Lemma elite_survives_every_tick_witness :
  ∃ st g',
    ticks example_config (render example_state) 3
      (toggleRun (render example_state)) half = Some (st, g') ∧
    ∀ ind, ind ∈ population example_state →
      ∃ ind', ind' ∈ population st ∧
        (Individual.fitness ind <=? Individual.fitness ind') = true.
Proof.
  destruct (ticks example_config (render example_state) 3
              (toggleRun (render example_state)) half) as [[st g']|] eqn:E;
    [|vm_compute in E; discriminate E].
  exists st, g'. split; [done|].
  apply (elite_survives_every_tick example_config 3 example_state st half g').
  - exact example_state_well_formed.
  - simpl. lia.
  - lia.
  - exact index_draws_half.
  - exact E.
Defined.

(** X16.  Under the timer, after any number of ticks the best-ever record
    is at most as long as the record of the render in which the button was
    pressed, and at most as long as every individual of the current
    population.  (It may be longer than the record after an earlier
    tick.) *)
Theorem best_ever_under_timer (config : GAConfig.t) (n : nat)
    (st0 st : RunState) (g g' : RNG) :
  well_formed st0 → (currentGen st0 < 1000)%nat →
  index_draws_ok (length (cities st0)) g →
  ticks config (render st0) n (toggleRun (render st0)) g = Some (st, g') →
  (Individual.length (bestIndividual st)
     <=? Individual.length (bestIndividual st0)) = true ∧
  ∀ ind, ind ∈ population st →
    (Individual.length (bestIndividual st) <=? Individual.length ind) = true.
Proof.
  intros Hwf Hc _ Ht.
  pose proof (render_well_formed st0 Hwf) as Hwr.
  destruct (ticks_spec config (render st0) n (toggleRun (render st0)) g Hwr Hc)
    as (st1 & g1 & Ht1 & Hwf1 & _ & Hrec & _); [done|done| |].
  { apply leb_refl. by apply well_formed_best_not_nan. }
  rewrite Ht in Ht1. injection Ht1 as <- <-.
  split; [done|]. by destruct Hwf1 as (_ & _ & _ & _ & _ & Hle).
Qed.

Lemma best_ever_under_timer_witness :
  ∃ st g',
    ticks example_config (render example_state) 3
      (toggleRun (render example_state)) half = Some (st, g') ∧
    (Individual.length (bestIndividual st)
       <=? Individual.length (bestIndividual example_state)) = true ∧
    ∀ ind, ind ∈ population st →
      (Individual.length (bestIndividual st) <=? Individual.length ind) = true.
Proof.
  destruct (ticks example_config (render example_state) 3
              (toggleRun (render example_state)) half) as [[st g']|] eqn:E;
    [|vm_compute in E; discriminate E].
  exists st, g'. split; [done|].
  apply (best_ever_under_timer example_config 3 example_state st half g').
  - exact example_state_well_formed.
  - simpl. lia.
  - exact index_draws_half.
  - exact E.
Defined.

(** * A single city *)

Lemma calculatePathLength_single c : finite_city c → calculatePathLength [c] = 0.
Proof.
  intros [Hx Hy]. rewrite calculatePathLength_edges.
  change (edge_lengths [c]) with [distance c c]. simpl.
  by rewrite distance_same.
Qed.

Lemma tour_of_single c ind :
  finite_city c → tour_of [c] ind → ind = Individual.mk [c] infinity 0.
Proof.
  intros Hc [Hp ->]. apply Permutation_singleton_r in Hp. rewrite Hp.
  unfold mkIndividual, calculateFitness. simpl Individual.length.
  by rewrite calculatePathLength_single.
Qed.

(** C7.  No guard protects the division.  With [cityCount = 1] (and
    [populationSize >= 1], draws in [[0,1)]) nothing is rejected: [reset]
    succeeds and so does the generation step that follows, and for the
    best-ever record, for every individual of the initial population and
    for every individual of the next generation the length is [0],
    [calculateFitness] is the quotient [1 / 0], and the fitness stored is
    [+Infinity], which is not a finite number. *)
Theorem fitness_division_by_zero (config : GAConfig.t) (g : RNG) :
  GAConfig.cityCount config = 1%nat →
  (1 ≤ GAConfig.populationSize config)%nat →
  unit_draws g →
  ∃ st g' st1 g1,
    reset config g = Some (st, g') ∧
    gaIteration config (render st) g' = Some (st1, g1) ∧
    Forall (λ ind,
              Individual.length ind = 0 ∧
              calculateFitness ind = 1 / 0 ∧
              Individual.fitness ind = infinity ∧
              is_finite (Individual.fitness ind) = false)
           (bestIndividual st :: population st ++ population st1).
Proof.
  intros Hcount Hsize Hg.
  destruct (reset_spec config g Hsize Hg)
    as (st & g' & Hr & Hwf & _ & _ & Hcities & _).
  pose proof (render_well_formed st Hwf) as Hwr.
  destruct (gaIteration_spec config (render st) g' Hwr)
    as (st1 & g1 & Hstep & Hwf1 & Hc1 & _).
  exists st, g', st1, g1. split; [done|]. split; [done|].
  destruct Hwf as (_ & Hfin & _ & Hpop & Hbest & _).
  destruct Hwf1 as (_ & _ & _ & Hpop1 & _). rewrite Hc1 in Hpop1. simpl in Hpop1.
  rewrite Hcount in Hcities.
  destruct (cities st) as [|c [|? ?]]; try done.
  apply Forall_inv in Hfin.
  assert (H : ∀ ind, tour_of [c] ind →
            Individual.length ind = 0 ∧ calculateFitness ind = 1 / 0 ∧
            Individual.fitness ind = infinity ∧
            is_finite (Individual.fitness ind) = false).
  { intros ind Hind. by rewrite (tour_of_single c ind Hfin Hind). }
  constructor; [by apply H|]. apply Forall_app. split.
  - eapply Forall_impl; [exact Hpop|]. exact H.
  - eapply Forall_impl; [exact Hpop1|]. exact H.
Qed.

Lemma fitness_division_by_zero_witness :
  ∃ st g' st1 g1,
    reset single_config half = Some (st, g') ∧
    gaIteration single_config (render st) g' = Some (st1, g1) ∧
    Forall (λ ind,
              Individual.length ind = 0 ∧
              calculateFitness ind = 1 / 0 ∧
              Individual.fitness ind = infinity ∧
              is_finite (Individual.fitness ind) = false)
           (bestIndividual st :: population st ++ population st1).
Proof.
  apply fitness_division_by_zero.
  - reflexivity.
  - simpl. lia.
  - exact unit_draws_half.
Defined.
